(** * PlayRho: rigid-body state, mass data, velocity integration, rope joint

    A shallow embedding of the parts of PlayRho (and of the legacy Box2D
    fork it grew out of) that the body, joint, chain-shape and wake-state
    contracts are about.

    Conventions of the embedding.
    - [Real] is modelled by the real numbers [R]: rounding, infinities and
      NaN of the build-time floating or fixed point type are abstracted.
      The unit constants ([Kilogram], [Radian], [SquareRadian], ...) all
      denote 1 in SI base units and are therefore not written.
    - [Body::FlagsType] is a 16-bit unsigned word, modelled by [Z] with
      [Z.lor] and [Z.land]; the enumerators of [Body::Flag] are single bits.
    - Pointers to bodies are addresses ([BodyPtr]); a C++ exception or a
      failed assertion is the [None] result of an [option]. *)

From Stdlib Require Import Reals Lra Psatz ZArith Bool List.
From stdpp Require Import base decidable option list gmap.

(** ** Decidable comparisons on [Real] *)

#[global] Instance Req_decision : EqDecision R := Req_dec_T.
#[global] Instance Rlt_decision : RelDecision Rlt := Rlt_dec.
#[global] Instance Rle_decision : RelDecision Rle := Rle_dec.
#[global] Instance Rgt_decision : RelDecision Rgt := Rgt_dec.
#[global] Instance Rge_decision : RelDecision Rge := Rge_dec.

(** ** Math layer: 2-vectors, directions, positions, velocities *)

Record Vec2 : Type := mkVec2 { GetX : R; GetY : R }.

#[global] Instance Vec2_eq_dec : EqDecision Vec2.
Proof. solve_decision. Defined.

Module Math.
Local Open Scope R_scope.

Definition Vec2_zero : Vec2 := mkVec2 0 0.

Definition Square (x : R) : R := x * x.

Definition vadd (a b : Vec2) : Vec2 := mkVec2 (GetX a + GetX b) (GetY a + GetY b).
Definition vsub (a b : Vec2) : Vec2 := mkVec2 (GetX a - GetX b) (GetY a - GetY b).
(** [s * v] and [v * s] *)
Definition vscale (s : R) (v : Vec2) : Vec2 := mkVec2 (s * GetX v) (s * GetY v).
(** [v / s], componentwise *)
Definition vdiv (v : Vec2) (s : R) : Vec2 := mkVec2 (GetX v / s) (GetY v / s).

Definition Dot (a b : Vec2) : R := GetX a * GetX b + GetY a * GetY b.
Definition Cross (a b : Vec2) : R := GetX a * GetY b - GetY a * GetX b.

Definition GetMagnitudeSquared (v : Vec2) : R := Square (GetX v) + Square (GetY v).
Definition GetMagnitude (v : Vec2) : R := sqrt (GetMagnitudeSquared v).

(** Counter-clockwise quarter turn. *)
Definition GetRevPerpendicular (v : Vec2) : Vec2 := mkVec2 (- GetY v) (GetX v).

(** [Min(a, b)] of Math.hpp: [(a < b) ? a : b]. *)
Definition Min (a b : R) : R := if bool_decide (a < b) then a else b.
End Math.

(** A direction: the cosine and sine of an angle. *)
Record UnitVec : Type := mkUnitVec { uvX : R; uvY : R }.

Record Velocity : Type := mkVelocity { linear : Vec2; angular : R }.
(** [Velocity{}]: no motion. *)
Definition zero_velocity : Velocity := mkVelocity (mkVec2 0 0) 0.

Record Position : Type := mkPosition { p_linear : Vec2; p_angular : R }.
Record Transformation : Type := mkTransformation { xf_p : Vec2; xf_q : UnitVec }.

(** [Sweep{pos}] and [Sweep{pos, lc}] set both end positions to [pos]. *)
Record Sweep : Type := mkSweep { pos0 : Position; pos1 : Position; localCenter : Vec2; alpha0 : R }.

Record MassData : Type := mkMassData { md_mass : R; md_center : Vec2; md_I : R }.

Module Geometry.
Import Math.
Local Open Scope R_scope.

Definition uv_vec (q : UnitVec) : Vec2 := mkVec2 (uvX q) (uvY q).

(** Rotation of [v] by the direction [q]. *)
Definition Rotate (v : Vec2) (q : UnitVec) : Vec2 :=
  mkVec2 (uvX q * GetX v - uvY q * GetY v) (uvY q * GetX v + uvX q * GetY v).

(** Rotate, then translate. *)
Definition Transform (v : Vec2) (xf : Transformation) : Vec2 :=
  vadd (Rotate v (xf_q xf)) (xf_p xf).

Definition Sweep1 (p : Position) : Sweep := mkSweep p p Vec2_zero 0.
Definition Sweep2 (p : Position) (lc : Vec2) : Sweep := mkSweep p p lc 0.
End Geometry.

(** ** Body flags *)

(** The enumerators of [Body::Flag] are declared in Body.hpp, which is not
    among the sources; their numeric values are a parameter of the
    development: any choice of pairwise distinct bits of the 16-bit word. *)
Class FlagLayout : Type := {
  awakeBit : Z;
  autoSleepBit : Z;
  impenetrableBit : Z;
  fixedRotationBit : Z;
  enabledBit : Z;
  velocityBit : Z;
  accelerationBit : Z;
  massDataDirtyBit : Z;
  layout_bits := [awakeBit; autoSleepBit; impenetrableBit; fixedRotationBit;
                  enabledBit; velocityBit; accelerationBit; massDataDirtyBit];
  layout_range : Forall (fun b => (0 <= b < 16)%Z) layout_bits;
  layout_distinct : NoDup layout_bits
}.

Inductive BodyType : Type := Static | Kinematic | Dynamic.

#[global] Instance BodyType_eq_dec : EqDecision BodyType.
Proof. solve_decision. Defined.

Record BodyConf : Type := mkBodyConf {
  bc_type : BodyType;
  bc_location : Vec2;
  bc_angle : R;
  bc_linearVelocity : Vec2;
  bc_angularVelocity : R;
  bc_linearAcceleration : Vec2;
  bc_angularAcceleration : R;
  bc_linearDamping : R;
  bc_angularDamping : R;
  bc_underActiveTime : R;
  bc_bullet : bool;
  bc_fixedRotation : bool;
  bc_allowSleep : bool;
  bc_awake : bool;
  bc_enabled : bool
}.

Section BodyFlags.
Context `{L : FlagLayout}.
Local Open Scope Z_scope.

Definition FlagsType_modulus : Z := 2 ^ 16.

Definition flag (bit : Z) : Z := Z.shiftl 1 bit.

Definition e_awakeFlag : Z := flag awakeBit.
Definition e_autoSleepFlag : Z := flag autoSleepBit.
Definition e_impenetrableFlag : Z := flag impenetrableBit.
Definition e_fixedRotationFlag : Z := flag fixedRotationBit.
Definition e_enabledFlag : Z := flag enabledBit.
Definition e_velocityFlag : Z := flag velocityBit.
Definition e_accelerationFlag : Z := flag accelerationBit.
Definition e_massDataDirtyFlag : Z := flag massDataDirtyBit.

(** [(flags & mask) != 0] *)
Definition has_flag (flags mask : Z) : bool := negb (Z.land flags mask =? 0).

(** [flags &= ~mask]: the complement is taken after promotion to [int]. *)
Definition clear_flag (flags mask : Z) : Z := Z.land flags (Z.lnot mask).

(** Modelled from the spec: [Body::GetFlags(BodyType)] is declared in
    Body.hpp; "dynamic => velocity- and acceleration-capable; kinematic =>
    impenetrable + velocity-capable; static => impenetrable only", which is
    also the [switch] of the legacy [Body::GetFlags]. *)
Definition GetFlags_type (type : BodyType) : Z :=
  match type with
  | Dynamic => Z.lor e_velocityFlag e_accelerationFlag
  | Kinematic => Z.lor e_impenetrableFlag e_velocityFlag
  | Static => e_impenetrableFlag
  end.

(** [Body::GetFlags(const BodyConf&)] of the current engine. *)
Definition GetFlags (bd : BodyConf) : Z :=
  let flags := GetFlags_type (bc_type bd) in
  let flags := if bc_bullet bd then Z.lor flags e_impenetrableFlag else flags in
  let flags := if bc_fixedRotation bd then Z.lor flags e_fixedRotationFlag else flags in
  let flags := if bc_allowSleep bd then Z.lor flags e_autoSleepFlag else flags in
  let flags :=
    if bc_awake bd then
      if has_flag flags e_velocityFlag then Z.lor flags e_awakeFlag else flags
    else
      if negb (bc_allowSleep bd) && has_flag flags e_velocityFlag
      then Z.lor flags e_awakeFlag else flags in
  let flags := if bc_enabled bd then Z.lor flags e_enabledFlag else flags in
  flags.

(** [Body::GetFlags(const BodyDef&)] of the legacy engine
    ([e_activeFlag] is the legacy name of [e_enabledFlag]). *)
Definition Legacy_GetFlags (bd : BodyConf) : Z :=
  let flags := 0 in
  let flags := if bc_bullet bd then Z.lor flags e_impenetrableFlag else flags in
  let flags := if bc_fixedRotation bd then Z.lor flags e_fixedRotationFlag else flags in
  let flags := if bc_allowSleep bd then Z.lor flags e_autoSleepFlag else flags in
  let flags := if bc_awake bd then Z.lor flags e_awakeFlag else flags in
  let flags := if bc_enabled bd then Z.lor flags e_enabledFlag else flags in
  match bc_type bd with
  | Dynamic => Z.lor flags (Z.lor e_velocityFlag e_accelerationFlag)
  | Kinematic => Z.lor flags (Z.lor e_impenetrableFlag e_velocityFlag)
  | Static => Z.lor flags e_impenetrableFlag
  end.
End BodyFlags.

(** The bit assignment of PlayRho's Body.hpp: one layout that exists. *)
Program Definition playrho_layout : FlagLayout := {|
  awakeBit := 1; autoSleepBit := 2; impenetrableBit := 3; fixedRotationBit := 4;
  enabledBit := 5; velocityBit := 7; accelerationBit := 8; massDataDirtyBit := 9
|}.
Next Obligation. repeat constructor; lia. Qed.
Next Obligation. apply (NoDup_ListNoDup _). repeat constructor; simpl; intuition lia. Qed.

(** ** Bodies of the current engine *)

(** Address of a body; [nullptr] is address 0. *)
Definition BodyPtr : Type := N.
Definition nullptr : BodyPtr := 0%N.

(** The state of a joint that bodies read through their [Joint*]. *)
Record Joint : Type := mkJoint {
  GetBodyA : BodyPtr;
  GetBodyB : BodyPtr;
  GetCollideConnected : bool
}.

(** A fixture as the body sees it: its density and the mass data of its
    shape at that density ([GetMassData(fixture)]). *)
Record Fixture : Type := mkFixture { GetDensity : R; GetMassData : MassData }.

(** [Body::KeyedJointPtr]: the other body of the joint, and the joint. *)
Definition KeyedJointPtr : Type := (BodyPtr * Joint)%type.

Record Body : Type := mkBody {
  this : BodyPtr;
  m_xf : Transformation;
  m_sweep : Sweep;
  m_velocity : Velocity;
  m_flags : Z;
  m_linearAcceleration : Vec2;
  m_angularAcceleration : R;
  m_invMass : R;
  m_invRotI : R;
  m_linearDamping : R;
  m_angularDamping : R;
  m_underActiveTime : R;
  m_joints : list KeyedJointPtr;
  m_fixtures : list Fixture
}.

Definition set_m_sweep (v : Sweep) (b : Body) : Body :=
  mkBody (this b) (m_xf b) v (m_velocity b) (m_flags b) (m_linearAcceleration b)
    (m_angularAcceleration b) (m_invMass b) (m_invRotI b) (m_linearDamping b)
    (m_angularDamping b) (m_underActiveTime b) (m_joints b) (m_fixtures b).
Definition set_m_velocity (v : Velocity) (b : Body) : Body :=
  mkBody (this b) (m_xf b) (m_sweep b) v (m_flags b) (m_linearAcceleration b)
    (m_angularAcceleration b) (m_invMass b) (m_invRotI b) (m_linearDamping b)
    (m_angularDamping b) (m_underActiveTime b) (m_joints b) (m_fixtures b).
Definition set_m_flags (v : Z) (b : Body) : Body :=
  mkBody (this b) (m_xf b) (m_sweep b) (m_velocity b) v (m_linearAcceleration b)
    (m_angularAcceleration b) (m_invMass b) (m_invRotI b) (m_linearDamping b)
    (m_angularDamping b) (m_underActiveTime b) (m_joints b) (m_fixtures b).
Definition set_m_invMass (v : R) (b : Body) : Body :=
  mkBody (this b) (m_xf b) (m_sweep b) (m_velocity b) (m_flags b) (m_linearAcceleration b)
    (m_angularAcceleration b) v (m_invRotI b) (m_linearDamping b)
    (m_angularDamping b) (m_underActiveTime b) (m_joints b) (m_fixtures b).
Definition set_m_invRotI (v : R) (b : Body) : Body :=
  mkBody (this b) (m_xf b) (m_sweep b) (m_velocity b) (m_flags b) (m_linearAcceleration b)
    (m_angularAcceleration b) (m_invMass b) v (m_linearDamping b)
    (m_angularDamping b) (m_underActiveTime b) (m_joints b) (m_fixtures b).
Definition set_m_underActiveTime (v : R) (b : Body) : Body :=
  mkBody (this b) (m_xf b) (m_sweep b) (m_velocity b) (m_flags b) (m_linearAcceleration b)
    (m_angularAcceleration b) (m_invMass b) (m_invRotI b) (m_linearDamping b)
    (m_angularDamping b) v (m_joints b) (m_fixtures b).
Definition set_m_joints (v : list KeyedJointPtr) (b : Body) : Body :=
  mkBody (this b) (m_xf b) (m_sweep b) (m_velocity b) (m_flags b) (m_linearAcceleration b)
    (m_angularAcceleration b) (m_invMass b) (m_invRotI b) (m_linearDamping b)
    (m_angularDamping b) (m_underActiveTime b) v (m_fixtures b).

Record MovementConf : Type := mkMovementConf { maxTranslation : R; maxRotation : R }.

Section BodyOps.
Context `{L : FlagLayout}.
Import Math Geometry.
Local Open Scope R_scope.

(** *** Inline members of Body.hpp

    Modelled from the spec: the accessors below are declared inline in
    Body.hpp, which is not among the sources. They read or write the
    flag or field the spec names for them. *)

Definition IsSpeedable (b : Body) : bool := has_flag (m_flags b) e_velocityFlag.
Definition IsAccelerable (b : Body) : bool := has_flag (m_flags b) e_accelerationFlag.
Definition IsFixedRotation (b : Body) : bool := has_flag (m_flags b) e_fixedRotationFlag.
Definition IsAwake (b : Body) : bool := has_flag (m_flags b) e_awakeFlag.
Definition IsSleepingAllowed (b : Body) : bool := has_flag (m_flags b) e_autoSleepFlag.

Definition SetAwakeFlag (b : Body) : Body := set_m_flags (Z.lor (m_flags b) e_awakeFlag) b.
Definition ResetUnderActiveTime (b : Body) : Body := set_m_underActiveTime 0 b.
Definition UnsetMassDataDirty (b : Body) : Body :=
  set_m_flags (clear_flag (m_flags b) e_massDataDirtyFlag) b.

Definition GetTransformation (b : Body) : Transformation := m_xf b.
Definition GetLocation (b : Body) : Vec2 := xf_p (m_xf b).
Definition GetAngle (b : Body) : R := p_angular (pos1 (m_sweep b)).
Definition GetWorldCenter (b : Body) : Vec2 := p_linear (pos1 (m_sweep b)).
Definition GetJoints (b : Body) : list KeyedJointPtr := m_joints b.
Definition GetFixtures (b : Body) : list Fixture := m_fixtures b.

(** *** Mass data *)

(** [ComputeMassData(const Body&)]: the sum over the fixtures of positive
    density (the loop of the legacy [box2d::ComputeMassData]; the current
    engine's is the same loop). *)
Definition ComputeMassData_step (acc : MassData) (fixture : Fixture) : MassData :=
  if bool_decide (GetDensity fixture > 0) then
    let massData := GetMassData fixture in
    mkMassData (md_mass acc + md_mass massData)
               (vadd (md_center acc) (vscale (md_mass massData) (md_center massData)))
               (md_I acc + md_I massData)
  else acc.

Definition ComputeMassData (b : Body) : MassData :=
  fold_left ComputeMassData_step (GetFixtures b) (mkMassData 0 Vec2_zero 0).

(** [Body::ResetMassData] *)
Definition ResetMassData (b : Body) : Body :=
  if negb (IsAccelerable b) then
    let b := set_m_invMass 0 b in
    let b := set_m_invRotI 0 b in
    let b := set_m_sweep (Sweep1 (mkPosition (GetLocation b) (GetAngle b))) b in
    UnsetMassDataDirty b
  else
    let massData := ComputeMassData b in
    let mass := if bool_decide (md_mass massData > 0) then md_mass massData else 1 in
    let b := set_m_invMass (1 / mass) b in
    let localCenter := vscale (m_invMass b) (md_center massData) in
    let b :=
      if bool_decide (md_I massData > 0) && negb (IsFixedRotation b) then
        let lengthSquared := GetMagnitudeSquared localCenter in
        let I := md_I massData - mass * lengthSquared in
        set_m_invRotI (1 / I) b
      else set_m_invRotI 0 b in
    let oldCenter := GetWorldCenter b in
    let b := set_m_sweep
               (Sweep2 (mkPosition (Transform localCenter (GetTransformation b)) (GetAngle b))
                       localCenter) b in
    let newCenter := GetWorldCenter b in
    let deltaCenter := vsub newCenter oldCenter in
    let b := set_m_velocity
               (mkVelocity (vadd (linear (m_velocity b))
                                 (vscale (angular (m_velocity b)) (GetRevPerpendicular deltaCenter)))
                           (angular (m_velocity b))) b in
    UnsetMassDataDirty b.

(** *** Velocity *)

(** [Body::SetVelocity] *)
Definition SetVelocity (velocity : Velocity) (b : Body) : Body :=
  if bool_decide (linear velocity <> Vec2_zero) || bool_decide (angular velocity <> 0) then
    if negb (IsSpeedable b) then b
    else set_m_velocity velocity (ResetUnderActiveTime (SetAwakeFlag b))
  else set_m_velocity velocity b.

(** Free function [GetVelocity(const Body&, Time)] *)
Definition GetVelocity (body : Body) (h : R) : Velocity :=
  let velocity := m_velocity body in
  if IsAccelerable body then
    let lin := vadd (linear velocity) (vscale h (m_linearAcceleration body)) in
    let ang := angular velocity + h * m_angularAcceleration body in
    let lin := vdiv lin (1 + h * m_linearDamping body) in
    let ang := ang / (1 + h * m_angularDamping body) in
    mkVelocity lin ang
  else velocity.

(** Free function [Cap(Velocity, Time, MovementConf)] *)
Definition Cap (velocity : Velocity) (h : R) (conf : MovementConf) : Velocity :=
  let translation := vscale h (linear velocity) in
  let lsquared := GetMagnitudeSquared translation in
  let velocity :=
    if bool_decide (lsquared > Square (maxTranslation conf)) then
      let ratio := maxTranslation conf / sqrt lsquared in
      mkVelocity (vscale ratio (linear velocity)) (angular velocity)
    else velocity in
  let absRotation := Rabs (h * angular velocity) in
  if bool_decide (absRotation > maxRotation conf) then
    let ratio := maxRotation conf / absRotation in
    mkVelocity (linear velocity) (angular velocity * ratio)
  else velocity.

(** *** Joints of a body *)

(** [Body::Insert] for a joint *)
Definition Insert (joint : Joint) (b : Body) : bool * Body :=
  let bodyA := GetBodyA joint in
  let bodyB := GetBodyB joint in
  let other := if bool_decide (this b = bodyA) then bodyB
               else if bool_decide (this b = bodyB) then bodyA else nullptr in
  (true, set_m_joints (m_joints b ++ [(other, joint)]) b).

(** Free function [ShouldCollide(const Body&, const Body&)] *)
Definition ShouldCollide (lhs rhs : Body) : bool :=
  if negb (IsAccelerable lhs) && negb (IsAccelerable rhs) then false
  else
    let joints := GetJoints lhs in
    let it := find (fun ji : KeyedJointPtr =>
                      bool_decide (fst ji = this rhs) && negb (GetCollideConnected (snd ji)))
                   joints in
    match it with
    | None => true
    | Some _ => false
    end.
End BodyOps.

(** ** Bodies of the legacy engine *)

Module Legacy.
Import Math Geometry.

Record Body : Type := mkBody {
  this : BodyPtr;
  m_flags : Z;
  m_xf : Transformation;
  m_sweep : Sweep;
  m_velocity : Velocity;
  m_linearAcceleration : Vec2;
  m_angularAcceleration : R;
  m_invMass : R;
  m_invI : R;
  m_linearDamping : R;
  m_angularDamping : R;
  m_sleepTime : R;
  m_joints : list Joint;
  m_fixtures : list Fixture
}.

Definition set_m_flags (v : Z) (b : Body) : Body :=
  mkBody (this b) v (m_xf b) (m_sweep b) (m_velocity b) (m_linearAcceleration b)
    (m_angularAcceleration b) (m_invMass b) (m_invI b) (m_linearDamping b)
    (m_angularDamping b) (m_sleepTime b) (m_joints b) (m_fixtures b).
Definition set_m_sweep (v : Sweep) (b : Body) : Body :=
  mkBody (this b) (m_flags b) (m_xf b) v (m_velocity b) (m_linearAcceleration b)
    (m_angularAcceleration b) (m_invMass b) (m_invI b) (m_linearDamping b)
    (m_angularDamping b) (m_sleepTime b) (m_joints b) (m_fixtures b).
Definition set_m_velocity (v : Velocity) (b : Body) : Body :=
  mkBody (this b) (m_flags b) (m_xf b) (m_sweep b) v (m_linearAcceleration b)
    (m_angularAcceleration b) (m_invMass b) (m_invI b) (m_linearDamping b)
    (m_angularDamping b) (m_sleepTime b) (m_joints b) (m_fixtures b).
Definition set_m_invMass (v : R) (b : Body) : Body :=
  mkBody (this b) (m_flags b) (m_xf b) (m_sweep b) (m_velocity b) (m_linearAcceleration b)
    (m_angularAcceleration b) v (m_invI b) (m_linearDamping b)
    (m_angularDamping b) (m_sleepTime b) (m_joints b) (m_fixtures b).
Definition set_m_invI (v : R) (b : Body) : Body :=
  mkBody (this b) (m_flags b) (m_xf b) (m_sweep b) (m_velocity b) (m_linearAcceleration b)
    (m_angularAcceleration b) (m_invMass b) v (m_linearDamping b)
    (m_angularDamping b) (m_sleepTime b) (m_joints b) (m_fixtures b).
Definition set_m_sleepTime (v : R) (b : Body) : Body :=
  mkBody (this b) (m_flags b) (m_xf b) (m_sweep b) (m_velocity b) (m_linearAcceleration b)
    (m_angularAcceleration b) (m_invMass b) (m_invI b) (m_linearDamping b)
    (m_angularDamping b) v (m_joints b) (m_fixtures b).

Section Ops.
Context `{L : FlagLayout}.
Local Open Scope R_scope.

(** Modelled from the spec: inline members of the legacy Body.hpp,
    which is not among the sources. *)
Definition IsSpeedable (b : Body) : bool := has_flag (m_flags b) e_velocityFlag.
Definition IsAccelerable (b : Body) : bool := has_flag (m_flags b) e_accelerationFlag.
Definition IsFixedRotation (b : Body) : bool := has_flag (m_flags b) e_fixedRotationFlag.
Definition IsAwake (b : Body) : bool := has_flag (m_flags b) e_awakeFlag.
Definition UnsetMassDataDirty (b : Body) : Body :=
  set_m_flags (clear_flag (m_flags b) e_massDataDirtyFlag) b.
Definition GetTransformation (b : Body) : Transformation := m_xf b.
Definition GetLocation (b : Body) : Vec2 := xf_p (m_xf b).
Definition GetAngle (b : Body) : R := p_angular (pos1 (m_sweep b)).
Definition GetWorldCenter (b : Body) : Vec2 := p_linear (pos1 (m_sweep b)).

(** Modelled from the spec: the legacy [Body::SetAwake] (Body.hpp)
    "marks the body awake and resets its under-active timer"; only
    speedable bodies can be awake. *)
Definition SetAwake (b : Body) : Body :=
  if IsSpeedable b
  then set_m_sleepTime 0 (set_m_flags (Z.lor (m_flags b) e_awakeFlag) b)
  else b.

(** [box2d::ComputeMassData] *)
Definition ComputeMassData (b : Body) : MassData :=
  let step (acc : MassData) (fixture : Fixture) : MassData :=
    if bool_decide (GetDensity fixture > 0) then
      let massData := GetMassData fixture in
      mkMassData (md_mass acc + md_mass massData)
                 (vadd (md_center acc) (vscale (md_mass massData) (md_center massData)))
                 (md_I acc + md_I massData)
    else acc in
  fold_left step (m_fixtures b) (mkMassData 0 Vec2_zero 0).

(** Legacy [Body::ResetMassData] *)
Definition ResetMassData (b : Body) : Body :=
  if negb (IsAccelerable b) then
    let b := set_m_invMass 0 b in
    let b := set_m_invI 0 b in
    let b := set_m_sweep (Sweep1 (mkPosition (GetLocation b) (GetAngle b))) b in
    UnsetMassDataDirty b
  else
    let massData := ComputeMassData b in
    let mass := if bool_decide (md_mass massData > 0) then md_mass massData else 1 in
    let b := set_m_invMass (1 / mass) b in
    let localCenter := vscale (m_invMass b) (md_center massData) in
    let b :=
      if bool_decide (md_I massData > 0) && negb (IsFixedRotation b) then
        let lengthSquared := GetMagnitudeSquared localCenter in
        set_m_invI (1 / (md_I massData - mass * lengthSquared)) b
      else set_m_invI 0 b in
    let oldCenter := GetWorldCenter b in
    let b := set_m_sweep
               (Sweep2 (mkPosition (Transform localCenter (GetTransformation b)) (GetAngle b))
                       localCenter) b in
    let b := set_m_velocity
               (mkVelocity
                  (vadd (linear (m_velocity b))
                        (vscale (angular (m_velocity b))
                                (GetRevPerpendicular (vsub (GetWorldCenter b) oldCenter))))
                  (angular (m_velocity b))) b in
    UnsetMassDataDirty b.

(** Legacy [Body::SetVelocity] *)
Definition SetVelocity (velocity : Velocity) (b : Body) : Body :=
  if bool_decide (linear velocity <> Vec2_zero) || bool_decide (angular velocity <> 0) then
    if negb (IsSpeedable b) then b
    else set_m_velocity velocity (SetAwake b)
  else set_m_velocity velocity b.

(** The loop of the legacy [Body::ShouldCollide] over [m_joints]. *)
Fixpoint joints_allow (other : BodyPtr) (joints : list Joint) : bool :=
  match joints with
  | [] => true
  | joint :: rest =>
      if bool_decide (GetBodyA joint = other) || bool_decide (GetBodyB joint = other) then
        if negb (GetCollideConnected joint) then false
        else joints_allow other rest
      else joints_allow other rest
  end.

(** Legacy [Body::ShouldCollide] *)
Definition ShouldCollide (b other : Body) : bool :=
  if negb (IsAccelerable b) && negb (IsAccelerable other) then false
  else joints_allow (this other) (m_joints b).

(** Legacy [box2d::GetVelocity] *)
Definition GetVelocity (body : Body) (h : R) : Velocity :=
  let velocity := m_velocity body in
  if IsAccelerable body then
    let lin := vadd (linear velocity) (vscale h (m_linearAcceleration body)) in
    let ang := angular velocity + h * m_angularAcceleration body in
    let lin := vscale (1 / (1 + h * m_linearDamping body)) lin in
    let ang := ang * (1 / (1 + h * m_angularDamping body)) in
    mkVelocity lin ang
  else velocity.
End Ops.
End Legacy.

(** ** Rope joint (legacy engine) *)

Inductive LimitState : Type := e_inactiveLimit | e_atLowerLimit | e_atUpperLimit | e_equalLimits.

(** The solver's view of a body. *)
Record BodyConstraint : Type := mkBodyConstraint {
  bcn_position : Position;
  bcn_velocity : Velocity;
  bcn_localCenter : Vec2;
  bcn_invMass : R;
  bcn_invRotInertia : R
}.

Definition BodyConstraint_SetVelocity (v : Velocity) (c : BodyConstraint) : BodyConstraint :=
  mkBodyConstraint (bcn_position c) v (bcn_localCenter c) (bcn_invMass c) (bcn_invRotInertia c).

(** The fields of [StepConf] that the joint reads. *)
Record StepConf : Type := mkStepConf { GetInvTime : R; dtRatio : R; doWarmStart : bool }.

Record RopeJoint : Type := mkRopeJoint {
  rj_bodyA : BodyPtr;
  rj_bodyB : BodyPtr;
  m_localAnchorA : Vec2;
  m_localAnchorB : Vec2;
  m_maxLength : R;
  m_length : R;
  m_impulse : R;
  m_rA : Vec2;
  m_rB : Vec2;
  m_u : UnitVec;
  m_mass : R;
  m_state : LimitState
}.

Definition set_m_impulse (v : R) (j : RopeJoint) : RopeJoint :=
  mkRopeJoint (rj_bodyA j) (rj_bodyB j) (m_localAnchorA j) (m_localAnchorB j) (m_maxLength j)
    (m_length j) v (m_rA j) (m_rB j) (m_u j) (m_mass j) (m_state j).

Module Rope.
Import Math Geometry.
Local Open Scope R_scope.

(** [a - b] and [a + b] on velocities. *)
Definition velocity_sub (a b : Velocity) : Velocity :=
  mkVelocity (vsub (linear a) (linear b)) (angular a - angular b).
Definition velocity_add (a b : Velocity) : Velocity :=
  mkVelocity (vadd (linear a) (linear b)) (angular a + angular b).

(** The constraint velocity [Cdot] that [SolveVelocityConstraints]
    computes from the two velocities it read. *)
Definition Cdot_of (j : RopeJoint) (step : StepConf) (velA velB : Velocity) : R :=
  let vpA := vadd (linear velA) (vscale (angular velA) (GetRevPerpendicular (m_rA j))) in
  let vpB := vadd (linear velB) (vscale (angular velB) (GetRevPerpendicular (m_rB j))) in
  let C := m_length j - m_maxLength j in
  let vpDelta := vsub vpB vpA in
  Dot (uv_vec (m_u j)) vpDelta + (if bool_decide (C < 0) then GetInvTime step * C else 0).

(** [RopeJoint::SolveVelocityConstraints]: the returned value, the joint
    and the body constraints after the call; [None] when [bodies.at]
    throws. *)
Definition SolveVelocityConstraints
    (j : RopeJoint) (bodies : gmap N BodyConstraint) (step : StepConf)
  : option (R * RopeJoint * gmap N BodyConstraint) :=
  match bodies !! rj_bodyA j, bodies !! rj_bodyB j with
  | Some bodiesA, Some bodiesB =>
      let velA := bcn_velocity bodiesA in
      let velB := bcn_velocity bodiesB in
      let Cdot := Cdot_of j step velA velB in
      let impulse := (- m_mass j) * Cdot in
      let oldImpulse := m_impulse j in
      let j := set_m_impulse (Min 0 (m_impulse j + impulse)) j in
      let impulse := m_impulse j - oldImpulse in
      let P := vscale impulse (uv_vec (m_u j)) in
      let crossAP := Cross (m_rA j) P in
      let crossBP := Cross (m_rB j) P in
      let velA := velocity_sub velA
                    (mkVelocity (vscale (bcn_invMass bodiesA) P)
                                (bcn_invRotInertia bodiesA * crossAP)) in
      let velB := velocity_add velB
                    (mkVelocity (vscale (bcn_invMass bodiesB) P)
                                (bcn_invRotInertia bodiesB * crossBP)) in
      let bodies := alter (BodyConstraint_SetVelocity velA) (rj_bodyA j) bodies in
      let bodies := alter (BodyConstraint_SetVelocity velB) (rj_bodyB j) bodies in
      Some (impulse, j, bodies)
  | _, _ => None
  end.
End Rope.

(** ** Chain shape (legacy engine) *)

(** A cell of storage obtained from [b2Alloc]: [None] until it is written. *)
Definition cell : Type := option Vec2.

(** [m_vertices] is [None] for [nullptr]. The counts are of type
    [child_count_t], declared in b2Settings.h, which is not among the
    sources; they are modelled by [nat], the number of vertices of an
    array. *)
Record b2ChainShape : Type := mkChainShape {
  m_vertices : option (list cell);
  m_count : nat;
  m_prevVertex : Vec2;
  m_nextVertex : Vec2;
  m_hasPrevVertex : bool;
  m_hasNextVertex : bool
}.

Section Chain.
Import Math.
Local Open Scope R_scope.

(** [b2_linearSlop] is a constant of b2Settings.h. *)
Variable b2_linearSlop : R.

Definition b2DistanceSquared (a b : Vec2) : R := GetMagnitudeSquared (vsub a b).

(** The loop of assertions over [i = 1 .. count-1], started at [i];
    [fuel] is the number of iterations left. Reading past the end of the
    input array is undefined and reported as a failure. *)
Fixpoint spacing_loop (vertices : list Vec2) (i fuel : nat) : bool :=
  match fuel with
  | O => true
  | S fuel' =>
      match vertices !! (i - 1)%nat, vertices !! i with
      | Some a, Some b =>
          bool_decide (b2DistanceSquared a b > Square b2_linearSlop)
          && spacing_loop vertices (S i) fuel'
      | _, _ => false
      end
  end.

(** [memcpy(dst, src, n * sizeof(b2Vec2))] into freshly allocated [dst]. *)
Definition memcpy (dst : list cell) (src : list Vec2) (n : nat) : option (list cell) :=
  if decide (n <= length src /\ n <= length dst)%nat
  then Some ((Some <$> take n src) ++ drop n dst)
  else None.

(** Reading [a[i]]: undefined ([None]) out of range or before a write. *)
Definition read (a : list cell) (i : nat) : option Vec2 := mjoin (a !! i).

(** [b2ChainShape::CreateLoop]; [None] when an assertion fails or the
    behaviour is undefined. *)
Definition CreateLoop (vertices : list Vec2) (count : nat) (s : b2ChainShape)
  : option b2ChainShape :=
  if negb (bool_decide (m_vertices s = None) && bool_decide (m_count s = 0%nat)) then None
  else if negb (bool_decide (3 <= count)%nat) then None
  else if negb (spacing_loop vertices 1 (count - 1)) then None
  else
    let m_count := (count + 1)%nat in
    let fresh := replicate m_count (None : cell) in
    buf ← memcpy fresh vertices count;
    v0 ← read buf 0;
    let buf := <[count := Some v0]> buf in
    prev ← read buf (m_count - 2);
    next ← read buf 1;
    Some (mkChainShape (Some buf) m_count prev next true true).
End Chain.

(** ** Direct construction of a direction from a 2-vector *)

Inductive ErrorKind : Type := InvalidArgument | OutOfRange.

Section UnitVecCtor.
Import Math Geometry.
Local Open Scope R_scope.

(** The tolerance of the unit-magnitude test. *)
Variable tolerance : R.

(** Modelled from the spec: the constructor [UnitVec(const Vec2&)] is
    defined in UnitVec.hpp, which is not among the sources. "Construction
    from an arbitrary 2-vector fails with an InvalidArgument error kind
    unless the vector already has unit magnitude (within tolerance)"; on
    success the components are stored as given. *)
Definition IsUnit (value : Vec2) : bool :=
  bool_decide (Rabs (GetMagnitude value - 1) <= tolerance).

Definition UnitVec_from_Vec2 (value : Vec2) : ErrorKind + UnitVec :=
  if IsUnit value then inr (mkUnitVec (GetX value) (GetY value))
  else inl InvalidArgument.
End UnitVecCtor.

(** ** World storage and the wake state of bodies and contacts *)

Definition BodyID : Type := nat.

(** The two bodies of a contact (through its two fixtures). *)
Record Contact : Type := mkContact { GetContactBodyA : BodyID; GetContactBodyB : BodyID }.

Record World : Type := mkWorld { w_bodies : list Body; w_contacts : list Contact }.

Section WorldOps.
Context `{L : FlagLayout}.










End WorldOps.

(** A joint connects the bodies at [a] and [b] when they are its two ends. *)
Definition connects (joint : Joint) (a b : BodyPtr) : Prop :=
  (GetBodyA joint = a /\ GetBodyB joint = b) \/ (GetBodyA joint = b /\ GetBodyB joint = a).

(** A joint is attached to the body at [a] when [a] is one of its ends. *)
Definition attached (joint : Joint) (a : BodyPtr) : Prop :=
  GetBodyA joint = a \/ GetBodyB joint = a.

#[global] Instance attached_dec (joint : Joint) (a : BodyPtr) : Decision (attached joint a).
Proof. unfold attached. apply _. Defined.

(** The joint list of a body after [Body::Insert] has filed with it, in
    order, those of the joints [joints] that are attached to it: the way
    a world files each of its joints with the two bodies of the joint. *)
Definition file_joints (joints : list Joint) (b : Body) : Body :=
  fold_left (fun (b : Body) (joint : Joint) =>
               if decide (attached joint (this b)) then snd (Insert joint b) else b)
            joints b.

(** The joint list of [b] holds the entries that filing the joints
    [joints] with it makes, in any order. *)
Definition filed (joints : list Joint) (b : Body) : Prop :=
  forall ji : KeyedJointPtr,
    In ji (GetJoints b) <-> In ji (GetJoints (file_joints joints (set_m_joints [] b))).

(** The joint list of a legacy body, which holds the joints themselves,
    holds the joints of [joints] that are attached to the body. *)
Definition Legacy_filed (joints : list Joint) (b : Legacy.Body) : Prop :=
  forall joint : Joint,
    In joint (Legacy.m_joints b) <-> In joint joints /\ attached joint (Legacy.this b).

(** ** Quantities that the contracts of [ResetMassData] speak of *)

Section MassQuantities.
Context `{L : FlagLayout}.
Import Math.
Local Open Scope R_scope.

(** The mass that [ResetMassData] gives an accelerable body. *)
Definition reset_mass (b : Body) : R :=
  let massData := ComputeMassData b in
  if bool_decide (md_mass massData > 0) then md_mass massData else 1.

(** The local center of mass that it computes. *)
Definition reset_localCenter (b : Body) : Vec2 :=
  vscale (1 / reset_mass b) (md_center (ComputeMassData b)).

(** The accumulated rotational inertia, shifted to the center of mass:
    accumulated I minus mass times the squared magnitude of the local
    center. *)
Definition shifted_inertia (b : Body) : R :=
  md_I (ComputeMassData b) - reset_mass b * GetMagnitudeSquared (reset_localCenter b).

Definition Legacy_reset_mass (b : Legacy.Body) : R :=
  let massData := Legacy.ComputeMassData b in
  if bool_decide (md_mass massData > 0) then md_mass massData else 1.

Definition Legacy_reset_localCenter (b : Legacy.Body) : Vec2 :=
  vscale (1 / Legacy_reset_mass b) (md_center (Legacy.ComputeMassData b)).

Definition Legacy_shifted_inertia (b : Legacy.Body) : R :=
  md_I (Legacy.ComputeMassData b)
  - Legacy_reset_mass b * GetMagnitudeSquared (Legacy_reset_localCenter b).
End MassQuantities.

(** ** Concrete bodies under the bit assignment of PlayRho *)

Module Examples.
Import Math.
Local Open Scope R_scope.

Definition identity_xf : Transformation := mkTransformation Vec2_zero (mkUnitVec 1 0).
Definition origin_sweep : Sweep := Geometry.Sweep1 (mkPosition Vec2_zero 0).

(** A body at rest at the origin with the given address, flag word and
    fixtures. *)
Definition body_at_rest (addr : BodyPtr) (flags : Z) (fixtures : list Fixture) : Body :=
  mkBody addr identity_xf origin_sweep (mkVelocity Vec2_zero 0) flags Vec2_zero 0 1 0 0 0 0
         [] fixtures.

Definition legacy_body_at_rest (addr : BodyPtr) (flags : Z) (fixtures : list Fixture)
  : Legacy.Body :=
  Legacy.mkBody addr flags identity_xf origin_sweep (mkVelocity Vec2_zero 0) Vec2_zero 0 1 0
                0 0 0 [] fixtures.

(** Flag words of a dynamic and of a static body that may sleep. *)
Definition dynamic_flags : Z :=
  Eval cbv in Z.lor (@GetFlags_type playrho_layout Dynamic) (@e_autoSleepFlag playrho_layout).
Definition static_flags : Z :=
  Eval cbv in Z.lor (@GetFlags_type playrho_layout Static) (@e_autoSleepFlag playrho_layout).

(** A fixture of unit density whose shape reports mass 1 centered at
    (2, 0) with rotational inertia 1 about the body origin. *)
Definition offset_fixture : Fixture := mkFixture 1 (mkMassData 1 (mkVec2 2 0) 1).

Definition offset_body : Body := body_at_rest 1%N dynamic_flags [offset_fixture].
Definition legacy_offset_body : Legacy.Body :=
  legacy_body_at_rest 1%N dynamic_flags [offset_fixture].
End Examples.

(** ** Quantities that the contract of the rope joint speaks of *)

Module RopeQuantities.
Import Math Geometry Rope.
Local Open Scope R_scope.

(** The raw impulse of a velocity iteration: minus the effective mass
    times [Cdot]. *)
Definition raw_impulse (j : RopeJoint) (step : StepConf) (velA velB : Velocity) : R :=
  - (m_mass j * Cdot_of j step velA velB).

(** The change of velocity that the impulse [impulse] along the rope makes
    to a body with offset [r] to the anchor. *)
Definition impulse_response (j : RopeJoint) (r : Vec2) (c : BodyConstraint) (impulse : R)
  : Velocity :=
  let P := vscale impulse (uv_vec (m_u j)) in
  mkVelocity (vscale (bcn_invMass c) P) (bcn_invRotInertia c * Cross r P).
End RopeQuantities.

(** ** Invariant of the wake state, and a world with a resting contact *)

Section WorldInvariant.
Context `{L : FlagLayout}.

(** "Only speedable bodies can be awake." *)
Definition awake_is_speedable (b : Body) : Prop := IsAwake b = true -> IsSpeedable b = true.

Definition world_invariant (world : World) : Prop := Forall awake_is_speedable (w_bodies world).



End WorldInvariant.

Module WorldExamples.
Import Examples.

(** A dynamic body (identifier 0) in contact (identifier 0) with a static
    body (identifier 1): a body resting on the ground. *)
Definition dynamic_body : Body := body_at_rest 1%N dynamic_flags [].
Definition static_body : Body := body_at_rest 2%N static_flags [].
Definition resting_world : World := mkWorld [dynamic_body; static_body] [mkContact 0 1].

End WorldExamples.

(** ** Further concrete inputs *)

Module MoreExamples.
Import Math Examples.
Local Open Scope R_scope.

(** The configuration of a static body that is asked to be awake. *)
Definition static_awake_conf : BodyConf :=
  mkBodyConf Static Vec2_zero 0 Vec2_zero 0 Vec2_zero 0 0 0 0 false false true true true.

(** A second dynamic body, in contact (identifier 0) with the first. *)
Definition other_dynamic_body : Body := body_at_rest 2%N dynamic_flags [].

(** A rope of maximum length 1 stretched to length 2 along the x axis
    between two unit-mass bodies that move apart. *)
Definition rope : RopeJoint :=
  mkRopeJoint 1%N 2%N (mkVec2 (-1) 0) (mkVec2 1 0) 1 2 0 Vec2_zero Vec2_zero (mkUnitVec 1 0) 1
              e_atUpperLimit.
Definition leftward : BodyConstraint :=
  mkBodyConstraint (mkPosition (mkVec2 (-1) 0) 0) (mkVelocity (mkVec2 (-1) 0) 0) Vec2_zero 1 0.
Definition rightward : BodyConstraint :=
  mkBodyConstraint (mkPosition (mkVec2 1 0) 0) (mkVelocity (mkVec2 1 0) 0) Vec2_zero 1 0.
Definition rope_bodies : gmap N BodyConstraint := <[2%N := rightward]> {[1%N := leftward]}.
Definition unit_step : StepConf := mkStepConf 1 1 true.

(** A triangle. *)
Definition triangle : list Vec2 := [mkVec2 0 0; mkVec2 1 0; mkVec2 0 1].
Definition empty_chain : b2ChainShape := mkChainShape None 0%nat Vec2_zero Vec2_zero false false.

(** A velocity of magnitude 5, and bounds of 2 per step. *)
Definition fast : Velocity := mkVelocity (mkVec2 3 4) 3.
Definition tight : MovementConf := mkMovementConf 2 2.
End MoreExamples.

Module JointExamples.
Import Math Examples MoreExamples.
Local Open Scope R_scope.

(** A joint between the bodies at addresses 1 and 2 that forbids their
    collision; the dynamic body at address 1 with the joint filed, in
    either engine; and a legacy dynamic body at address 2. *)
Definition pinned_joint : Joint := mkJoint 1%N 2%N false.
Definition jointed_body : Body := file_joints [pinned_joint] offset_body.
Definition legacy_jointed_body : Legacy.Body :=
  Legacy.mkBody 1%N dynamic_flags identity_xf origin_sweep (mkVelocity Vec2_zero 0) Vec2_zero 0
                1 0 0 0 0 [pinned_joint] [].
Definition legacy_other_body : Legacy.Body := legacy_body_at_rest 2%N dynamic_flags [].
End JointExamples.

(** ** Further members of the current engine's body *)

#[global] Instance Velocity_eq_dec : EqDecision Velocity.
Proof. solve_decision. Defined.

Definition set_acceleration (linear : Vec2) (angular : R) (b : Body) : Body :=
  mkBody (this b) (m_xf b) (m_sweep b) (m_velocity b) (m_flags b) linear angular
    (m_invMass b) (m_invRotI b) (m_linearDamping b) (m_angularDamping b)
    (m_underActiveTime b) (m_joints b) (m_fixtures b).

Section BodyMutators.
Context `{L : FlagLayout}.
Import Math Geometry.
Local Open Scope R_scope.

(** [playrho::GetAngle(Vec2)], the polar angle of a vector, is a function
    of Math.hpp, which is not among the sources; it is a parameter. *)
Variable GetAngle_of : Vec2 -> R.

(** [signbit] on the reals: the sign of a negative number. *)
Definition signbit (x : R) : bool := bool_decide (x < 0).

(** [Body::SetAcceleration] *)
Definition SetAcceleration (linear : Vec2) (angular : R) (b : Body) : Body :=
  if bool_decide (m_linearAcceleration b = linear)
     && bool_decide (m_angularAcceleration b = angular)
  then b
  else if negb (IsAccelerable b) then
    if bool_decide (linear <> Vec2_zero) || bool_decide (angular <> 0) then b
    else set_acceleration linear angular b
  else
    let b :=
      if bool_decide (m_angularAcceleration b < angular)
         || bool_decide (GetMagnitudeSquared (m_linearAcceleration b)
                         < GetMagnitudeSquared linear)
         || bool_decide (GetAngle_of (m_linearAcceleration b) <> GetAngle_of linear)
         || negb (eqb (signbit (m_angularAcceleration b)) (signbit angular))
      then ResetUnderActiveTime (SetAwakeFlag b)
      else b in
    set_acceleration linear angular b.

(** [Body::SetFixedRotation] *)
Definition SetFixedRotation (flag : bool) (b : Body) : Body :=
  let status := IsFixedRotation b in
  if eqb status flag then b
  else
    let b := if flag
             then set_m_flags (Z.lor (m_flags b) e_fixedRotationFlag) b
             else set_m_flags (clear_flag (m_flags b) e_fixedRotationFlag) b in
    let b := set_m_velocity (mkVelocity (linear (m_velocity b)) 0) b in
    ResetMassData b.

(** Modelled from the spec: [Body::SetUnderActiveTime] is an inline member
    of Body.hpp; "only accelerable bodies may carry non-zero under-active
    time". *)
Definition SetUnderActiveTime (value : R) (b : Body) : Body :=
  if bool_decide (value = 0) || IsAccelerable b then set_m_underActiveTime value b else b.

(** [Body::Body(const BodyConf&)] for a body stored at [addr]. The members
    without an initialiser in the constructor take the defaults of
    Body.hpp: no velocity, no acceleration, no under-active time, inverse
    rotational inertia 0, no joints and no fixtures. [UnitVec::Get(angle)]
    is the direction of the angle. *)
Definition Body_ctor (addr : BodyPtr) (bd : BodyConf) : Body :=
  let b := mkBody addr
             (mkTransformation (bc_location bd)
                               (mkUnitVec (cos (bc_angle bd)) (sin (bc_angle bd))))
             (Sweep1 (mkPosition (bc_location bd) (bc_angle bd)))
             zero_velocity
             (GetFlags bd)
             Vec2_zero 0
             (if bool_decide (bc_type bd = Dynamic) then 1 / 1 else 0)
             0
             (bc_linearDamping bd) (bc_angularDamping bd)
             0 [] [] in
  let b := SetVelocity (mkVelocity (bc_linearVelocity bd) (bc_angularVelocity bd)) b in
  let b := SetAcceleration (bc_linearAcceleration bd) (bc_angularAcceleration bd) b in
  SetUnderActiveTime (bc_underActiveTime bd) b.
End BodyMutators.

Section BodyInvariants.
Context `{L : FlagLayout}.
Import Math.
Local Open Scope R_scope.

(** The invariants that the comments of [Body::GetFlags] list, and the
    fact about body types that they rest on: an accelerable body is
    speedable. *)
Record BodyInvariant (b : Body) : Prop := mkBodyInvariant {
  inv_sleep : IsSpeedable b = true -> IsSleepingAllowed b = false -> IsAwake b = true;
  inv_awake : IsAwake b = true -> IsSpeedable b = true;
  inv_velocity : IsSpeedable b = false -> m_velocity b = zero_velocity;
  inv_acceleration :
    IsAccelerable b = false ->
    m_linearAcceleration b = Vec2_zero /\ m_angularAcceleration b = 0;
  inv_underActive : IsAccelerable b = false -> m_underActiveTime b = 0;
  inv_capable : IsAccelerable b = true -> IsSpeedable b = true
}.

(** The linear velocity of the point of the body that is at the world
    point [p]: the velocity of the center of mass plus the angular velocity
    times the quarter-turned offset from the center. *)
Definition velocity_of_point (b : Body) (p : Vec2) : Vec2 :=
  vadd (linear (m_velocity b))
       (vscale (angular (m_velocity b)) (GetRevPerpendicular (vsub p (GetWorldCenter b)))).

(** The mass of a body: the reciprocal of its inverse mass. *)
Definition mass_of (b : Body) : R := 1 / m_invMass b.
End BodyInvariants.

(** ** The contact list of a body *)

Section ContactList.
(** [ContactKey] and [Contact] are declared in files that are not among
    the sources; a contact is known to a body by its address. *)
Variable ContactKey : Type.
Definition ContactPtr : Type := N.

(** [m_contacts], the member of [Body] that the functions below work on. *)
Definition KeyedContactPtrs : Type := list (ContactKey * ContactPtr).

(** [Body::Insert] for a contact. In a build with assertions
    ([NDEBUG] not defined) inserting a contact that is already listed
    fails the assertion ([None]); otherwise the pair is appended. *)
Definition Insert_contact (NDEBUG : bool) (key : ContactKey) (contact : ContactPtr)
    (m_contacts : KeyedContactPtrs) : option (bool * KeyedContactPtrs) :=
  if negb NDEBUG && existsb (fun ci => bool_decide (snd ci = contact)) m_contacts
  then None
  else Some (true, m_contacts ++ [(key, contact)]).

(** [std::find_if] for the contact, then [erase] at the position found. *)
Fixpoint Erase_contact (contact : ContactPtr) (m_contacts : KeyedContactPtrs)
  : bool * KeyedContactPtrs :=
  match m_contacts with
  | [] => (false, [])
  | ci :: rest =>
      if bool_decide (snd ci = contact) then (true, rest)
      else let '(found, rest') := Erase_contact contact rest in (found, ci :: rest')
  end.

(** [Body::ClearContacts] *)
Definition ClearContacts (m_contacts : KeyedContactPtrs) : KeyedContactPtrs := [].
End ContactList.

(** ** Sums over the dense fixtures of a body *)

Module MassSums.
Import Math.
Local Open Scope R_scope.

(** A fixture counts for the mass of its body when its density is positive. *)
Definition dense (fixture : Fixture) : Prop := GetDensity fixture > 0.

#[global] Instance dense_dec (fixture : Fixture) : Decision (dense fixture) :=
  Rgt_dec (GetDensity fixture) 0.

Definition sum_R (l : list R) : R := fold_right Rplus 0 l.
Definition sum_Vec2 (l : list Vec2) : Vec2 := fold_right vadd Vec2_zero l.

(** The first moment of the mass of a fixture about the body origin. *)
Definition moment (fixture : Fixture) : Vec2 :=
  vscale (md_mass (GetMassData fixture)) (md_center (GetMassData fixture)).
End MassSums.

(** ** Further members of the rope joint *)

(** The fields of [ConstraintSolverConf] that the joint reads. *)
Record ConstraintSolverConf : Type := mkConstraintSolverConf {
  linearSlop : R;
  maxLinearCorrection : R
}.

Definition BodyConstraint_SetPosition (p : Position) (c : BodyConstraint) : BodyConstraint :=
  mkBodyConstraint p (bcn_velocity c) (bcn_localCenter c) (bcn_invMass c) (bcn_invRotInertia c).

Module RopeMore.
Import Math Geometry Rope.
Local Open Scope R_scope.

(** [Max] and [Clamp] of Math.hpp: [(a > b) ? a : b] and
    [Max(low, Min(a, high))]. *)
Definition Max (a b : R) : R := if bool_decide (a > b) then a else b.
Definition Clamp (a low high : R) : R := Max low (Min a high).

(** [UnitVec2{angle}] and [UnitVec2::GetZero()]. *)
Definition UnitVec2_of_angle (angle : R) : UnitVec := mkUnitVec (cos angle) (sin angle).
Definition UnitVec2_GetZero : UnitVec := mkUnitVec 0 0.

(** [a - b] and [a + b] on positions. *)
Definition position_sub (a b : Position) : Position :=
  mkPosition (vsub (p_linear a) (p_linear b)) (p_angular a - p_angular b).
Definition position_add (a b : Position) : Position :=
  mkPosition (vadd (p_linear a) (p_linear b)) (p_angular a + p_angular b).

(** [RopeJoint::GetReactionForce] and [RopeJoint::GetReactionTorque] *)
Definition GetReactionForce (j : RopeJoint) (inv_dt : R) : Vec2 :=
  vscale (inv_dt * m_impulse j) (uv_vec (m_u j)).
Definition GetReactionTorque (j : RopeJoint) (inv_dt : R) : R := 0.

Section WithUnitVector.
(** [GetUnitVector(value, magnitude)] of Math.hpp, which is not among the
    sources: the direction of a vector, and (through its reference
    argument) the magnitude. It is a parameter. *)
Variable GetUnitVector : Vec2 -> UnitVec * R.

(** [RopeJoint::InitVelocityConstraints]: the joint and the body
    constraints after the call; [None] when [bodies.at] throws. *)
Definition InitVelocityConstraints
    (j : RopeJoint) (bodies : gmap N BodyConstraint) (step : StepConf)
    (conf : ConstraintSolverConf)
  : option (RopeJoint * gmap N BodyConstraint) :=
  match bodies !! rj_bodyA j, bodies !! rj_bodyB j with
  | Some bodiesA, Some bodiesB =>
      let invMassA := bcn_invMass bodiesA in
      let invRotInertiaA := bcn_invRotInertia bodiesA in
      let posA := bcn_position bodiesA in
      let velA := bcn_velocity bodiesA in
      let invMassB := bcn_invMass bodiesB in
      let invRotInertiaB := bcn_invRotInertia bodiesB in
      let posB := bcn_position bodiesB in
      let velB := bcn_velocity bodiesB in
      let qA := UnitVec2_of_angle (p_angular posA) in
      let qB := UnitVec2_of_angle (p_angular posB) in
      let rA := Rotate (vsub (m_localAnchorA j) (bcn_localCenter bodiesA)) qA in
      let rB := Rotate (vsub (m_localAnchorB j) (bcn_localCenter bodiesB)) qB in
      let posDelta := vsub (vadd (p_linear posB) rB) (vadd (p_linear posA) rA) in
      let '(uv, length) := GetUnitVector posDelta in
      let C := length - m_maxLength j in
      let state := if bool_decide (C > 0) then e_atUpperLimit else e_inactiveLimit in
      if bool_decide (length > linearSlop conf) then
        let u := uv in
        let crA := Cross rA (uv_vec u) in
        let crB := Cross rB (uv_vec u) in
        let invRotMassA := invRotInertiaA * Square crA in
        let invRotMassB := invRotInertiaB * Square crB in
        let invMass := invMassA + invMassB + invRotMassA + invRotMassB in
        let mass := if bool_decide (invMass <> 0) then 1 / invMass else 0 in
        if doWarmStart step then
          let impulse := m_impulse j * dtRatio step in
          let P := vscale impulse (uv_vec u) in
          let crossAP := Cross rA P in
          let crossBP := Cross rB P in
          let velA := velocity_sub velA
                        (mkVelocity (vscale (bcn_invMass bodiesA) P)
                                    (invRotInertiaA * crossAP)) in
          let velB := velocity_add velB
                        (mkVelocity (vscale (bcn_invMass bodiesB) P)
                                    (invRotInertiaB * crossBP)) in
          let bodies := alter (BodyConstraint_SetVelocity velA) (rj_bodyA j) bodies in
          let bodies := alter (BodyConstraint_SetVelocity velB) (rj_bodyB j) bodies in
          Some (mkRopeJoint (rj_bodyA j) (rj_bodyB j) (m_localAnchorA j) (m_localAnchorB j)
                            (m_maxLength j) length impulse rA rB u mass state,
                bodies)
        else
          let bodies := alter (BodyConstraint_SetVelocity velA) (rj_bodyA j) bodies in
          let bodies := alter (BodyConstraint_SetVelocity velB) (rj_bodyB j) bodies in
          Some (mkRopeJoint (rj_bodyA j) (rj_bodyB j) (m_localAnchorA j) (m_localAnchorB j)
                            (m_maxLength j) length 0 rA rB u mass state,
                bodies)
      else
        Some (mkRopeJoint (rj_bodyA j) (rj_bodyB j) (m_localAnchorA j) (m_localAnchorB j)
                          (m_maxLength j) length 0 rA rB UnitVec2_GetZero 0 state,
              bodies)
  | _, _ => None
  end.

(** [RopeJoint::SolvePositionConstraints]: the value returned and the
    body constraints after the call; the joint is not changed. *)
Definition SolvePositionConstraints
    (j : RopeJoint) (bodies : gmap N BodyConstraint) (conf : ConstraintSolverConf)
  : option (bool * gmap N BodyConstraint) :=
  match bodies !! rj_bodyA j, bodies !! rj_bodyB j with
  | Some bodiesA, Some bodiesB =>
      let posA := bcn_position bodiesA in
      let posB := bcn_position bodiesB in
      let qA := UnitVec2_of_angle (p_angular posA) in
      let qB := UnitVec2_of_angle (p_angular posB) in
      let rA := Rotate (vsub (m_localAnchorA j) (bcn_localCenter bodiesA)) qA in
      let rB := Rotate (vsub (m_localAnchorB j) (bcn_localCenter bodiesB)) qB in
      let posDelta := vsub (vadd (p_linear posB) rB) (vadd (p_linear posA) rA) in
      let '(u, length) := GetUnitVector posDelta in
      let C := Clamp (length - m_maxLength j) 0 (maxLinearCorrection conf) in
      let impulse := (- m_mass j) * C in
      let linImpulse := vscale impulse (uv_vec u) in
      let angImpulseA := Cross rA linImpulse in
      let angImpulseB := Cross rB linImpulse in
      let posA := position_sub posA
                    (mkPosition (vscale (bcn_invMass bodiesA) linImpulse)
                                (bcn_invRotInertia bodiesA * angImpulseA)) in
      let posB := position_add posB
                    (mkPosition (vscale (bcn_invMass bodiesB) linImpulse)
                                (bcn_invRotInertia bodiesB * angImpulseB)) in
      let bodies := alter (BodyConstraint_SetPosition posA) (rj_bodyA j) bodies in
      let bodies := alter (BodyConstraint_SetPosition posB) (rj_bodyB j) bodies in
      Some (bool_decide (length - m_maxLength j < linearSlop conf), bodies)
  | _, _ => None
  end.
End WithUnitVector.

(** The inverse effective mass of the rope constraint for two bodies, as
    in the comment that heads RopeJoint.cpp:
    [invMassA + invIA * cross(rA, u)^2 + invMassB + invIB * cross(rB, u)^2],
    with the linear part weighted by the squared magnitude of [u]. *)
Definition inverse_effective_mass (j : RopeJoint) (bodiesA bodiesB : BodyConstraint) : R :=
  (bcn_invMass bodiesA + bcn_invMass bodiesB) * GetMagnitudeSquared (uv_vec (m_u j))
  + bcn_invRotInertia bodiesA * Square (Cross (m_rA j) (uv_vec (m_u j)))
  + bcn_invRotInertia bodiesB * Square (Cross (m_rB j) (uv_vec (m_u j))).

(** The offset from the center of a body to its anchor, in world
    orientation, and the vector from the anchor on body A to the anchor on
    body B. *)
Definition world_offset (localAnchor : Vec2) (c : BodyConstraint) : Vec2 :=
  Rotate (vsub localAnchor (bcn_localCenter c))
         (UnitVec2_of_angle (p_angular (bcn_position c))).
Definition separation (j : RopeJoint) (bodiesA bodiesB : BodyConstraint) : Vec2 :=
  vsub (vadd (p_linear (bcn_position bodiesB)) (world_offset (m_localAnchorB j) bodiesB))
       (vadd (p_linear (bcn_position bodiesA)) (world_offset (m_localAnchorA j) bodiesA)).

(** The linear momentum of two bodies with non-zero inverse masses. *)
Definition linear_momentum (bodiesA bodiesB : BodyConstraint) : Vec2 :=
  vadd (vscale (1 / bcn_invMass bodiesA) (linear (bcn_velocity bodiesA)))
       (vscale (1 / bcn_invMass bodiesB) (linear (bcn_velocity bodiesB))).
End RopeMore.

(** ** Further members of the chain shape *)

(** Modelled from the spec: [b2EdgeShape] is declared in b2EdgeShape.h,
    which is not among the sources. An edge has two vertices and two
    optional neighbour vertices; [Set] makes it an isolated edge between
    two vertices, [SetVertex0] and [SetVertex3] give it a neighbour and
    mark the neighbour present, as [SetPrevVertex] and [SetNextVertex] do
    for a chain. *)
Record b2EdgeShape : Type := mkEdgeShape {
  e_radius : R;
  m_vertex1 : Vec2;
  m_vertex2 : Vec2;
  m_vertex0 : Vec2;
  m_vertex3 : Vec2;
  m_hasVertex0 : bool;
  m_hasVertex3 : bool
}.

Definition Edge_SetRadius (r : R) (e : b2EdgeShape) : b2EdgeShape :=
  mkEdgeShape r (m_vertex1 e) (m_vertex2 e) (m_vertex0 e) (m_vertex3 e)
              (m_hasVertex0 e) (m_hasVertex3 e).
Definition Edge_Set (v1 v2 : Vec2) (e : b2EdgeShape) : b2EdgeShape :=
  mkEdgeShape (e_radius e) v1 v2 (m_vertex0 e) (m_vertex3 e) false false.
Definition Edge_SetVertex0 (v : Vec2) (e : b2EdgeShape) : b2EdgeShape :=
  mkEdgeShape (e_radius e) (m_vertex1 e) (m_vertex2 e) v (m_vertex3 e) true (m_hasVertex3 e).
Definition Edge_SetVertex3 (v : Vec2) (e : b2EdgeShape) : b2EdgeShape :=
  mkEdgeShape (e_radius e) (m_vertex1 e) (m_vertex2 e) (m_vertex0 e) v (m_hasVertex0 e) true.

Section ChainMore.
Import Math.
Local Open Scope R_scope.
Variable b2_linearSlop : R.

(** [b2ChainShape::Clear] *)
Definition Clear (s : b2ChainShape) : b2ChainShape :=
  mkChainShape None 0 (m_prevVertex s) (m_nextVertex s) (m_hasPrevVertex s) (m_hasNextVertex s).

(** [b2ChainShape::CreateChain]; [None] when an assertion fails or the
    behaviour is undefined. *)
Definition CreateChain (vertices : list Vec2) (count : nat) (s : b2ChainShape)
  : option b2ChainShape :=
  if negb (bool_decide (m_vertices s = None) && bool_decide (m_count s = 0%nat)) then None
  else if negb (bool_decide (2 <= count)%nat) then None
  else if negb (spacing_loop b2_linearSlop vertices 1 (count - 1)) then None
  else
    let m_count := count in
    let fresh := replicate count (None : cell) in
    buf ← memcpy fresh vertices m_count;
    Some (mkChainShape (Some buf) m_count Vec2_zero Vec2_zero false false).

(** [b2ChainShape::SetPrevVertex] and [b2ChainShape::SetNextVertex] *)
Definition SetPrevVertex (prevVertex : Vec2) (s : b2ChainShape) : b2ChainShape :=
  mkChainShape (m_vertices s) (m_count s) prevVertex (m_nextVertex s) true (m_hasNextVertex s).
Definition SetNextVertex (nextVertex : Vec2) (s : b2ChainShape) : b2ChainShape :=
  mkChainShape (m_vertices s) (m_count s) (m_prevVertex s) nextVertex (m_hasPrevVertex s) true.

(** The vertex array of a shape as an input array: every cell must have
    been written. *)
Definition vertices_of (s : b2ChainShape) : option (list Vec2) :=
  match m_vertices s with
  | None => Some []
  | Some cells => mapM (M := option) (fun c : cell => (c : option Vec2)) cells
  end.

(** [b2ChainShape::Clone]. The clone starts as a chain shape without
    vertices. *)
Definition Clone (s : b2ChainShape) : option b2ChainShape :=
  let clone := mkChainShape None 0 Vec2_zero Vec2_zero false false in
  vertices ← vertices_of s;
  clone ← CreateChain vertices (m_count s) clone;
  Some (mkChainShape (m_vertices clone) (m_count clone) (m_prevVertex s) (m_nextVertex s)
                     (m_hasPrevVertex s) (m_hasNextVertex s)).

(** [b2ChainShape::GetChildCount] *)
Definition GetChildCount (s : b2ChainShape) : option nat :=
  if bool_decide (0 < m_count s)%nat then Some (m_count s - 1)%nat else None.

(** [b2ChainShape::GetChildEdge] for a shape of radius [radius]: the edge
    after the call. *)
Definition GetChildEdge (radius : R) (s : b2ChainShape) (edge : b2EdgeShape) (index : nat)
  : option b2EdgeShape :=
  if negb (bool_decide (index < m_count s - 1)%nat) then None
  else
    m_vertices ← m_vertices s;
    let edge := Edge_SetRadius radius edge in
    v1 ← read m_vertices (index + 0)%nat;
    v2 ← read m_vertices (index + 1)%nat;
    let edge := Edge_Set v1 v2 edge in
    edge ← (if bool_decide (0 < index)%nat then
              v0 ← read m_vertices (index - 1)%nat; Some (Edge_SetVertex0 v0 edge)
            else if m_hasPrevVertex s then Some (Edge_SetVertex0 (m_prevVertex s) edge)
            else Some edge);
    if bool_decide (index < m_count s - 2)%nat then
      v3 ← read m_vertices (index + 2)%nat; Some (Edge_SetVertex3 v3 edge)
    else if m_hasNextVertex s then Some (Edge_SetVertex3 (m_nextVertex s) edge)
    else Some edge.

(** [b2ChainShape::TestPoint] and [b2ChainShape::ComputeMass] *)
Definition TestPoint (s : b2ChainShape) (xf : Transformation) (p : Vec2) : bool := false.
Definition ComputeMass (s : b2ChainShape) (density : R) : MassData :=
  mkMassData 0 Vec2_zero 0.
End ChainMore.

(** A chain shape without vertices, as the shape is before [CreateLoop] or
    [CreateChain]. *)
Definition no_vertices (s : b2ChainShape) : Prop := m_vertices s = None /\ m_count s = 0%nat.

(** The consecutive vertices among the first [count] of an array are
    further apart than the linear slop, as the assertions test it. *)
Definition spaced (b2_linearSlop : R) (vertices : list Vec2) (count : nat) : Prop :=
  forall (i : nat) (a b : Vec2),
    (S i < count)%nat -> vertices !! i = Some a -> vertices !! S i = Some b ->
    (b2DistanceSquared a b > Math.Square b2_linearSlop)%R.

(** ** Further members of the legacy body *)

Module LegacyMore.
Import Math Geometry Legacy.

Definition set_acceleration (linear : Vec2) (angular : R) (b : Legacy.Body) : Legacy.Body :=
  Legacy.mkBody (this b) (m_flags b) (m_xf b) (m_sweep b) (m_velocity b) linear angular
    (m_invMass b) (m_invI b) (m_linearDamping b) (m_angularDamping b) (m_sleepTime b)
    (m_joints b) (m_fixtures b).

Section Ops.
Context `{L : FlagLayout}.
Local Open Scope R_scope.

(** Legacy [Body::SetAcceleration] *)
Definition SetAcceleration (linear : Vec2) (angular : R) (b : Legacy.Body) : Legacy.Body :=
  if bool_decide (linear <> Vec2_zero) || bool_decide (angular <> 0) then
    if negb (IsAccelerable b) then b
    else set_acceleration linear angular b
  else set_acceleration linear angular b.

(** Legacy [Body::SetMassData]. [locked] is [m_world->IsLocked()]: the
    world is not among the sources. In a build with assertions ([NDEBUG]
    not defined) a failing assertion gives [None]. *)
Definition SetMassData (NDEBUG locked : bool) (massData : MassData) (b : Legacy.Body)
  : option Legacy.Body :=
  if negb NDEBUG && locked then None
  else if locked then Some b
  else if negb (IsAccelerable b) then Some b
  else
    let mass := if bool_decide (md_mass massData > 0) then md_mass massData else 1 in
    let b := set_m_invMass (1 / mass) b in
    b ← (if bool_decide (md_I massData > 0) && negb (IsFixedRotation b) then
           let lengthSquared := GetMagnitudeSquared (md_center massData) in
           let I := md_I massData - mass * lengthSquared in
           if negb NDEBUG && negb (bool_decide (I > 0)) then None
           else Some (set_m_invI (1 / I) b)
         else Some (set_m_invI 0 b));
    let oldCenter := GetWorldCenter b in
    let b := set_m_sweep
               (Sweep2 (mkPosition (Transform (md_center massData) (GetTransformation b))
                                   (GetAngle b))
                       (md_center massData)) b in
    let b := set_m_velocity
               (mkVelocity
                  (vadd (linear (m_velocity b))
                        (vscale (angular (m_velocity b))
                                (GetRevPerpendicular (vsub (GetWorldCenter b) oldCenter))))
                  (angular (m_velocity b))) b in
    Some (UnsetMassDataDirty b).

(** The mass data of the fixtures of a body with the first moment turned
    into the center of mass, as [ResetMassData] does it. *)
Definition centered_mass_data (b : Legacy.Body) : MassData :=
  mkMassData (md_mass (ComputeMassData b)) (Legacy_reset_localCenter b)
             (md_I (ComputeMassData b)).
End Ops.
End LegacyMore.

(** ** Further examples *)

Module ExtraExamples.
Import Math Examples MoreExamples.
Local Open Scope R_scope.

(** A polar angle that is constant, and a unit-vector function that
    reports the direction and the magnitude of (4, 0), the separation of
    the anchors of the ropes below between [leftward] and [rightward]. *)
Definition flat_angle (v : Vec2) : R := 0.
Definition along_x (v : Vec2) : UnitVec * R := (mkUnitVec 1 0, 4).

(** A dynamic body whose only fixture has no density. *)
Definition hollow_body : Body :=
  body_at_rest 3%N dynamic_flags [mkFixture 0 (mkMassData 1 (mkVec2 2 0) 1)].

(** The stretched rope with the effective mass of its two unit-mass
    bodies; the same rope between the bodies taken in the other order, so
    that its anchors approach; and a rope of maximum length 5, longer
    than the separation of its anchors. *)
Definition balanced_rope : RopeJoint :=
  mkRopeJoint 1%N 2%N (mkVec2 (-1) 0) (mkVec2 1 0) 1 2 0 Vec2_zero Vec2_zero (mkUnitVec 1 0)
              (1 / 2) e_atUpperLimit.
Definition closing_rope : RopeJoint :=
  mkRopeJoint 2%N 1%N (mkVec2 (-1) 0) (mkVec2 1 0) 1 2 0 Vec2_zero Vec2_zero (mkUnitVec 1 0) 1
              e_atUpperLimit.
Definition slack_rope : RopeJoint :=
  mkRopeJoint 1%N 2%N (mkVec2 (-1) 0) (mkVec2 1 0) 5 4 0 Vec2_zero Vec2_zero (mkUnitVec 1 0) 1
              e_inactiveLimit.
Definition solver_conf : ConstraintSolverConf := mkConstraintSolverConf 1 1.

(** Four vertices whose last is within distance 1 of the first, and an
    edge shape to write a child edge into. *)
Definition pinched : list Vec2 := [mkVec2 0 0; mkVec2 2 0; mkVec2 2 2; mkVec2 0 (1 / 2)].
Definition blank_edge : b2EdgeShape :=
  mkEdgeShape 0 Vec2_zero Vec2_zero Vec2_zero Vec2_zero false false.
End ExtraExamples.

(** * Properties *)

(** ** Bits of the flag word *)

Section FlagFacts.
Context `{L : FlagLayout}.
Local Open Scope Z_scope.

Lemma flag_pow2 (b : Z) : 0 <= b -> flag b = 2 ^ b.
Proof. intros Hb. unfold flag. now rewrite Z.shiftl_1_l. Qed.

Lemma testbit_flag (b n : Z) : 0 <= b -> Z.testbit (flag b) n = (b =? n).
Proof. intros Hb. rewrite flag_pow2 by assumption. now apply Z.pow2_bits_eqb. Qed.

Lemma land_flag (f b : Z) :
  0 <= b -> Z.land f (flag b) = if Z.testbit f b then flag b else 0.
Proof.
  intros Hb. apply Z.bits_inj'. intros n Hn.
  rewrite Z.land_spec, testbit_flag by assumption.
  destruct (Z.eqb_spec b n) as [->|Hne].
  - destruct (Z.testbit f n) eqn:E.
    + now rewrite testbit_flag, Z.eqb_refl by assumption.
    + now rewrite Z.bits_0.
  - rewrite andb_false_r. destruct (Z.testbit f b).
    + rewrite testbit_flag by assumption. symmetry. now apply Z.eqb_neq.
    + now rewrite Z.bits_0.
Qed.

Lemma has_flag_testbit (f b : Z) : 0 <= b -> has_flag f (flag b) = Z.testbit f b.
Proof.
  intros Hb. unfold has_flag. rewrite land_flag by assumption.
  destruct (Z.testbit f b); [|reflexivity].
  rewrite flag_pow2 by assumption.
  assert (0 < 2 ^ b) by (apply Z.pow_pos_nonneg; lia).
  destruct (Z.eqb_spec (2 ^ b) 0); [lia|reflexivity].
Qed.

Lemma testbit_set_flag (f b n : Z) :
  0 <= b -> Z.testbit (Z.lor f (flag b)) n = Z.testbit f n || (b =? n).
Proof. intros Hb. now rewrite Z.lor_spec, testbit_flag. Qed.

Lemma testbit_clear_flag (f b n : Z) :
  0 <= b -> 0 <= n -> Z.testbit (clear_flag f (flag b)) n = Z.testbit f n && negb (b =? n).
Proof.
  intros Hb Hn. unfold clear_flag.
  now rewrite Z.land_spec, Z.lnot_spec, testbit_flag.
Qed.

Lemma testbit_if_set_flag (c : bool) (f b n : Z) :
  0 <= b ->
  Z.testbit (if c then Z.lor f (flag b) else f) n = Z.testbit f n || (c && (b =? n)).
Proof.
  intros Hb. destruct c; simpl.
  - now apply testbit_set_flag.
  - now rewrite orb_false_r.
Qed.

(** The bits of a layout are non-negative and pairwise distinct. *)
Lemma layout_facts :
  Forall (fun b => 0 <= b) layout_bits /\
  (awakeBit <> autoSleepBit /\ awakeBit <> impenetrableBit /\ awakeBit <> fixedRotationBit /\
   awakeBit <> enabledBit /\ awakeBit <> velocityBit /\ awakeBit <> accelerationBit /\
   awakeBit <> massDataDirtyBit) /\
  (autoSleepBit <> impenetrableBit /\ autoSleepBit <> fixedRotationBit /\
   autoSleepBit <> enabledBit /\ autoSleepBit <> velocityBit /\
   autoSleepBit <> accelerationBit /\ autoSleepBit <> massDataDirtyBit) /\
  (impenetrableBit <> fixedRotationBit /\ impenetrableBit <> enabledBit /\
   impenetrableBit <> velocityBit /\ impenetrableBit <> accelerationBit /\
   impenetrableBit <> massDataDirtyBit) /\
  (fixedRotationBit <> enabledBit /\ fixedRotationBit <> velocityBit /\
   fixedRotationBit <> accelerationBit /\ fixedRotationBit <> massDataDirtyBit) /\
  (enabledBit <> velocityBit /\ enabledBit <> accelerationBit /\
   enabledBit <> massDataDirtyBit) /\
  (velocityBit <> accelerationBit /\ velocityBit <> massDataDirtyBit) /\
  accelerationBit <> massDataDirtyBit.
Proof.
  pose proof layout_range as Hr. pose proof layout_distinct as Hd.
  unfold layout_bits in *. split.
  - eapply Forall_impl; [exact Hr|]. simpl. intros; lia.
  - rewrite !NoDup_cons, !not_elem_of_cons in Hd. intuition congruence.
Qed.
End FlagFacts.

(** Reduces tests of flags in words built by [Z.lor] and [clear_flag] to
    boolean expressions over the bits of the starting word. *)
Ltac flag_side := first [assumption | apply not_eq_sym; assumption].

Ltac flag_bits_step :=
  first
    [ rewrite has_flag_testbit by flag_side
    | rewrite testbit_if_set_flag by flag_side
    | rewrite Z.bits_0
    | rewrite andb_false_r
    | rewrite orb_false_r
    | rewrite orb_true_r
    | rewrite testbit_clear_flag by flag_side
    | rewrite testbit_set_flag by flag_side
    | rewrite testbit_flag by flag_side
    | match goal with
      | |- context [Z.eqb ?a ?a] => rewrite (Z.eqb_refl a)
      | |- context [Z.eqb ?a ?b] => rewrite (proj2 (Z.eqb_neq a b)) by flag_side
      end
    | progress simpl ].

Ltac flag_bits :=
  let H := fresh "Hlayout" in
  pose proof layout_facts as H; unfold layout_bits in H;
  rewrite !Forall_cons in H; cbv beta in H;
  repeat match type of H with
         | _ /\ _ => let H1 := fresh "Hbit" in destruct H as [H1 H]
         end;
  repeat match goal with
         | Hc : _ /\ _ |- _ => destruct Hc
         end;
  unfold e_awakeFlag, e_autoSleepFlag, e_impenetrableFlag, e_fixedRotationFlag,
         e_enabledFlag, e_velocityFlag, e_accelerationFlag, e_massDataDirtyFlag in *;
  repeat flag_bits_step.

Section FlagDerivation.
Context `{L : FlagLayout}.

Lemma GetFlags_type_speedable (t : BodyType) :
  has_flag (GetFlags_type t) e_velocityFlag = true <-> t <> Static.
Proof.
  destruct t; unfold GetFlags_type; flag_bits;
    (split; intros Ht; first [discriminate | reflexivity | now elim Ht]).
Qed.

(** The derived flag words fit the 16-bit [FlagsType]: no bit is lost when
    they are stored. *)
Lemma lor_in_word (a b : Z) :
  (0 <= a < FlagsType_modulus -> 0 <= b < FlagsType_modulus ->
   0 <= Z.lor a b < FlagsType_modulus)%Z.
Proof.
  unfold FlagsType_modulus. intros [Ha0 Ha] [Hb0 Hb].
  split; [now apply Z.lor_nonneg|].
  destruct (Z.eq_dec a 0%Z) as [->|Hane]; [now rewrite Z.lor_0_l|].
  destruct (Z.eq_dec b 0%Z) as [->|Hbne]; [now rewrite Z.lor_0_r|].
  assert (0 < Z.lor a b)%Z.
  { destruct (Z.eq_dec (Z.lor a b) 0%Z) as [Hz|Hz].
    - apply Z.lor_eq_0_iff in Hz. lia.
    - pose proof (proj2 (Z.lor_nonneg a b) (conj Ha0 Hb0)). lia. }
  apply Z.log2_lt_pow2; [assumption|].
  rewrite Z.log2_lor by assumption.
  apply Z.max_lub_lt; apply Z.log2_lt_pow2; lia.
Qed.

Lemma flag_in_word (b : Z) : (0 <= b < 16 -> 0 <= flag b < FlagsType_modulus)%Z.
Proof.
  intros [Hb0 Hb]. rewrite flag_pow2 by assumption. unfold FlagsType_modulus. split.
  - apply Z.pow_nonneg. lia.
  - apply Z.pow_lt_mono_r; lia.
Qed.

Lemma if_set_in_word (c : bool) (f b : Z) :
  (0 <= f < FlagsType_modulus -> 0 <= b < 16 ->
   0 <= (if c then Z.lor f (flag b) else f) < FlagsType_modulus)%Z.
Proof.
  intros Hf Hb. destruct c; [|assumption].
  apply lor_in_word; [assumption|now apply flag_in_word].
Qed.

Lemma GetFlags_in_word (bd : BodyConf) : (0 <= GetFlags bd < FlagsType_modulus)%Z.
Proof.
  pose proof layout_range as Hr. unfold layout_bits in Hr.
  rewrite !Forall_cons in Hr. cbv beta in Hr.
  destruct Hr as (Haw & Has & Him & Hfr & Hen & Hve & Hac & Hmd & _).
  assert (Htype : (0 <= GetFlags_type (bc_type bd) < FlagsType_modulus)%Z).
  { unfold GetFlags_type, e_velocityFlag, e_accelerationFlag, e_impenetrableFlag.
    destruct (bc_type bd); repeat apply lor_in_word; now apply flag_in_word. }
  unfold GetFlags, e_impenetrableFlag, e_fixedRotationFlag, e_autoSleepFlag, e_awakeFlag,
    e_enabledFlag.
  cbv zeta. apply if_set_in_word; [|assumption].
  destruct (bc_awake bd).
  - apply (if_set_in_word (has_flag _ _)); [|assumption].
    repeat (apply if_set_in_word; [|assumption]). exact Htype.
  - apply (if_set_in_word (negb _ && has_flag _ _)); [|assumption].
    repeat (apply if_set_in_word; [|assumption]). exact Htype.
Qed.

(** The flag word of the current engine keeps "only speedable bodies can be
    awake". *)
Lemma GetFlags_awake_is_speedable (bd : BodyConf) :
  has_flag (GetFlags bd) e_awakeFlag = true -> has_flag (GetFlags bd) e_velocityFlag = true.
Proof.
  unfold GetFlags, GetFlags_type.
  destruct bd as [t loc ang lv av la aa ld ad ut bullet fixedRot allowSleep awake enabled].
  simpl. destruct t, allowSleep, awake; simpl; flag_bits; congruence.
Qed.

(** The legacy derivation does not: it gives a static body the awake flag
    when the configuration asks for it. *)
Lemma Legacy_GetFlags_static_awake (bd : BodyConf) :
  bc_type bd = Static -> bc_awake bd = true ->
  has_flag (Legacy_GetFlags bd) e_awakeFlag = true /\
  has_flag (Legacy_GetFlags bd) e_velocityFlag = false.
Proof.
  unfold Legacy_GetFlags.
  destruct bd as [t loc ang lv av la aa ld ad ut bullet fixedRot allowSleep awake enabled].
  simpl. intros -> ->. split; flag_bits; reflexivity.
Qed.

(** C4. The flag word that [Body::GetFlags] derives from a body
    configuration has the awake flag exactly when the type of the
    configuration is velocity-capable and the configuration either asks
    for an awake body, or asks for a body that is not awake but must not
    sleep. A configuration of a static body never gets the awake flag. *)
Theorem GetFlags_awake_iff (bd : BodyConf) :
  (has_flag (GetFlags bd) e_awakeFlag = true <->
     has_flag (GetFlags_type (bc_type bd)) e_velocityFlag = true /\
     (bc_awake bd = true \/ (bc_awake bd = false /\ bc_allowSleep bd = false))) /\
  (bc_type bd = Static -> has_flag (GetFlags bd) e_awakeFlag = false).
Proof.
  unfold GetFlags, GetFlags_type.
  destruct bd as [t loc ang lv av la aa ld ad ut bullet fixedRot allowSleep awake enabled].
  simpl.
  split.
  - destruct t, allowSleep, awake; simpl; flag_bits; intuition congruence.
  - intros ->. destruct allowSleep, awake; simpl; flag_bits; reflexivity.
Qed.
End FlagDerivation.

(** ** Mass data *)

Section MassDataFacts.
Context `{L : FlagLayout}.
Import Math.
Local Open Scope R_scope.

Lemma ResetMassData_invRotI_eq (b : Body) :
  IsAccelerable b = true ->
  m_invRotI (ResetMassData b) =
    if bool_decide (md_I (ComputeMassData b) > 0) && negb (IsFixedRotation b)
    then 1 / shifted_inertia b else 0.
Proof.
  intros Hacc. unfold ResetMassData. rewrite Hacc. simpl.
  change (IsFixedRotation (set_m_invMass _ b)) with (IsFixedRotation b).
  destruct (bool_decide (md_I (ComputeMassData b) > 0) && negb (IsFixedRotation b));
    reflexivity.
Qed.

Lemma Legacy_ResetMassData_invI_eq (b : Legacy.Body) :
  Legacy.IsAccelerable b = true ->
  Legacy.m_invI (Legacy.ResetMassData b) =
    if bool_decide (md_I (Legacy.ComputeMassData b) > 0) && negb (Legacy.IsFixedRotation b)
    then 1 / Legacy_shifted_inertia b else 0.
Proof.
  intros Hacc. unfold Legacy.ResetMassData. rewrite Hacc. simpl.
  change (Legacy.IsFixedRotation (Legacy.set_m_invMass _ b)) with (Legacy.IsFixedRotation b).
  destruct (bool_decide (md_I (Legacy.ComputeMassData b) > 0)
            && negb (Legacy.IsFixedRotation b));
    reflexivity.
Qed.

(** C1, as amended. For an accelerable body, [ResetMassData] sets the
    inverse rotational inertia to the reciprocal of the shifted inertia
    (accumulated I minus mass times the squared magnitude of the local
    center) if the fixed-rotation flag is false and the accumulated
    rotational inertia I is positive; in every other case it sets it
    to 0. Both engines do so. *)
Theorem ResetMassData_invRotI (b : Body) (lb : Legacy.Body) :
  IsAccelerable b = true ->
  Legacy.IsAccelerable lb = true ->
  (IsFixedRotation b = false /\ md_I (ComputeMassData b) > 0 ->
     m_invRotI (ResetMassData b) = 1 / shifted_inertia b) /\
  (~ (IsFixedRotation b = false /\ md_I (ComputeMassData b) > 0) ->
     m_invRotI (ResetMassData b) = 0) /\
  (Legacy.IsFixedRotation lb = false /\ md_I (Legacy.ComputeMassData lb) > 0 ->
     Legacy.m_invI (Legacy.ResetMassData lb) = 1 / Legacy_shifted_inertia lb) /\
  (~ (Legacy.IsFixedRotation lb = false /\ md_I (Legacy.ComputeMassData lb) > 0) ->
     Legacy.m_invI (Legacy.ResetMassData lb) = 0).
Proof.
  intros Hb Hlb.
  rewrite (ResetMassData_invRotI_eq b Hb), (Legacy_ResetMassData_invI_eq lb Hlb).
  repeat split.
  - intros [-> HI]. now rewrite bool_decide_true.
  - intros Hn. destruct (IsFixedRotation b); [now rewrite andb_false_r|].
    rewrite bool_decide_false; [reflexivity|]. intros HI. apply Hn. now split.
  - intros [-> HI]. now rewrite bool_decide_true.
  - intros Hn. destruct (Legacy.IsFixedRotation lb); [now rewrite andb_false_r|].
    rewrite bool_decide_false; [reflexivity|]. intros HI. apply Hn. now split.
Qed.
End MassDataFacts.

Module MassDataExamples.
Import Math Examples.
Local Open Scope R_scope.

Lemma offset_body_mass_data :
  @ComputeMassData offset_body = mkMassData 1 (mkVec2 2 0) 1.
Proof.
  unfold ComputeMassData, offset_body, body_at_rest, GetFixtures. simpl.
  unfold ComputeMassData_step. simpl.
  rewrite bool_decide_true by lra.
  unfold vadd, vscale, Vec2_zero. simpl. f_equal; try lra. f_equal; lra.
Qed.

Lemma offset_body_shifted_inertia : @shifted_inertia offset_body = -3.
Proof.
  unfold shifted_inertia, reset_localCenter, reset_mass.
  rewrite offset_body_mass_data. simpl.
  rewrite bool_decide_true by lra.
  unfold GetMagnitudeSquared, Square, vscale. simpl. field.
Qed.

Lemma legacy_offset_body_mass_data :
  @Legacy.ComputeMassData legacy_offset_body = mkMassData 1 (mkVec2 2 0) 1.
Proof.
  unfold Legacy.ComputeMassData, legacy_offset_body, legacy_body_at_rest. simpl.
  rewrite bool_decide_true by lra.
  unfold vadd, vscale, Vec2_zero. simpl. f_equal; try lra. f_equal; lra.
Qed.

(** C1 fails as stated: the body [offset_body] is accelerable and free to
    rotate, its shifted inertia is -3, which is not positive, and yet
    [ResetMassData] leaves it with the inverse rotational inertia
    1 / -3, which is not 0. *)
Lemma ResetMassData_shifted_inertia_counterexample :
  IsAccelerable (L := playrho_layout) offset_body = true /\
  IsFixedRotation (L := playrho_layout) offset_body = false /\
  ~ (shifted_inertia offset_body > 0) /\
  m_invRotI (ResetMassData (L := playrho_layout) offset_body) = 1 / -3 /\
  m_invRotI (ResetMassData (L := playrho_layout) offset_body) <> 0.
Proof.
  assert (Hacc : IsAccelerable (L := playrho_layout) offset_body = true) by reflexivity.
  assert (Hfix : IsFixedRotation (L := playrho_layout) offset_body = false) by reflexivity.
  assert (Hinv : m_invRotI (ResetMassData (L := playrho_layout) offset_body) = 1 / -3).
  { rewrite (ResetMassData_invRotI_eq _ Hacc), Hfix, offset_body_mass_data,
      offset_body_shifted_inertia.
    simpl. now rewrite bool_decide_true by lra. }
  repeat split; try assumption.
  - rewrite offset_body_shifted_inertia. lra.
  - rewrite Hinv. lra.
Qed.

Lemma ResetMassData_invRotI_witness :
  m_invRotI (ResetMassData (L := playrho_layout) offset_body) = 1 / shifted_inertia offset_body /\
  Legacy.m_invI (Legacy.ResetMassData (L := playrho_layout) legacy_offset_body)
    = 1 / Legacy_shifted_inertia legacy_offset_body.
Proof.
  destruct (ResetMassData_invRotI (L := playrho_layout) offset_body legacy_offset_body)
    as (H1 & _ & H2 & _); [reflexivity | reflexivity |].
  split.
  - apply H1. split; [reflexivity|]. rewrite offset_body_mass_data. simpl. lra.
  - apply H2. split; [reflexivity|]. rewrite legacy_offset_body_mass_data. simpl. lra.
Defined.
End MassDataExamples.

(** ** Velocity: integration, damping, capping, assignment *)

Section VelocityFacts.
Context `{L : FlagLayout}.
Import Math.
Local Open Scope R_scope.

Lemma velocity_nonzero (v : Velocity) :
  bool_decide (linear v <> Vec2_zero) || bool_decide (angular v <> 0) = false <->
  v = zero_velocity.
Proof.
  rewrite orb_false_iff, !bool_decide_eq_false. destruct v as [lin ang]. simpl.
  unfold zero_velocity. split.
  - intros [Hl Ha]. apply dec_stable in Hl. apply dec_stable in Ha. now subst.
  - intros [= -> ->]. split; intros Hn; now apply Hn.
Qed.

(** C5. For an accelerable body [GetVelocity] returns the velocity of the
    body with [h] times the acceleration added and the sum divided by one
    plus [h] times the damping coefficient, for each linear component and
    for the angular component; for a body that is not accelerable it
    returns the velocity of the body. Both engines do so. *)
Theorem GetVelocity_integrates_and_damps (body : Body) (lbody : Legacy.Body) (h : R) :
  (IsAccelerable body = true ->
   GetVelocity body h =
     mkVelocity
       (mkVec2 ((GetX (linear (m_velocity body)) + h * GetX (m_linearAcceleration body))
                / (1 + h * m_linearDamping body))
               ((GetY (linear (m_velocity body)) + h * GetY (m_linearAcceleration body))
                / (1 + h * m_linearDamping body)))
       ((angular (m_velocity body) + h * m_angularAcceleration body)
        / (1 + h * m_angularDamping body))) /\
  (IsAccelerable body = false -> GetVelocity body h = m_velocity body) /\
  (Legacy.IsAccelerable lbody = true ->
   Legacy.GetVelocity lbody h =
     mkVelocity
       (mkVec2 ((GetX (linear (Legacy.m_velocity lbody))
                 + h * GetX (Legacy.m_linearAcceleration lbody))
                / (1 + h * Legacy.m_linearDamping lbody))
               ((GetY (linear (Legacy.m_velocity lbody))
                 + h * GetY (Legacy.m_linearAcceleration lbody))
                / (1 + h * Legacy.m_linearDamping lbody)))
       ((angular (Legacy.m_velocity lbody) + h * Legacy.m_angularAcceleration lbody)
        / (1 + h * Legacy.m_angularDamping lbody))) /\
  (Legacy.IsAccelerable lbody = false -> Legacy.GetVelocity lbody h = Legacy.m_velocity lbody).
Proof.
  unfold GetVelocity, Legacy.GetVelocity. repeat split; intros ->; try reflexivity.
  unfold vscale, vadd, Rdiv. simpl. rewrite !Rmult_1_l.
  do 2 f_equal; apply Rmult_comm.
Qed.

(** C9. [SetVelocity] with the zero velocity stores the zero velocity and
    leaves the flag word (hence the awake flag) and the under-active time
    of any body as they were. With a velocity that is not zero, a speedable
    body gets the awake flag, an under-active time of zero and the
    velocity; a body that is not speedable is left exactly as it was. So
    the awake flag and the under-active time change only in a call with a
    non-zero velocity on a speedable body. Both engines do so. *)
Theorem SetVelocity_wakes_only_on_motion (b : Body) (lb : Legacy.Body) (v : Velocity) :
  (m_velocity (SetVelocity zero_velocity b) = zero_velocity /\
   m_flags (SetVelocity zero_velocity b) = m_flags b /\
   IsAwake (SetVelocity zero_velocity b) = IsAwake b /\
   m_underActiveTime (SetVelocity zero_velocity b) = m_underActiveTime b) /\
  (v <> zero_velocity -> IsSpeedable b = true ->
   IsAwake (SetVelocity v b) = true /\
   m_underActiveTime (SetVelocity v b) = 0 /\
   m_velocity (SetVelocity v b) = v) /\
  (v <> zero_velocity -> IsSpeedable b = false -> SetVelocity v b = b) /\
  (IsAwake (SetVelocity v b) <> IsAwake b \/
   m_underActiveTime (SetVelocity v b) <> m_underActiveTime b ->
   v <> zero_velocity /\ IsSpeedable b = true) /\
  (Legacy.m_velocity (Legacy.SetVelocity zero_velocity lb) = zero_velocity /\
   Legacy.m_flags (Legacy.SetVelocity zero_velocity lb) = Legacy.m_flags lb /\
   Legacy.m_sleepTime (Legacy.SetVelocity zero_velocity lb) = Legacy.m_sleepTime lb) /\
  (v <> zero_velocity -> Legacy.IsSpeedable lb = true ->
   Legacy.IsAwake (Legacy.SetVelocity v lb) = true /\
   Legacy.m_sleepTime (Legacy.SetVelocity v lb) = 0 /\
   Legacy.m_velocity (Legacy.SetVelocity v lb) = v) /\
  (v <> zero_velocity -> Legacy.IsSpeedable lb = false -> Legacy.SetVelocity v lb = lb).
Proof.
  assert (Hz : bool_decide (linear zero_velocity <> Vec2_zero)
               || bool_decide (angular zero_velocity <> 0) = false)
    by now apply velocity_nonzero.
  assert (Hnz : v <> zero_velocity ->
                bool_decide (linear v <> Vec2_zero) || bool_decide (angular v <> 0) = true).
  { intros Hv. apply not_false_iff_true. intros Hf. now apply velocity_nonzero in Hf. }
  unfold SetVelocity, Legacy.SetVelocity. rewrite Hz.
  split; [now repeat split|].
  split.
  { intros Hv Hs. rewrite (Hnz Hv), Hs. simpl. repeat split.
    unfold IsAwake, SetAwakeFlag. simpl. flag_bits. reflexivity. }
  split.
  { intros Hv Hs. now rewrite (Hnz Hv), Hs. }
  split.
  { intros Hchg.
    destruct (bool_decide (linear v <> Vec2_zero) || bool_decide (angular v <> 0)) eqn:Ev.
    - split.
      + intros ->. rewrite Hz in Ev. discriminate.
      + destruct (IsSpeedable b); [reflexivity|]. simpl in Hchg. now destruct Hchg as [Hc|Hc].
    - simpl in Hchg. now destruct Hchg as [Hc|Hc]. }
  split; [now repeat split|].
  split.
  { intros Hv Hs. rewrite (Hnz Hv), Hs. simpl. unfold Legacy.SetAwake. rewrite Hs.
    repeat split.
    unfold Legacy.IsAwake. simpl. flag_bits. reflexivity. }
  intros Hv Hs. now rewrite (Hnz Hv), Hs.
Qed.
End VelocityFacts.

Section CapFacts.
Import Math.
Local Open Scope R_scope.

Lemma GetMagnitudeSquared_nonneg (v : Vec2) : 0 <= GetMagnitudeSquared v.
Proof. unfold GetMagnitudeSquared, Square. nra. Qed.

Lemma GetMagnitude_nonneg (v : Vec2) : 0 <= GetMagnitude v.
Proof. apply sqrt_pos. Qed.

Lemma GetMagnitude_vscale (r : R) (v : Vec2) :
  GetMagnitude (vscale r v) = Rabs r * GetMagnitude v.
Proof.
  unfold GetMagnitude.
  replace (GetMagnitudeSquared (vscale r v)) with (Rsqr r * GetMagnitudeSquared v)
    by (unfold GetMagnitudeSquared, Square, vscale, Rsqr; simpl; ring).
  rewrite sqrt_mult; [|apply Rle_0_sqr|apply GetMagnitudeSquared_nonneg].
  now rewrite sqrt_Rsqr_abs.
Qed.

Lemma ratio_in_unit_interval (a b : R) : 0 < a -> a < b -> 0 <= a / b <= 1.
Proof.
  intros Ha Hab. assert (Hb : 0 < b) by lra. split.
  - apply Rlt_le, Rdiv_lt_0_compat; assumption.
  - apply Rmult_le_reg_r with b; [assumption|].
    unfold Rdiv. rewrite Rmult_assoc, Rinv_l by lra. lra.
Qed.

Lemma scaled_magnitude_le (r m : R) : 0 <= r <= 1 -> 0 <= m -> Rabs r * m <= m.
Proof. intros [Hr0 Hr1] Hm. rewrite Rabs_right by lra. nra. Qed.

Lemma sqrt_above_bound (x t : R) : 0 < t -> x > Square t -> t < sqrt x.
Proof.
  intros Ht Hx. unfold Square in Hx.
  rewrite <- (sqrt_Rsqr t) at 1 by lra.
  apply sqrt_lt_1_alt. unfold Rsqr. nra.
Qed.

(** C10. [Cap] never speeds a body up: for a time step that is not
    negative and a movement configuration with positive bounds, the linear
    velocity it returns is no longer than the one it was given, and the
    angular velocity it returns is no larger in absolute value. *)
Theorem Cap_never_speeds_up (velocity : Velocity) (h : R) (conf : MovementConf) :
  0 <= h -> 0 < maxTranslation conf -> 0 < maxRotation conf ->
  GetMagnitude (linear (Cap velocity h conf)) <= GetMagnitude (linear velocity) /\
  Rabs (angular (Cap velocity h conf)) <= Rabs (angular velocity).
Proof.
  intros Hh HT HR. unfold Cap.
  set (lsquared := GetMagnitudeSquared (vscale h (linear velocity))).
  assert (Hlin : lsquared > Square (maxTranslation conf) ->
                 GetMagnitude (vscale (maxTranslation conf / sqrt lsquared) (linear velocity))
                 <= GetMagnitude (linear velocity)).
  { intros Hgt. rewrite GetMagnitude_vscale.
    apply scaled_magnitude_le; [|apply GetMagnitude_nonneg].
    apply ratio_in_unit_interval; [assumption|]. now apply sqrt_above_bound. }
  assert (Hang : forall w, Rabs (h * w) > maxRotation conf ->
                 Rabs (w * (maxRotation conf / Rabs (h * w))) <= Rabs w).
  { intros w Hgt. rewrite Rabs_mult, Rmult_comm.
    apply scaled_magnitude_le; [|apply Rabs_pos].
    apply ratio_in_unit_interval; [assumption|lra]. }
  repeat case_bool_decide; simpl; split;
    first [now apply Hlin | now apply Hang | apply Rle_refl].
Qed.
End CapFacts.

(** ** Collision filtering by bodies and joints *)

Section ShouldCollideFacts.
Context `{L : FlagLayout}.

(** The key under which [Body::Insert] files a joint attached to the body
    is the body at the other end: an entry keyed by [r] is a joint that
    connects the body and [r]. *)
Lemma Insert_key_connects (joint : Joint) (b : Body) (r : BodyPtr) :
  GetBodyA joint = this b \/ GetBodyB joint = this b ->
  exists key, m_joints (snd (Insert joint b)) = m_joints b ++ [(key, joint)] /\
              (key = r <-> connects joint (this b) r).
Proof.
  intros Hatt. unfold Insert, connects. simpl.
  repeat case_bool_decide; eexists; (split; [reflexivity|]); intuition congruence.
Qed.

Lemma joints_allow_false (other : BodyPtr) (joints : list Joint) :
  Legacy.joints_allow other joints = false <->
  exists joint, In joint joints /\
                (GetBodyA joint = other \/ GetBodyB joint = other) /\
                GetCollideConnected joint = false.
Proof.
  induction joints as [|j rest IH]; simpl.
  - split; [discriminate|]. intros (? & [] & _).
  - destruct (bool_decide (GetBodyA j = other) || bool_decide (GetBodyB j = other)) eqn:Hk.
    + apply orb_true_iff in Hk. rewrite !bool_decide_eq_true in Hk.
      destruct (GetCollideConnected j) eqn:Hcc; simpl.
      * rewrite IH. split.
        -- intros (x & Hin & Hx). exists x. auto.
        -- intros (x & [<-|Hin] & Hx & Hc); [congruence|]. exists x. auto.
      * split; [|reflexivity]. intros _. exists j. auto.
    + apply orb_false_iff in Hk. rewrite !bool_decide_eq_false in Hk.
      rewrite IH. split.
      * intros (x & Hin & Hx). exists x. auto.
      * intros (x & [<-|Hin] & Hx & Hc); [tauto|]. exists x. auto.
Qed.

(** What [ShouldCollide] tests, in terms of the joint list of the first
    body. *)
Lemma ShouldCollide_false_entries (lhs rhs : Body) :
  ShouldCollide lhs rhs = false <->
  (IsAccelerable lhs = false /\ IsAccelerable rhs = false) \/
  (exists ji : KeyedJointPtr, In ji (GetJoints lhs) /\ fst ji = this rhs /\
                              GetCollideConnected (snd ji) = false).
Proof.
  unfold ShouldCollide.
  destruct (IsAccelerable lhs) eqn:Hl, (IsAccelerable rhs) eqn:Hr; simpl;
    try (split; [intros _|reflexivity]; left; now split).
  all: match goal with
       | |- context [find ?f ?l] => destruct (find f l) as [ji|] eqn:Hfind
       end.
  all: try (apply find_some in Hfind; destruct Hfind as [Hin Hp];
            apply andb_true_iff in Hp; destruct Hp as [Hk Hc];
            apply bool_decide_eq_true in Hk; apply negb_true_iff in Hc;
            split; [intros _; right; exists ji; auto | reflexivity]).
  all: split; [discriminate|];
    intros [[? ?]|(ji & Hin & Hk & Hc)]; try discriminate;
    pose proof (find_none _ _ Hfind ji Hin) as Hn; simpl in Hn;
    rewrite Hc, bool_decide_true in Hn by assumption; discriminate.
Qed.

Lemma Legacy_ShouldCollide_false_joints (lb lo : Legacy.Body) :
  Legacy.ShouldCollide lb lo = false <->
  (Legacy.IsAccelerable lb = false /\ Legacy.IsAccelerable lo = false) \/
  (exists joint : Joint, In joint (Legacy.m_joints lb) /\
                         (GetBodyA joint = Legacy.this lo \/ GetBodyB joint = Legacy.this lo) /\
                         GetCollideConnected joint = false).
Proof.
  unfold Legacy.ShouldCollide.
  destruct (Legacy.IsAccelerable lb) eqn:Hl, (Legacy.IsAccelerable lo) eqn:Hr; simpl;
    try (split; [intros _|reflexivity]; left; now split).
  all: rewrite joints_allow_false; split; [intros H; now right|];
    intros [[? ?]|H]; [discriminate|assumption].
Qed.

(** The entry that [Body::Insert] makes for a joint attached to the body
    is keyed by the body at the other end of the joint. *)
Lemma Insert_entry (joint : Joint) (b : Body) :
  attached joint (this b) ->
  exists key : BodyPtr,
    snd (Insert joint b) = set_m_joints (m_joints b ++ [(key, joint)]) b /\
    forall r : BodyPtr, key = r <-> connects joint (this b) r.
Proof.
  intros Hatt. unfold Insert, connects, attached in *. simpl.
  repeat case_bool_decide; eexists; (split; [reflexivity|]); intros r;
    intuition congruence.
Qed.

Lemma file_joints_this (joints : list Joint) (b : Body) :
  this (file_joints joints b) = this b.
Proof.
  revert b. induction joints as [|joint rest IH]; intros b; [reflexivity|].
  unfold file_joints in *. simpl. rewrite IH. now case_decide.
Qed.

(** The entries of a joint list after filing: those it had, and for each
    filed joint attached to the body an entry keyed by the other end. *)
Lemma file_joints_entries (joints : list Joint) (b : Body) (ji : KeyedJointPtr) :
  In ji (m_joints (file_joints joints b)) <->
  In ji (m_joints b) \/
  (In (snd ji) joints /\ attached (snd ji) (this b) /\
   forall r : BodyPtr, fst ji = r <-> connects (snd ji) (this b) r).
Proof.
  revert b. induction joints as [|joint rest IH]; intros b.
  - simpl. tauto.
  - change (file_joints (joint :: rest) b)
      with (file_joints rest (if decide (attached joint (this b))
                              then snd (Insert joint b) else b)).
    rewrite IH. destruct (decide (attached joint (this b))) as [Hatt|Hatt].
    + destruct (Insert_entry joint b Hatt) as (key & Hins & Hkey). rewrite Hins.
      cbn [this m_joints set_m_joints]. rewrite in_app_iff. cbn [In]. split.
      * intros [[Hin|[Heq|[]]]|(Hin & Ha & Hk)].
        -- now left.
        -- subst ji. right. cbn [fst snd]. split; [now left|]. split; assumption.
        -- right. split; [now right|]. split; assumption.
      * intros [Hin|([Hj|Hin] & Ha & Hk)].
        -- left. now left.
        -- left. right. left. destruct ji as [k j0]. cbn [fst snd] in *. subst j0.
           f_equal. apply Hkey, Hk. reflexivity.
        -- right. split; [assumption|]. split; assumption.
    + cbn [In]. split.
      * intros [Hin|(Hin & Ha & Hk)]; [now left|].
        right. split; [now right|]. split; assumption.
      * intros [Hin|([Hj|Hin] & Ha & Hk)]; [now left| |].
        -- subst joint. contradiction.
        -- right. split; [assumption|]. split; assumption.
Qed.

(** C6. For bodies whose joint lists hold the joints of the world that
    are attached to them, as [Body::Insert] files them: [ShouldCollide] is
    false when neither body is accelerable, and false when some joint that
    connects the two bodies has its collide-connected flag false; in every
    other case it is true. The legacy member function does the same for
    two distinct bodies. *)
Theorem ShouldCollide_false_iff
    (joints : list Joint) (lhs rhs : Body) (lb lo : Legacy.Body) :
  (filed joints lhs ->
   (ShouldCollide lhs rhs = false <->
    (IsAccelerable lhs = false /\ IsAccelerable rhs = false) \/
    (exists joint : Joint, In joint joints /\ connects joint (this lhs) (this rhs) /\
                           GetCollideConnected joint = false))) /\
  (Legacy_filed joints lb -> Legacy.this lb <> Legacy.this lo ->
   (Legacy.ShouldCollide lb lo = false <->
    (Legacy.IsAccelerable lb = false /\ Legacy.IsAccelerable lo = false) \/
    (exists joint : Joint, In joint joints /\
                           connects joint (Legacy.this lb) (Legacy.this lo) /\
                           GetCollideConnected joint = false))).
Proof.
  split.
  - intros Hfiled. rewrite ShouldCollide_false_entries.
    apply or_iff_compat_l. split.
    + intros (ji & Hin & Hk & Hc). apply Hfiled in Hin.
      apply file_joints_entries in Hin. simpl in Hin.
      destruct Hin as [[]|(Hin & Ha & Hkey)].
      exists (snd ji). split; [assumption|]. split; [|assumption]. now apply Hkey.
    + intros (joint & Hin & Hcon & Hc).
      exists (this rhs, joint). split; [|split; [reflexivity|assumption]].
      apply Hfiled, file_joints_entries. right. simpl.
      split; [assumption|]. split.
      * unfold attached. destruct Hcon as [[? ?]|[? ?]]; auto.
      * intros r. unfold connects in *. split; [intros <-; assumption|].
        destruct Hcon as [[HA HB]|[HA HB]]; intros [[HA' HB']|[HA' HB']]; congruence.
  - intros Hfiled Hne. rewrite Legacy_ShouldCollide_false_joints.
    apply or_iff_compat_l. split.
    + intros (joint & Hin & Hend & Hc). apply Hfiled in Hin. destruct Hin as [Hin Hatt].
      exists joint. split; [assumption|]. split; [|assumption].
      unfold connects, attached in *. intuition congruence.
    + intros (joint & Hin & Hcon & Hc). exists joint.
      split; [|split; [|assumption]].
      * apply Hfiled. split; [assumption|].
        unfold attached. destruct Hcon as [[? ?]|[? ?]]; auto.
      * destruct Hcon as [[? ?]|[? ?]]; auto.
Qed.
End ShouldCollideFacts.

(** ** Chain loops *)

Section ChainFacts.
Import Math.
Local Open Scope R_scope.
Variable b2_linearSlop : R.

Lemma spacing_loop_true (vertices : list Vec2) (fuel i : nat) :
  (1 <= i)%nat -> (i + fuel <= length vertices)%nat ->
  (forall (k : nat) (a b : Vec2),
      vertices !! k = Some a -> vertices !! S k = Some b ->
      b2DistanceSquared a b > Square b2_linearSlop) ->
  spacing_loop b2_linearSlop vertices i fuel = true.
Proof.
  intros Hi Hlen Hsp. revert i Hi Hlen.
  induction fuel as [|fuel IH]; intros i Hi Hlen; simpl; [reflexivity|].
  destruct (lookup_lt_is_Some_2 vertices (i - 1)) as [a Ha]; [lia|].
  destruct (lookup_lt_is_Some_2 vertices i) as [b Hb]; [lia|].
  rewrite Ha, Hb.
  rewrite bool_decide_true.
  - simpl. apply IH; lia.
  - apply (Hsp (i - 1)%nat); [assumption|].
    now replace (S (i - 1)) with i by lia.
Qed.

Lemma read_app_l (l : list Vec2) (rest : list cell) (i : nat) (v : Vec2) :
  l !! i = Some v -> read ((Some <$> l) ++ rest) i = Some v.
Proof.
  intros Hi. unfold read.
  rewrite lookup_app_l by (rewrite length_fmap; now apply lookup_lt_Some in Hi).
  now rewrite list_lookup_fmap, Hi.
Qed.

Lemma far_apart_squared (a b : Vec2) :
  0 <= b2_linearSlop -> GetMagnitude (vsub a b) > b2_linearSlop ->
  b2DistanceSquared a b > Square b2_linearSlop.
Proof.
  intros Hs Hd. unfold b2DistanceSquared, GetMagnitude, Square in *.
  pose proof (GetMagnitudeSquared_nonneg (vsub a b)) as Hn.
  rewrite <- (sqrt_sqrt _ Hn). nra.
Qed.

(** C7. Given an array of [count >= 3] vertices, consecutive ones more
    than [b2_linearSlop] apart, [CreateLoop] on a chain shape without
    vertices succeeds; the shape then has a vertex array of [count + 1]
    initialised elements, the input vertices followed by the first input
    vertex; its previous-neighbour vertex is the last-but-one element of
    that ring, which is the last input vertex, its next-neighbour vertex is
    the second element of the ring, and both neighbours are marked
    present. *)
Theorem CreateLoop_closes_ring (vertices : list Vec2) (s : b2ChainShape) :
  m_vertices s = None -> m_count s = 0%nat ->
  0 <= b2_linearSlop ->
  (3 <= length vertices)%nat ->
  (forall (k : nat) (a b : Vec2),
      vertices !! k = Some a -> vertices !! S k = Some b ->
      GetMagnitude (vsub a b) > b2_linearSlop) ->
  let count := length vertices in
  exists (s' : b2ChainShape) (ring : list cell) (first second last : Vec2),
    CreateLoop b2_linearSlop vertices count s = Some s' /\
    m_vertices s' = Some ring /\
    m_count s' = (count + 1)%nat /\
    length ring = (count + 1)%nat /\
    ring = (Some <$> vertices) ++ [Some first] /\
    vertices !! 0%nat = Some first /\
    vertices !! 1%nat = Some second /\
    vertices !! (count - 1)%nat = Some last /\
    ring !! count = Some (Some first) /\
    m_prevVertex s' = last /\ ring !! (count - 1)%nat = Some (Some last) /\
    m_nextVertex s' = second /\ ring !! 1%nat = Some (Some second) /\
    m_hasPrevVertex s' = true /\ m_hasNextVertex s' = true.
Proof.
  intros Hnull Hzero Hslop Hlen Hfar count.
  destruct (lookup_lt_is_Some_2 vertices 0) as [first Hfirst]; [lia|].
  destruct (lookup_lt_is_Some_2 vertices 1) as [second Hsecond]; [lia|].
  destruct (lookup_lt_is_Some_2 vertices (count - 1)) as [last Hlast]; [subst count; lia|].
  set (ring := (Some <$> vertices) ++ [Some first]).
  assert (Hring_len : length ring = (count + 1)%nat).
  { unfold ring. rewrite length_app, length_fmap. reflexivity. }
  assert (Hring_lookup : forall k v, vertices !! k = Some v -> ring !! k = Some (Some v)).
  { intros k v Hk. unfold ring. rewrite lookup_app_l.
    - now rewrite list_lookup_fmap, Hk.
    - rewrite length_fmap. now apply lookup_lt_Some in Hk. }
  assert (Hring_count : ring !! count = Some (Some first)).
  { unfold ring. rewrite lookup_app_r by (rewrite length_fmap; subst count; lia).
    rewrite length_fmap. subst count. now rewrite Nat.sub_diag. }
  exists (mkChainShape (Some ring) (count + 1) last second true true),
    ring, first, second, last.
  split; [|repeat split; auto].
  unfold CreateLoop. rewrite Hnull, Hzero.
  rewrite !bool_decide_true by (reflexivity || exact Hlen). simpl.
  rewrite spacing_loop_true; [simpl|lia|fold count; lia|].
  2:{ intros k a b Ha Hb. apply far_apart_squared; [assumption|]. now apply (Hfar k). }
  unfold memcpy. rewrite decide_True by (rewrite length_replicate; fold count; lia).
  fold count. simpl.
  rewrite take_ge by (subst count; lia). rewrite drop_replicate.
  replace (count + 1 - count)%nat with 1%nat by lia.
  replace (count + 1 - 2)%nat with (count - 1)%nat by lia.
  rewrite (read_app_l _ _ _ _ Hfirst). simpl.
  rewrite insert_app_r_alt by (rewrite length_fmap; subst count; lia).
  rewrite length_fmap. fold count. rewrite Nat.sub_diag. simpl.
  rewrite (read_app_l _ _ _ _ Hlast). simpl.
  rewrite (read_app_l _ _ _ _ Hsecond). reflexivity.
Qed.
End ChainFacts.

(** ** Direct construction of a direction *)

Section UnitVecFacts.
Import Math Geometry.
Local Open Scope R_scope.

Lemma magnitude_4_2 : 2 < GetMagnitude (mkVec2 4 2).
Proof.
  unfold GetMagnitude, GetMagnitudeSquared, Square. simpl.
  rewrite <- (sqrt_square 2) at 1 by lra.
  apply sqrt_lt_1_alt. lra.
Qed.

Lemma magnitude_0_1 : GetMagnitude (mkVec2 0 1) = 1.
Proof.
  unfold GetMagnitude, GetMagnitudeSquared, Square. simpl.
  replace (0 * 0 + 1 * 1) with 1 by ring. apply sqrt_1.
Qed.

Lemma magnitude_1_0 : GetMagnitude (mkVec2 1 0) = 1.
Proof.
  unfold GetMagnitude, GetMagnitudeSquared, Square. simpl.
  replace (1 * 1 + 0 * 0) with 1 by ring. apply sqrt_1.
Qed.

(** C8. With a tolerance below one unit, constructing a direction from a
    2-vector whose magnitude is not 1 within the tolerance fails with
    [InvalidArgument], and so does the construction from (4, 2);
    constructing it from a 2-vector whose magnitude is 1 within the
    tolerance succeeds with a direction that converts back to that very
    vector, and so do the constructions from (0, 1) and from (1, 0). *)
Theorem UnitVec_from_Vec2_checks_magnitude (tolerance : R) :
  0 <= tolerance < 1 ->
  (forall value : Vec2,
      ~ Rabs (GetMagnitude value - 1) <= tolerance ->
      UnitVec_from_Vec2 tolerance value = inl InvalidArgument) /\
  UnitVec_from_Vec2 tolerance (mkVec2 4 2) = inl InvalidArgument /\
  (forall value : Vec2,
      Rabs (GetMagnitude value - 1) <= tolerance ->
      exists u : UnitVec, UnitVec_from_Vec2 tolerance value = inr u /\ uv_vec u = value) /\
  (exists u : UnitVec,
      UnitVec_from_Vec2 tolerance (mkVec2 0 1) = inr u /\ uv_vec u = mkVec2 0 1) /\
  (exists u : UnitVec,
      UnitVec_from_Vec2 tolerance (mkVec2 1 0) = inr u /\ uv_vec u = mkVec2 1 0).
Proof.
  intros [Ht0 Ht1].
  assert (Hfail : forall value : Vec2,
             ~ Rabs (GetMagnitude value - 1) <= tolerance ->
             UnitVec_from_Vec2 tolerance value = inl InvalidArgument).
  { intros value Hv. unfold UnitVec_from_Vec2, IsUnit. now rewrite bool_decide_false. }
  assert (Hok : forall value : Vec2,
             Rabs (GetMagnitude value - 1) <= tolerance ->
             exists u : UnitVec, UnitVec_from_Vec2 tolerance value = inr u /\ uv_vec u = value).
  { intros value Hv. unfold UnitVec_from_Vec2, IsUnit. rewrite bool_decide_true by assumption.
    eexists. split; [reflexivity|]. now destruct value. }
  repeat split.
  - exact Hfail.
  - apply Hfail. pose proof magnitude_4_2 as Hm.
    rewrite Rabs_right by lra. lra.
  - exact Hok.
  - apply Hok. rewrite magnitude_0_1. replace (1 - 1) with 0 by ring. now rewrite Rabs_R0.
  - apply Hok. rewrite magnitude_1_0. replace (1 - 1) with 0 by ring. now rewrite Rabs_R0.
Qed.

Lemma UnitVec_from_Vec2_checks_magnitude_witness :
  UnitVec_from_Vec2 0 (mkVec2 4 2) = inl InvalidArgument.
Proof.
  apply (UnitVec_from_Vec2_checks_magnitude 0). lra.
Defined.
End UnitVecFacts.

(** ** Rope joint: the velocity iteration *)

Section RopeFacts.
Import Math Geometry Rope RopeQuantities.
Local Open Scope R_scope.

Lemma Min_is_Rmin (a b : R) : Min a b = Rmin a b.
Proof.
  unfold Min, Rmin. case_bool_decide; destruct (Rle_dec a b); lra.
Qed.

(** C2. A call of [SolveVelocityConstraints] on a joint whose two bodies
    are among the body constraints returns. With [Cdot] the velocity of
    the anchor on body B minus that of the anchor on body A along the
    rope, plus the predictive term when the rope is shorter than its
    maximum length, the accumulated impulse afterwards is the minimum of
    zero and the previous accumulated impulse plus the raw impulse, minus
    the mass times [Cdot]; so it is never positive. The value returned is
    the new accumulated impulse minus the old one, and that difference
    times the rope direction is the impulse that body A loses and body B
    gains: each linear velocity changes by it times the inverse mass, each
    angular velocity by its moment about the body times the inverse
    rotational inertia. Nothing else of the joint or of the body
    constraints changes. Everything is written out in coordinates. *)
Theorem SolveVelocityConstraints_clamps_impulse
    (j : RopeJoint) (bodies : gmap N BodyConstraint) (step : StepConf)
    (bodiesA bodiesB : BodyConstraint) :
  bodies !! rj_bodyA j = Some bodiesA ->
  bodies !! rj_bodyB j = Some bodiesB ->
  let vA := linear (bcn_velocity bodiesA) in
  let wA := angular (bcn_velocity bodiesA) in
  let vB := linear (bcn_velocity bodiesB) in
  let wB := angular (bcn_velocity bodiesB) in
  let ux := uvX (m_u j) in
  let uy := uvY (m_u j) in
  let C := m_length j - m_maxLength j in
  let Cdot :=
    ux * ((GetX vB + wB * - GetY (m_rB j)) - (GetX vA + wA * - GetY (m_rA j)))
    + uy * ((GetY vB + wB * GetX (m_rB j)) - (GetY vA + wA * GetX (m_rA j)))
    + (if bool_decide (C < 0) then GetInvTime step * C else 0) in
  let accumulated := Rmin 0 (m_impulse j + - (m_mass j * Cdot)) in
  let applied := accumulated - m_impulse j in
  let Px := applied * ux in
  let Py := applied * uy in
  exists (j' : RopeJoint) (bodies' : gmap N BodyConstraint),
    SolveVelocityConstraints j bodies step = Some (applied, j', bodies') /\
    j' = mkRopeJoint (rj_bodyA j) (rj_bodyB j) (m_localAnchorA j) (m_localAnchorB j)
                     (m_maxLength j) (m_length j) accumulated (m_rA j) (m_rB j) (m_u j)
                     (m_mass j) (m_state j) /\
    m_impulse j' <= 0 /\
    (exists bodiesB' : BodyConstraint,
        bodies' !! rj_bodyB j = Some bodiesB' /\
        GetX (linear (bcn_velocity bodiesB')) = GetX vB + bcn_invMass bodiesB * Px /\
        GetY (linear (bcn_velocity bodiesB')) = GetY vB + bcn_invMass bodiesB * Py /\
        angular (bcn_velocity bodiesB')
        = wB + bcn_invRotInertia bodiesB * (GetX (m_rB j) * Py - GetY (m_rB j) * Px) /\
        bcn_position bodiesB' = bcn_position bodiesB /\
        bcn_localCenter bodiesB' = bcn_localCenter bodiesB /\
        bcn_invMass bodiesB' = bcn_invMass bodiesB /\
        bcn_invRotInertia bodiesB' = bcn_invRotInertia bodiesB) /\
    (rj_bodyA j <> rj_bodyB j ->
     exists bodiesA' : BodyConstraint,
        bodies' !! rj_bodyA j = Some bodiesA' /\
        GetX (linear (bcn_velocity bodiesA')) = GetX vA - bcn_invMass bodiesA * Px /\
        GetY (linear (bcn_velocity bodiesA')) = GetY vA - bcn_invMass bodiesA * Py /\
        angular (bcn_velocity bodiesA')
        = wA - bcn_invRotInertia bodiesA * (GetX (m_rA j) * Py - GetY (m_rA j) * Px) /\
        bcn_position bodiesA' = bcn_position bodiesA /\
        bcn_localCenter bodiesA' = bcn_localCenter bodiesA /\
        bcn_invMass bodiesA' = bcn_invMass bodiesA /\
        bcn_invRotInertia bodiesA' = bcn_invRotInertia bodiesA) /\
    (forall k : N, k <> rj_bodyA j -> k <> rj_bodyB j -> bodies' !! k = bodies !! k).
Proof.
  intros HA HB vA wA vB wB ux uy C Cdot accumulated applied Px Py.
  assert (HCdot : Cdot_of j step (bcn_velocity bodiesA) (bcn_velocity bodiesB) = Cdot).
  { unfold Cdot_of, Cdot, Dot, vsub, vadd, vscale, GetRevPerpendicular, uv_vec. simpl.
    fold C. reflexivity. }
  assert (Hacc : Min 0 (m_impulse j
                        + - m_mass j * Cdot_of j step (bcn_velocity bodiesA)
                                                      (bcn_velocity bodiesB))
                 = accumulated).
  { rewrite HCdot, Min_is_Rmin. unfold accumulated. f_equal. ring. }
  eexists _, _. split.
  { unfold SolveVelocityConstraints. rewrite HA, HB. cbv zeta.
    rewrite Hacc. simpl. fold applied. reflexivity. }
  split; [reflexivity|].
  split; [apply Rmin_l|].
  split; [|split].
  - rewrite lookup_alter_eq.
    destruct (decide (rj_bodyA j = rj_bodyB j)) as [Heq|Hne].
    + rewrite <- Heq, lookup_alter_eq, HA. simpl.
      assert (bodiesA = bodiesB) as -> by (rewrite Heq in HA; congruence).
      eexists. split; [reflexivity|]. simpl.
      unfold Cross. simpl. repeat split; reflexivity.
    + rewrite lookup_alter_ne by assumption. rewrite HB. simpl.
      eexists. split; [reflexivity|]. simpl.
      unfold Cross. simpl. repeat split; reflexivity.
  - intros Hne. rewrite lookup_alter_ne by (apply not_eq_sym; assumption).
    rewrite lookup_alter_eq, HA. simpl.
    eexists. split; [reflexivity|]. simpl.
    unfold Cross. simpl. repeat split; reflexivity.
  - intros k HkA HkB.
    rewrite lookup_alter_ne by (apply not_eq_sym; assumption).
    now rewrite lookup_alter_ne by (apply not_eq_sym; assumption).
Qed.
End RopeFacts.

(** ** Wake state of bodies and contacts in a world *)

Section WorldFacts.
Context `{L : FlagLayout}.



























End WorldFacts.

Module WorldCounterexample.
Import Examples WorldExamples.

Lemma resting_world_invariant : world_invariant (L := playrho_layout) resting_world.
Proof.
  unfold world_invariant, resting_world. simpl.
  repeat constructor; unfold awake_is_speedable; intros Ha; try reflexivity; discriminate Ha.
Qed.

End WorldCounterexample.

(** ** The theorems at concrete inputs *)

Module Witnesses.
Import Math Geometry Examples WorldExamples MoreExamples JointExamples.
Local Open Scope R_scope.

Lemma GetFlags_awake_iff_witness :
  has_flag (GetFlags (L := playrho_layout) static_awake_conf)
           (e_awakeFlag (L := playrho_layout)) = false.
Proof.
  apply (proj2 (GetFlags_awake_iff (L := playrho_layout) static_awake_conf)). reflexivity.
Defined.

Lemma GetVelocity_integrates_and_damps_witness :
  angular (GetVelocity (L := playrho_layout) offset_body 1) = (0 + 1 * 0) / (1 + 1 * 0) /\
  angular (Legacy.GetVelocity (L := playrho_layout) legacy_offset_body 1)
    = (0 + 1 * 0) / (1 + 1 * 0).
Proof.
  destruct (GetVelocity_integrates_and_damps (L := playrho_layout)
              offset_body legacy_offset_body 1) as (H1 & _ & H2 & _).
  rewrite H1, H2 by reflexivity. split; reflexivity.
Defined.

Lemma SetVelocity_wakes_only_on_motion_witness :
  IsAwake (L := playrho_layout) (SetVelocity (L := playrho_layout) fast offset_body) = true /\
  m_underActiveTime (SetVelocity (L := playrho_layout) fast offset_body) = 0 /\
  m_velocity (SetVelocity (L := playrho_layout) fast offset_body) = fast.
Proof.
  destruct (SetVelocity_wakes_only_on_motion (L := playrho_layout)
              offset_body legacy_offset_body fast) as (_ & H & _).
  apply H; [|reflexivity].
  unfold fast, zero_velocity. intros [= H3 _ _]. lra.
Defined.

Lemma Cap_never_speeds_up_witness :
  GetMagnitude (linear (Cap fast 1 tight)) <= GetMagnitude (linear fast) /\
  Rabs (angular (Cap fast 1 tight)) <= Rabs (angular fast).
Proof.
  apply Cap_never_speeds_up; simpl; lra.
Defined.

Lemma triangle_far_apart (k : nat) (a b : Vec2) :
  triangle !! k = Some a -> triangle !! S k = Some b -> GetMagnitude (vsub a b) > 0.
Proof.
  intros Ha Hb. apply Rlt_gt, sqrt_lt_R0.
  destruct k as [|[|[|k]]]; simpl in Ha, Hb; try discriminate;
    injection Ha as <-; injection Hb as <-;
    unfold GetMagnitudeSquared, Square, vsub; simpl; lra.
Qed.

Lemma CreateLoop_closes_ring_witness :
  exists s' : b2ChainShape,
    CreateLoop 0 triangle 3%nat empty_chain = Some s' /\
    m_count s' = 4%nat /\
    m_prevVertex s' = mkVec2 0 1 /\ m_nextVertex s' = mkVec2 1 0.
Proof.
  destruct (CreateLoop_closes_ring 0 triangle empty_chain)
    as (s' & ring & v0 & v1 & vl & Hs & _ & Hc & _ & _ & _ & H1 & Hl & _ & Hp & _ & Hn & _).
  - reflexivity.
  - reflexivity.
  - lra.
  - simpl. lia.
  - exact triangle_far_apart.
  - exists s'. simpl in *. injection H1 as <-. injection Hl as <-. auto.
Defined.

Lemma SolveVelocityConstraints_clamps_impulse_witness :
  exists (j' : RopeJoint) (bodies' : gmap N BodyConstraint)
         (bodiesA' bodiesB' : BodyConstraint),
    Rope.SolveVelocityConstraints rope rope_bodies unit_step = Some (-2, j', bodies') /\
    m_impulse j' = -2 /\
    bodies' !! 1%N = Some bodiesA' /\
    bodies' !! 2%N = Some bodiesB' /\
    GetX (linear (bcn_velocity bodiesA')) = -1 - 1 * (-2 * 1) /\
    GetX (linear (bcn_velocity bodiesB')) = 1 + 1 * (-2 * 1).
Proof.
  destruct (SolveVelocityConstraints_clamps_impulse rope rope_bodies unit_step
              leftward rightward eq_refl eq_refl)
    as (j' & bodies' & Hs & Hj & _ & (bodiesB' & HB & HBx & _) & HA & _).
  destruct HA as (bodiesA' & HA & HAx & _); [simpl; discriminate|].
  match type of Hs with
  | _ = Some (?a, _, _) => assert (Happ : a = -2)
  end.
  { simpl. rewrite bool_decide_false by lra.
    unfold Rmin. destruct (Rle_dec _ _); lra. }
  rewrite Happ in Hs, HAx, HBx.
  exists j', bodies', bodiesA', bodiesB'.
  split; [exact Hs|]. split; [|split; [exact HA|split; [exact HB|split]]].
  - rewrite Hj. simpl. rewrite bool_decide_false by lra.
    unfold Rmin. destruct (Rle_dec _ _); lra.
  - exact HAx.
  - exact HBx.
Defined.

Lemma jointed_body_filed : filed [pinned_joint] jointed_body.
Proof. intros ji. reflexivity. Qed.

Lemma legacy_jointed_body_filed : Legacy_filed [pinned_joint] legacy_jointed_body.
Proof.
  intros joint. simpl. split; [|tauto].
  intros [<-|[]]. split; [now left|]. left. reflexivity.
Qed.

Lemma ShouldCollide_false_iff_witness :
  ShouldCollide (L := playrho_layout) jointed_body other_dynamic_body = false /\
  Legacy.ShouldCollide (L := playrho_layout) legacy_jointed_body legacy_other_body = false.
Proof.
  destruct (ShouldCollide_false_iff (L := playrho_layout) [pinned_joint]
              jointed_body other_dynamic_body legacy_jointed_body legacy_other_body)
    as [H1 H2].
  split.
  - apply (H1 jointed_body_filed). right. exists pinned_joint.
    split; [now left|]. split; [|reflexivity]. left. split; reflexivity.
  - apply H2; [exact legacy_jointed_body_filed | discriminate |].
    right. exists pinned_joint.
    split; [now left|]. split; [|reflexivity]. left. split; reflexivity.
Defined.

End Witnesses.

(** * Further properties of the code *)

(** ** How the mutators of a body treat its flags *)

Section FlagFrames.
Context `{L : FlagLayout}.

Ltac same_bit := flag_bits; rewrite ?andb_true_r; reflexivity.

Lemma awake_set_velocity (f : Z) :
  has_flag (Z.lor f e_awakeFlag) e_velocityFlag = has_flag f e_velocityFlag.
Proof. same_bit. Qed.
Lemma awake_set_acceleration (f : Z) :
  has_flag (Z.lor f e_awakeFlag) e_accelerationFlag = has_flag f e_accelerationFlag.
Proof. same_bit. Qed.
Lemma awake_set_autoSleep (f : Z) :
  has_flag (Z.lor f e_awakeFlag) e_autoSleepFlag = has_flag f e_autoSleepFlag.
Proof. same_bit. Qed.
Lemma awake_set_fixedRotation (f : Z) :
  has_flag (Z.lor f e_awakeFlag) e_fixedRotationFlag = has_flag f e_fixedRotationFlag.
Proof. same_bit. Qed.
Lemma awake_set_awake (f : Z) : has_flag (Z.lor f e_awakeFlag) e_awakeFlag = true.
Proof. same_bit. Qed.

Lemma dirty_clear_velocity (f : Z) :
  has_flag (clear_flag f e_massDataDirtyFlag) e_velocityFlag = has_flag f e_velocityFlag.
Proof. same_bit. Qed.
Lemma dirty_clear_acceleration (f : Z) :
  has_flag (clear_flag f e_massDataDirtyFlag) e_accelerationFlag
  = has_flag f e_accelerationFlag.
Proof. same_bit. Qed.
Lemma dirty_clear_autoSleep (f : Z) :
  has_flag (clear_flag f e_massDataDirtyFlag) e_autoSleepFlag = has_flag f e_autoSleepFlag.
Proof. same_bit. Qed.
Lemma dirty_clear_fixedRotation (f : Z) :
  has_flag (clear_flag f e_massDataDirtyFlag) e_fixedRotationFlag
  = has_flag f e_fixedRotationFlag.
Proof. same_bit. Qed.
Lemma dirty_clear_awake (f : Z) :
  has_flag (clear_flag f e_massDataDirtyFlag) e_awakeFlag = has_flag f e_awakeFlag.
Proof. same_bit. Qed.
Lemma dirty_clear_dirty (f : Z) :
  has_flag (clear_flag f e_massDataDirtyFlag) e_massDataDirtyFlag = false.
Proof. same_bit. Qed.

Lemma fixed_set_velocity (f : Z) :
  has_flag (Z.lor f e_fixedRotationFlag) e_velocityFlag = has_flag f e_velocityFlag.
Proof. same_bit. Qed.
Lemma fixed_set_acceleration (f : Z) :
  has_flag (Z.lor f e_fixedRotationFlag) e_accelerationFlag = has_flag f e_accelerationFlag.
Proof. same_bit. Qed.
Lemma fixed_set_autoSleep (f : Z) :
  has_flag (Z.lor f e_fixedRotationFlag) e_autoSleepFlag = has_flag f e_autoSleepFlag.
Proof. same_bit. Qed.
Lemma fixed_set_awake (f : Z) :
  has_flag (Z.lor f e_fixedRotationFlag) e_awakeFlag = has_flag f e_awakeFlag.
Proof. same_bit. Qed.
Lemma fixed_set_fixed (f : Z) :
  has_flag (Z.lor f e_fixedRotationFlag) e_fixedRotationFlag = true.
Proof. same_bit. Qed.

Lemma fixed_clear_velocity (f : Z) :
  has_flag (clear_flag f e_fixedRotationFlag) e_velocityFlag = has_flag f e_velocityFlag.
Proof. same_bit. Qed.
Lemma fixed_clear_acceleration (f : Z) :
  has_flag (clear_flag f e_fixedRotationFlag) e_accelerationFlag
  = has_flag f e_accelerationFlag.
Proof. same_bit. Qed.
Lemma fixed_clear_autoSleep (f : Z) :
  has_flag (clear_flag f e_fixedRotationFlag) e_autoSleepFlag = has_flag f e_autoSleepFlag.
Proof. same_bit. Qed.
Lemma fixed_clear_awake (f : Z) :
  has_flag (clear_flag f e_fixedRotationFlag) e_awakeFlag = has_flag f e_awakeFlag.
Proof. same_bit. Qed.
Lemma fixed_clear_fixed (f : Z) :
  has_flag (clear_flag f e_fixedRotationFlag) e_fixedRotationFlag = false.
Proof. same_bit. Qed.
End FlagFrames.

Create Rewrite HintDb body_flags.
#[export] Hint Rewrite
  @awake_set_velocity @awake_set_acceleration @awake_set_autoSleep @awake_set_fixedRotation
  @awake_set_awake
  @dirty_clear_velocity @dirty_clear_acceleration @dirty_clear_autoSleep
  @dirty_clear_fixedRotation @dirty_clear_awake @dirty_clear_dirty
  @fixed_set_velocity @fixed_set_acceleration @fixed_set_autoSleep @fixed_set_awake
  @fixed_set_fixed
  @fixed_clear_velocity @fixed_clear_acceleration @fixed_clear_autoSleep @fixed_clear_awake
  @fixed_clear_fixed : body_flags.

(** Exposes the flag word behind the predicates of a body and simplifies
    it with the frame lemmas. *)
Ltac body_flags :=
  unfold IsSpeedable, IsAccelerable, IsAwake, IsSleepingAllowed, IsFixedRotation in *;
  simpl in *; autorewrite with body_flags in *.

(** ** The invariants of a body under its mutators *)

Section BodyInvariantFacts.
Context `{L : FlagLayout}.
Import Math Geometry.
Local Open Scope R_scope.
Variable GetAngle_of : Vec2 -> R.

Lemma acceleration_nonzero (lin : Vec2) (ang : R) :
  bool_decide (lin <> Vec2_zero) || bool_decide (ang <> 0) = false <->
  lin = Vec2_zero /\ ang = 0.
Proof.
  rewrite orb_false_iff, !bool_decide_eq_false. split.
  - intros [Hl Ha]. split; now apply dec_stable.
  - intros [-> ->]. split; intros Hn; now apply Hn.
Qed.

(** [SetVelocity] keeps the invariants of a body. *)
Lemma SetVelocity_keeps_invariant (v : Velocity) (b : Body) :
  BodyInvariant b -> BodyInvariant (SetVelocity v b).
Proof.
  intros Hinv. pose proof Hinv as [Hsl Haw Hv Ha Hu Hc]. unfold SetVelocity.
  destruct (bool_decide (linear v <> Vec2_zero) || bool_decide (angular v <> 0)) eqn:Hnz.
  - destruct (IsSpeedable b) eqn:Hs; simpl.
    + constructor; body_flags; auto; intros; congruence.
    + exact Hinv.
  - apply velocity_nonzero in Hnz. subst v.
    constructor; body_flags; auto.
Qed.

(** X4. [SetAcceleration] stores the acceleration it is given in an
    accelerable body, leaves a body that is not accelerable untouched when
    the acceleration is not zero, and never touches the velocity. *)
Theorem SetAcceleration_effect (lin : Vec2) (ang : R) (b : Body) :
  (IsAccelerable b = true ->
   m_linearAcceleration (SetAcceleration GetAngle_of lin ang b) = lin /\
   m_angularAcceleration (SetAcceleration GetAngle_of lin ang b) = ang) /\
  (IsAccelerable b = false -> ~ (lin = Vec2_zero /\ ang = 0) ->
   SetAcceleration GetAngle_of lin ang b = b) /\
  m_velocity (SetAcceleration GetAngle_of lin ang b) = m_velocity b.
Proof.
  unfold SetAcceleration.
  destruct (bool_decide (m_linearAcceleration b = lin)
            && bool_decide (m_angularAcceleration b = ang)) eqn:Hsame.
  - apply andb_true_iff in Hsame. rewrite !bool_decide_eq_true in Hsame.
    destruct Hsame as [Hl Ha]. repeat split; auto.
  - split; [|split].
    + intros ->. simpl. split; reflexivity.
    + intros -> Hn. simpl.
      destruct (bool_decide (lin <> Vec2_zero) || bool_decide (ang <> 0)) eqn:Hz;
        [reflexivity|].
      apply acceleration_nonzero in Hz. contradiction.
    + destruct (IsAccelerable b); simpl.
      * match goal with |- context [if ?c then _ else _] => destruct c end; reflexivity.
      * destruct (bool_decide (lin <> Vec2_zero) || bool_decide (ang <> 0)); reflexivity.
Qed.

(** [SetAcceleration] keeps the invariants of a body. *)
Lemma SetAcceleration_keeps_invariant (lin : Vec2) (ang : R) (b : Body) :
  BodyInvariant b -> BodyInvariant (SetAcceleration GetAngle_of lin ang b).
Proof.
  intros Hinv. pose proof Hinv as [Hsl Haw Hv Ha Hu Hc]. unfold SetAcceleration.
  destruct (bool_decide (m_linearAcceleration b = lin)
            && bool_decide (m_angularAcceleration b = ang)); [assumption|].
  destruct (IsAccelerable b) eqn:Hacc; simpl.
  - pose proof (Hc eq_refl) as Hs.
    match goal with |- context [if ?c then _ else _] => destruct c end;
      constructor; body_flags; auto; congruence.
  - destruct (bool_decide (lin <> Vec2_zero) || bool_decide (ang <> 0)) eqn:Hz;
      [assumption|].
    apply acceleration_nonzero in Hz. destruct Hz as [-> ->].
    constructor; body_flags; auto; intros; congruence.
Qed.

(** [ResetMassData] keeps the invariants of a body, and it clears the
    mass-data-dirty flag. *)
Lemma ResetMassData_keeps_invariant (b : Body) :
  BodyInvariant b ->
  BodyInvariant (ResetMassData b) /\
  has_flag (m_flags (ResetMassData b)) e_massDataDirtyFlag = false.
Proof.
  intros [Hsl Haw Hv Ha Hu Hc]. unfold ResetMassData.
  destruct (IsAccelerable b) eqn:Hacc; simpl.
  - pose proof (Hc eq_refl) as Hs.
    destruct (bool_decide (md_I (ComputeMassData b) > 0)
              && negb (IsFixedRotation (set_m_invMass _ b)));
      (split; [constructor|]); body_flags; auto; congruence.
  - (split; [constructor|]); body_flags; auto; intros; congruence.
Qed.

(** X5. After [SetFixedRotation(flag)] the body reports [flag] as its
    fixed-rotation state; a second call with the same flag changes
    nothing; and a call that changes the state leaves the body without
    angular velocity and, when rotation is now fixed, with inverse
    rotational inertia 0. *)
Theorem SetFixedRotation_round_trip (flag : bool) (b : Body) :
  IsFixedRotation (SetFixedRotation flag b) = flag /\
  SetFixedRotation flag (SetFixedRotation flag b) = SetFixedRotation flag b /\
  (IsFixedRotation b <> flag ->
   angular (m_velocity (SetFixedRotation flag b)) = 0 /\
   (flag = true -> m_invRotI (SetFixedRotation flag b) = 0)).
Proof.
  assert (Hfix : IsFixedRotation (SetFixedRotation flag b) = flag).
  { unfold SetFixedRotation. cbv zeta.
    destruct (eqb (IsFixedRotation b) flag) eqn:He; [now apply eqb_prop|].
    unfold ResetMassData.
    destruct flag; simpl;
      repeat match goal with |- context [if ?c then _ else _] => destruct c end;
      body_flags; reflexivity. }
  split; [exact Hfix|]. split.
  - unfold SetFixedRotation at 1. cbv zeta. now rewrite Hfix, eqb_reflx.
  - intros Hne. unfold SetFixedRotation. cbv zeta.
    destruct (eqb (IsFixedRotation b) flag) eqn:He; [now apply eqb_prop in He|].
    unfold ResetMassData. split.
    + destruct flag; simpl;
        repeat match goal with |- context [if ?c then _ else _] => destruct c end;
        simpl; ring.
    + intros ->. simpl.
      match goal with |- context [if negb ?c then _ else _] => destruct c end; simpl;
        [|reflexivity].
      unfold IsFixedRotation at 1. simpl. rewrite fixed_set_fixed.
      now rewrite andb_false_r.
Qed.

(** [SetFixedRotation] keeps the invariants of a body. *)
Lemma SetFixedRotation_keeps_invariant (flag : bool) (b : Body) :
  BodyInvariant b -> BodyInvariant (SetFixedRotation flag b).
Proof.
  intros Hinv. unfold SetFixedRotation. cbv zeta.
  destruct (eqb (IsFixedRotation b) flag); [assumption|].
  apply ResetMassData_keeps_invariant.
  destruct Hinv as [Hsl Haw Hv Ha Hu Hc].
  destruct flag; constructor; body_flags; auto;
    intros Hs; rewrite (Hv Hs); reflexivity.
Qed.
(** X1. The mutators of a body keep its invariants: [SetVelocity],
    [SetAcceleration], [ResetMassData] and [SetFixedRotation] take a body
    that satisfies them to a body that satisfies them, whatever their
    arguments; [ResetMassData] also clears the mass-data-dirty flag. *)
Theorem Body_mutators_keep_invariant
    (b : Body) (v : Velocity) (lin : Vec2) (ang : R) (flag : bool) :
  BodyInvariant b ->
  BodyInvariant (SetVelocity v b) /\
  BodyInvariant (SetAcceleration GetAngle_of lin ang b) /\
  BodyInvariant (ResetMassData b) /\
  has_flag (m_flags (ResetMassData b)) e_massDataDirtyFlag = false /\
  BodyInvariant (SetFixedRotation flag b).
Proof.
  intros Hinv.
  split; [now apply SetVelocity_keeps_invariant|].
  split; [now apply SetAcceleration_keeps_invariant|].
  split; [now apply ResetMassData_keeps_invariant|].
  split; [now apply ResetMassData_keeps_invariant|].
  now apply SetFixedRotation_keeps_invariant.
Qed.
End BodyInvariantFacts.

(** ** Construction of a body *)

Section BodyConstruction.
Context `{L : FlagLayout}.
Import Math Geometry.
Local Open Scope R_scope.
Variable GetAngle_of : Vec2 -> R.

(** The capability, sleep and awake bits of a derived flag word. *)
Lemma GetFlags_bits (bd : BodyConf) :
  has_flag (GetFlags bd) e_velocityFlag = negb (bool_decide (bc_type bd = Static)) /\
  has_flag (GetFlags bd) e_accelerationFlag = bool_decide (bc_type bd = Dynamic) /\
  has_flag (GetFlags bd) e_autoSleepFlag = bc_allowSleep bd /\
  has_flag (GetFlags bd) e_awakeFlag
  = negb (bool_decide (bc_type bd = Static)) && (bc_awake bd || negb (bc_allowSleep bd)).
Proof.
  unfold GetFlags, GetFlags_type.
  destruct bd as [t loc ang lv av la aa ld ad ut bullet fixedRot allowSleep awake enabled].
  simpl. destruct t, allowSleep, awake; simpl; repeat split; flag_bits; reflexivity.
Qed.

Lemma SetUnderActiveTime_keeps_invariant (value : R) (b : Body) :
  BodyInvariant b -> BodyInvariant (SetUnderActiveTime value b).
Proof.
  intros Hinv. pose proof Hinv as [Hsl Haw Hv Ha Hu Hc]. unfold SetUnderActiveTime.
  destruct (bool_decide (value = 0)) eqn:Hz; simpl.
  - apply bool_decide_eq_true in Hz. subst value. constructor; body_flags; auto.
  - destruct (IsAccelerable b) eqn:Hacc; [|exact Hinv].
    constructor; body_flags; auto; intros; congruence.
Qed.

(** X2. Every body that the constructor makes satisfies the invariants. *)
Theorem Body_ctor_invariant (addr : BodyPtr) (bd : BodyConf) :
  BodyInvariant (Body_ctor GetAngle_of addr bd).
Proof.
  unfold Body_ctor. cbv zeta.
  apply SetUnderActiveTime_keeps_invariant, SetAcceleration_keeps_invariant,
    SetVelocity_keeps_invariant.
  destruct (GetFlags_bits bd) as (Hv & Ha & Hs & Hw).
  constructor; unfold IsSpeedable, IsAccelerable, IsAwake, IsSleepingAllowed; simpl;
    rewrite ?Hv, ?Ha, ?Hs, ?Hw; try (intros; reflexivity); try (intros; split; reflexivity).
  - intros -> ->. now rewrite orb_true_r.
  - intros Hx. apply andb_true_iff in Hx. tauto.
  - intros Ht. apply bool_decide_eq_true in Ht. rewrite Ht. reflexivity.
Qed.

Lemma SetVelocity_awake (v : Velocity) (b : Body) :
  IsAwake (SetVelocity v b) = IsAwake b || (bool_decide (v <> zero_velocity) && IsSpeedable b) /\
  IsSpeedable (SetVelocity v b) = IsSpeedable b /\
  IsAccelerable (SetVelocity v b) = IsAccelerable b /\
  m_linearAcceleration (SetVelocity v b) = m_linearAcceleration b /\
  m_angularAcceleration (SetVelocity v b) = m_angularAcceleration b.
Proof.
  unfold SetVelocity.
  destruct (bool_decide (linear v <> Vec2_zero) || bool_decide (angular v <> 0)) eqn:Hnz.
  - assert (Hv : bool_decide (v <> zero_velocity) = true).
    { apply bool_decide_eq_true. intros ->.
      assert (Hz : bool_decide (linear zero_velocity <> Vec2_zero)
                   || bool_decide (angular zero_velocity <> 0) = false)
        by now apply velocity_nonzero.
      congruence. }
    rewrite Hv. destruct (IsSpeedable b) eqn:Hs; simpl.
    + body_flags. rewrite Hs, orb_true_r. auto.
    + rewrite Hs, orb_false_r. auto.
  - apply velocity_nonzero in Hnz. subst v.
    rewrite bool_decide_false by (intros Hn; now apply Hn).
    simpl. rewrite orb_false_r. body_flags. auto.
Qed.

Lemma magnitude_squared_positive (v : Vec2) :
  v <> Vec2_zero -> GetMagnitudeSquared Vec2_zero < GetMagnitudeSquared v.
Proof.
  intros Hv. destruct v as [x y]. unfold GetMagnitudeSquared, Square, Vec2_zero. simpl.
  destruct (Req_dec_T x 0) as [->|Hx].
  - destruct (Req_dec_T y 0) as [->|Hy]; [now elim Hv|]. nra.
  - nra.
Qed.

Lemma SetAcceleration_awake (lin : Vec2) (ang : R) (b : Body) :
  m_linearAcceleration b = Vec2_zero -> m_angularAcceleration b = 0 ->
  IsAwake (SetAcceleration GetAngle_of lin ang b)
  = IsAwake b || (IsAccelerable b && negb (bool_decide (lin = Vec2_zero /\ ang = 0))).
Proof.
  intros Hl Ha. unfold SetAcceleration. rewrite Hl, Ha.
  destruct (bool_decide (Vec2_zero = lin) && bool_decide (0 = ang)) eqn:Hsame.
  - apply andb_true_iff in Hsame. rewrite !bool_decide_eq_true in Hsame.
    destruct Hsame as [<- <-]. rewrite bool_decide_true by auto.
    simpl. now rewrite andb_false_r, orb_false_r.
  - assert (Hne : ~ (lin = Vec2_zero /\ ang = 0)).
    { intros [-> ->]. rewrite !bool_decide_true in Hsame by reflexivity. discriminate. }
    rewrite (bool_decide_false _ Hne). simpl. rewrite andb_true_r.
    destruct (IsAccelerable b) eqn:Hacc; simpl.
    + assert (Hc : bool_decide (0 < ang)
                   || bool_decide (GetMagnitudeSquared Vec2_zero < GetMagnitudeSquared lin)
                   || bool_decide (GetAngle_of Vec2_zero <> GetAngle_of lin)
                   || negb (eqb (signbit 0) (signbit ang)) = true).
      { unfold signbit. rewrite (bool_decide_false (0 < 0)) by lra.
        destruct (Rtotal_order ang 0) as [Hneg|[Hzero|Hpos]].
        - rewrite (bool_decide_true (ang < 0)) by assumption. simpl. now rewrite orb_true_r.
        - subst ang. assert (lin <> Vec2_zero) by (intros ->; now apply Hne).
          rewrite (bool_decide_true (GetMagnitudeSquared _ < _))
            by now apply magnitude_squared_positive.
          now rewrite orb_true_r.
        - now rewrite (bool_decide_true (0 < ang)) by assumption. }
      rewrite Hc. body_flags. now rewrite orb_true_r.
    + rewrite orb_false_r.
      destruct (bool_decide (lin <> Vec2_zero) || bool_decide (ang <> 0)); reflexivity.
Qed.

(** X3. A constructed body is awake exactly when its type is velocity-capable
    and the configuration asks for an awake body, forbids sleep or gives a
    velocity that is not zero, or when its type is dynamic and the
    configuration gives an acceleration that is not zero. *)
Theorem Body_ctor_awake_iff (addr : BodyPtr) (bd : BodyConf) :
  IsAwake (Body_ctor GetAngle_of addr bd) = true <->
  (bc_type bd <> Static /\
   (bc_awake bd = true \/ bc_allowSleep bd = false \/
    mkVelocity (bc_linearVelocity bd) (bc_angularVelocity bd) <> zero_velocity)) \/
  (bc_type bd = Dynamic /\
   ~ (bc_linearAcceleration bd = Vec2_zero /\ bc_angularAcceleration bd = 0)).
Proof.
  unfold Body_ctor. cbv zeta.
  set (b0 := mkBody _ _ _ _ _ _ _ _ _ _ _ _ _ _).
  set (v := mkVelocity _ _).
  destruct (SetVelocity_awake v b0) as (Hw1 & Hs1 & Ha1 & Hl1 & Hg1).
  assert (Hflags : IsAwake (SetUnderActiveTime (bc_underActiveTime bd)
                              (SetAcceleration GetAngle_of (bc_linearAcceleration bd)
                                 (bc_angularAcceleration bd) (SetVelocity v b0)))
                   = IsAwake (SetAcceleration GetAngle_of (bc_linearAcceleration bd)
                                 (bc_angularAcceleration bd) (SetVelocity v b0))).
  { unfold SetUnderActiveTime.
    match goal with |- context [if ?c then _ else _] => destruct c end; reflexivity. }
  rewrite Hflags.
  rewrite SetAcceleration_awake by (rewrite ?Hl1, ?Hg1; reflexivity).
  rewrite Hw1, Ha1.
  destruct (GetFlags_bits bd) as (Hv & Ha & Hs & Hw).
  unfold IsAwake, IsSpeedable, IsAccelerable, b0. simpl. rewrite Hw, Hv, Ha.
  rewrite !orb_true_iff, !andb_true_iff, !orb_true_iff, !negb_true_iff,
    !bool_decide_eq_true, !bool_decide_eq_false.
  tauto.
Qed.
End BodyConstruction.

(** ** Mass data of a body *)

Section MassDataMore.
Context `{L : FlagLayout}.
Import Math Geometry MassSums.
Local Open Scope R_scope.

Lemma vadd_comm (a b : Vec2) : vadd a b = vadd b a.
Proof. unfold vadd. f_equal; ring. Qed.

Lemma vadd_assoc (a b c : Vec2) : vadd (vadd a b) c = vadd a (vadd b c).
Proof. unfold vadd. simpl. f_equal; ring. Qed.

Lemma vadd_zero_l (a : Vec2) : vadd Vec2_zero a = a.
Proof. destruct a. unfold vadd, Vec2_zero. simpl. f_equal; ring. Qed.

Lemma ComputeMassData_step_comm (acc : MassData) (f1 f2 : Fixture) :
  ComputeMassData_step (ComputeMassData_step acc f1) f2
  = ComputeMassData_step (ComputeMassData_step acc f2) f1.
Proof.
  unfold ComputeMassData_step. repeat case_bool_decide; simpl; try reflexivity.
  f_equal; [ring | | ring].
  rewrite !vadd_assoc. f_equal. apply vadd_comm.
Qed.

Lemma fold_step_permutation (l1 l2 : list Fixture) :
  Permutation l1 l2 ->
  forall acc, fold_left ComputeMassData_step l1 acc = fold_left ComputeMassData_step l2 acc.
Proof.
  induction 1 as [|x k1 k2 Hp IH|x y k|k1 k2 k3 Hp1 IH1 Hp2 IH2]; intros acc; simpl.
  - reflexivity.
  - apply IH.
  - now rewrite ComputeMassData_step_comm.
  - now rewrite IH1.
Qed.

Lemma Legacy_ComputeMassData_eq (lb : Legacy.Body) :
  Legacy.ComputeMassData lb
  = fold_left ComputeMassData_step (Legacy.m_fixtures lb) (mkMassData 0 Vec2_zero 0).
Proof. reflexivity. Qed.

(** X6. The mass data of a body do not depend on the order of its fixtures, in
    either engine. *)
Theorem ComputeMassData_order_irrelevant (b b' : Body) (lb lb' : Legacy.Body) :
  (Permutation (m_fixtures b) (m_fixtures b') -> ComputeMassData b = ComputeMassData b') /\
  (Permutation (Legacy.m_fixtures lb) (Legacy.m_fixtures lb') ->
   Legacy.ComputeMassData lb = Legacy.ComputeMassData lb').
Proof.
  split; intros Hp.
  - unfold ComputeMassData, GetFixtures. now apply fold_step_permutation.
  - rewrite !Legacy_ComputeMassData_eq. now apply fold_step_permutation.
Qed.

Lemma fold_step_sums (l : list Fixture) (acc : MassData) :
  fold_left ComputeMassData_step l acc
  = mkMassData
      (md_mass acc + sum_R (md_mass ∘ GetMassData <$> filter dense l))
      (vadd (md_center acc) (sum_Vec2 (moment <$> filter dense l)))
      (md_I acc + sum_R (md_I ∘ GetMassData <$> filter dense l)).
Proof.
  revert acc. induction l as [|f l IH]; intros acc; simpl.
  - destruct acc as [m [cx cy] i]. unfold vadd, Vec2_zero. simpl.
    f_equal; [ring | f_equal; ring | ring].
  - rewrite IH, filter_cons. unfold ComputeMassData_step.
    destruct (decide (dense f)) as [Hy|Hn].
    + rewrite bool_decide_true by exact Hy. simpl.
      rewrite vadd_assoc.
      f_equal; first [reflexivity | apply Rplus_assoc | symmetry; apply Rplus_assoc].
    + rewrite bool_decide_false by exact Hn. reflexivity.
Qed.

(** X7. The mass data of a body are sums over its fixtures of positive density:
    the masses, the first moments and the rotational inertias; the other
    fixtures contribute nothing. *)
Theorem ComputeMassData_sums_dense_fixtures (b : Body) :
  md_mass (ComputeMassData b) = sum_R (md_mass ∘ GetMassData <$> filter dense (m_fixtures b)) /\
  md_center (ComputeMassData b) = sum_Vec2 (moment <$> filter dense (m_fixtures b)) /\
  md_I (ComputeMassData b) = sum_R (md_I ∘ GetMassData <$> filter dense (m_fixtures b)).
Proof.
  unfold ComputeMassData, GetFixtures. rewrite fold_step_sums. simpl.
  repeat split; try ring. apply vadd_zero_l.
Qed.

Lemma reset_mass_positive (b : Body) : 0 < reset_mass b.
Proof. unfold reset_mass. case_bool_decide; lra. Qed.

(** X8. [ResetMassData] gives an accelerable body a positive inverse mass,
    that of the accumulated mass or of 1 when the accumulated mass is not
    positive, and gives every other body inverse mass 0 and inverse
    rotational inertia 0. *)
Theorem ResetMassData_inverse_mass (b : Body) :
  (IsAccelerable b = true ->
   m_invMass (ResetMassData b) = 1 / reset_mass b /\ 0 < m_invMass (ResetMassData b)) /\
  (IsAccelerable b = false ->
   m_invMass (ResetMassData b) = 0 /\ m_invRotI (ResetMassData b) = 0).
Proof.
  unfold ResetMassData. split; intros ->; simpl.
  - match goal with |- context [if ?c && ?d then _ else _] => destruct (c && d) end;
      simpl; (split; [reflexivity|]);
      apply Rdiv_lt_0_compat; try lra; apply reset_mass_positive.
  - split; reflexivity.
Qed.

Lemma ResetMassData_center (b : Body) :
  IsAccelerable b = true ->
  GetWorldCenter (ResetMassData b) = Transform (reset_localCenter b) (GetTransformation b) /\
  m_velocity (ResetMassData b)
  = mkVelocity
      (vadd (linear (m_velocity b))
            (vscale (angular (m_velocity b))
                    (GetRevPerpendicular
                       (vsub (Transform (reset_localCenter b) (GetTransformation b))
                             (GetWorldCenter b)))))
      (angular (m_velocity b)).
Proof.
  intros Hacc. unfold ResetMassData. rewrite Hacc. simpl.
  match goal with |- context [if ?c && ?d then _ else _] => destruct (c && d) end;
    split; reflexivity.
Qed.

(** X9. [ResetMassData] moves the center of mass of an accelerable body
    without changing the motion of the body: the angular velocity and the
    velocity of every point of the body are what they were. *)
Theorem ResetMassData_keeps_point_velocities (b : Body) (p : Vec2) :
  IsAccelerable b = true ->
  angular (m_velocity (ResetMassData b)) = angular (m_velocity b) /\
  velocity_of_point (ResetMassData b) p = velocity_of_point b p.
Proof.
  intros Hacc. destruct (ResetMassData_center b Hacc) as [Hc Hv].
  unfold velocity_of_point. rewrite Hc, Hv. simpl. split; [reflexivity|].
  unfold vadd, vscale, vsub, GetRevPerpendicular. simpl. f_equal; ring.
Qed.

(** X10. An accelerable body without a fixture of positive density gets the
    mass 1, inverse rotational inertia 0 and its center of mass at its
    location. *)
Theorem ResetMassData_without_dense_fixtures (b : Body) :
  IsAccelerable b = true ->
  Forall (fun fixture => ~ dense fixture) (m_fixtures b) ->
  m_invMass (ResetMassData b) = 1 /\
  m_invRotI (ResetMassData b) = 0 /\
  localCenter (m_sweep (ResetMassData b)) = Vec2_zero /\
  GetWorldCenter (ResetMassData b) = GetLocation b.
Proof.
  intros Hacc Hnone.
  assert (Hmd : ComputeMassData b = mkMassData 0 Vec2_zero 0).
  { unfold ComputeMassData, GetFixtures. rewrite fold_step_sums.
    replace (filter dense (m_fixtures b)) with (@nil Fixture).
    - simpl. unfold vadd, Vec2_zero. simpl. f_equal; [ring | f_equal; ring | ring].
    - symmetry. induction Hnone as [|f l Hf _ IH]; [reflexivity|].
      rewrite filter_cons. destruct (decide (dense f)); [contradiction|assumption]. }
  unfold ResetMassData. rewrite Hacc, Hmd. simpl.
  rewrite !bool_decide_false by lra. simpl.
  unfold GetWorldCenter, GetLocation, Transform, Rotate, vscale, vadd, Vec2_zero. simpl.
  repeat split.
  - field.
  - f_equal; ring.
  - destruct (xf_p (m_xf b)). simpl. f_equal; ring.
Qed.
End MassDataMore.

(** ** The per-step speed limit *)

Section CapMore.
Import Math.
Local Open Scope R_scope.

Lemma vscale_vscale (r h : R) (v : Vec2) : vscale h (vscale r v) = vscale r (vscale h v).
Proof. unfold vscale. simpl. f_equal; ring. Qed.

Lemma Cap_within (velocity : Velocity) (h : R) (conf : MovementConf) :
  ~ GetMagnitudeSquared (vscale h (linear velocity)) > Square (maxTranslation conf) ->
  ~ Rabs (h * angular velocity) > maxRotation conf ->
  Cap velocity h conf = velocity.
Proof.
  intros Hl Ha. unfold Cap. cbv zeta.
  rewrite (bool_decide_false _ Hl). rewrite (bool_decide_false _ Ha). reflexivity.
Qed.

Lemma Cap_bounds (velocity : Velocity) (h : R) (conf : MovementConf) :
  0 <= maxTranslation conf -> 0 <= maxRotation conf ->
  GetMagnitude (vscale h (linear (Cap velocity h conf))) <= maxTranslation conf /\
  Rabs (h * angular (Cap velocity h conf)) <= maxRotation conf.
Proof.
  intros HT HR. unfold Cap.
  set (lsquared := GetMagnitudeSquared (vscale h (linear velocity))).
  assert (Hlin_cut : lsquared > Square (maxTranslation conf) ->
            GetMagnitude (vscale h (vscale (maxTranslation conf / sqrt lsquared)
                                           (linear velocity)))
            <= maxTranslation conf).
  { intros Hgt. rewrite vscale_vscale, GetMagnitude_vscale.
    fold (GetMagnitude (vscale h (linear velocity))).
    unfold GetMagnitude. fold lsquared.
    assert (Hpos : 0 < sqrt lsquared).
    { apply sqrt_lt_R0. unfold Square in Hgt.
      pose proof (Rle_0_sqr (maxTranslation conf)) as Hsq. unfold Rsqr in Hsq. lra. }
    rewrite Rabs_right by (apply Rle_ge, Rmult_le_pos; [assumption|];
                           apply Rlt_le, Rinv_0_lt_compat; assumption).
    unfold Rdiv. rewrite Rmult_assoc, Rinv_l by lra. lra. }
  assert (Hlin_keep : ~ lsquared > Square (maxTranslation conf) ->
            GetMagnitude (vscale h (linear velocity)) <= maxTranslation conf).
  { intros Hle. unfold GetMagnitude. fold lsquared.
    rewrite <- (sqrt_Rsqr (maxTranslation conf)) by assumption.
    apply sqrt_le_1_alt. unfold Rsqr, Square in *. lra. }
  assert (Hang_cut : forall w, Rabs (h * w) > maxRotation conf ->
            Rabs (h * (w * (maxRotation conf / Rabs (h * w)))) <= maxRotation conf).
  { intros w Hgt.
    replace (h * (w * (maxRotation conf / Rabs (h * w))))
      with (h * w * (maxRotation conf / Rabs (h * w))) by ring.
    rewrite Rabs_mult.
    rewrite (Rabs_right (maxRotation conf / Rabs (h * w)))
      by (apply Rle_ge, Rmult_le_pos; [assumption|];
          apply Rlt_le, Rinv_0_lt_compat; lra).
    unfold Rdiv. rewrite <- Rmult_assoc, (Rmult_comm (Rabs (h * w))).
    rewrite Rmult_assoc, Rinv_r by lra. lra. }
  repeat case_bool_decide; simpl in *; split;
    first [now apply Hlin_cut | now apply Hlin_keep | now apply Hang_cut | lra].
Qed.

(** X11. [Cap] returns a velocity whose translation and rotation over the step
    are within the bounds of the configuration, when the bounds are not
    negative. *)
Theorem Cap_respects_bounds (velocity : Velocity) (h : R) (conf : MovementConf) :
  0 <= maxTranslation conf -> 0 <= maxRotation conf ->
  GetMagnitude (vscale h (linear (Cap velocity h conf))) <= maxTranslation conf /\
  Rabs (h * angular (Cap velocity h conf)) <= maxRotation conf.
Proof. exact (Cap_bounds velocity h conf). Qed.

(** X12. Capping a velocity that has been capped for the same step and bounds
    changes nothing. *)
Theorem Cap_idempotent (velocity : Velocity) (h : R) (conf : MovementConf) :
  0 <= maxTranslation conf -> 0 <= maxRotation conf ->
  Cap (Cap velocity h conf) h conf = Cap velocity h conf.
Proof.
  intros HT HR.
  destruct (Cap_bounds velocity h conf HT HR) as [Hl Ha].
  apply Cap_within; [|lra].
  intros Hgt. unfold GetMagnitude in Hl.
  pose proof (GetMagnitudeSquared_nonneg (vscale h (linear (Cap velocity h conf)))) as Hn.
  pose proof (sqrt_pos (GetMagnitudeSquared (vscale h (linear (Cap velocity h conf))))) as Hs.
  rewrite <- (sqrt_sqrt _ Hn) in Hgt. unfold Square in Hgt. nra.
Qed.

Lemma Cap_respects_bounds_witness :
  GetMagnitude (vscale 1 (linear (Cap MoreExamples.fast 1 MoreExamples.tight))) <= 2 /\
  Rabs (1 * angular (Cap MoreExamples.fast 1 MoreExamples.tight)) <= 2.
Proof.
  apply (Cap_respects_bounds MoreExamples.fast 1 MoreExamples.tight); simpl; lra.
Defined.

Lemma Cap_idempotent_witness :
  Cap (Cap MoreExamples.fast 1 MoreExamples.tight) 1 MoreExamples.tight
  = Cap MoreExamples.fast 1 MoreExamples.tight.
Proof.
  apply Cap_idempotent; simpl; lra.
Defined.
End CapMore.

(** ** The contact list of a body *)

Section ContactListFacts.
Variable ContactKey : Type.
Implicit Types (l : KeyedContactPtrs ContactKey) (contact : ContactPtr).

Lemma Erase_contact_split contact l :
  (fst (Erase_contact ContactKey contact l) = false /\
   ~ In contact (map snd l) /\ snd (Erase_contact ContactKey contact l) = l) \/
  (fst (Erase_contact ContactKey contact l) = true /\
   exists l1 key l2,
     l = l1 ++ (key, contact) :: l2 /\ ~ In contact (map snd l1) /\
     snd (Erase_contact ContactKey contact l) = l1 ++ l2).
Proof.
  induction l as [|[key c] rest IH]; simpl.
  - left. auto.
  - case_bool_decide as Hc; simpl in Hc.
    + subst c. right. split; [reflexivity|]. exists [], key, rest. auto.
    + destruct (Erase_contact ContactKey contact rest) as [found rest'] eqn:He.
      simpl in *. destruct IH as [(Hf & Hn & Hr)|(Hf & l1 & k & l2 & Hl & Hn & Hr)].
      * left. split; [assumption|]. split; [|now rewrite Hr].
        intros [Heq|Hin]; auto.
      * right. split; [assumption|]. exists ((key, c) :: l1), k, l2.
        split; [now rewrite Hl|]. split; [|now rewrite Hr].
        simpl. intros [Heq|Hin]; auto.
Qed.

(** X13. [Erase] of a contact reports whether the list has an entry for it; if
    it has, exactly the first such entry is removed, and if it has none
    the list is left as it was. *)
Theorem Erase_contact_removes_first contact l :
  (fst (Erase_contact ContactKey contact l) = true <-> In contact (map snd l)) /\
  (~ In contact (map snd l) -> snd (Erase_contact ContactKey contact l) = l) /\
  (In contact (map snd l) ->
   exists l1 key l2,
     l = l1 ++ (key, contact) :: l2 /\ ~ In contact (map snd l1) /\
     snd (Erase_contact ContactKey contact l) = l1 ++ l2 /\
     S (length (snd (Erase_contact ContactKey contact l))) = length l).
Proof.
  destruct (Erase_contact_split contact l)
    as [(Hf & Hn & Hr)|(Hf & l1 & k & l2 & Hl & Hn & Hr)].
  - rewrite Hf. repeat split; auto; try discriminate; intros Hin; contradiction.
  - assert (Hin : In contact (map snd l)).
    { rewrite Hl, map_app, in_app_iff. right. simpl. auto. }
    rewrite Hf. repeat split; auto; try contradiction.
    intros _. exists l1, k, l2. repeat split; auto.
    rewrite Hr, Hl, !length_app. simpl. lia.
Qed.

Lemma Erase_contact_appended contact key l :
  ~ In contact (map snd l) ->
  Erase_contact ContactKey contact (l ++ [(key, contact)]) = (true, l).
Proof.
  induction l as [|[k c] rest IH]; simpl; intros Hn.
  - now rewrite bool_decide_true.
  - rewrite bool_decide_false by (simpl; intros ->; apply Hn; auto).
    rewrite IH by (intros Hin; apply Hn; auto). reflexivity.
Qed.

(** X14. [Insert] of a contact that the list does not hold succeeds in either
    kind of build, and [Erase] of that contact then gives the list back;
    with assertions on, [Insert] of a contact that the list holds fails,
    so that a list without repeated contacts stays without them. *)
Theorem Insert_contact_then_Erase (NDEBUG : bool) key contact l :
  (~ In contact (map snd l) ->
   Insert_contact ContactKey NDEBUG key contact l = Some (true, l ++ [(key, contact)]) /\
   Erase_contact ContactKey contact (l ++ [(key, contact)]) = (true, l)) /\
  (In contact (map snd l) -> Insert_contact ContactKey false key contact l = None) /\
  (forall l', NoDup (map snd l) ->
              Insert_contact ContactKey false key contact l = Some (true, l') ->
              NoDup (map snd l')).
Proof.
  assert (Hex : existsb (fun ci : ContactKey * ContactPtr => bool_decide (snd ci = contact)) l
                = true <-> In contact (map snd l)).
  { rewrite existsb_exists, in_map_iff. split.
    - intros (ci & Hin & Hc). apply bool_decide_eq_true in Hc. eauto.
    - intros (ci & Hc & Hin). exists ci. split; [assumption|]. now apply bool_decide_eq_true. }
  unfold Insert_contact. split; [|split].
  - intros Hn. split; [|now apply Erase_contact_appended].
    rewrite <- Hex in Hn. apply not_true_iff_false in Hn.
    now rewrite Hn, andb_false_r.
  - intros Hin. apply Hex in Hin. now rewrite Hin.
  - intros l' Hnd. simpl.
    destruct (existsb (fun ci : ContactKey * ContactPtr => bool_decide (snd ci = contact)) l)
      eqn:He in |- *; [discriminate|].
    intros [= <-]. rewrite map_app. simpl.
    apply NoDup_app. split; [assumption|]. split; [|apply NoDup_singleton].
    intros x Hx Hx1. apply list_elem_of_In in Hx. apply list_elem_of_singleton in Hx1.
    subst x. apply Hex in Hx. congruence.
Qed.
End ContactListFacts.

(** ** Rope joint: what an iteration does to the constraint *)

Section RopeMoreFacts.
Import Math Geometry Rope RopeQuantities RopeMore.
Local Open Scope R_scope.

Lemma BodyConstraint_SetVelocity_same (c : BodyConstraint) (v : Velocity) :
  v = bcn_velocity c -> BodyConstraint_SetVelocity v c = c.
Proof. intros ->. now destruct c. Qed.

Lemma BodyConstraint_SetPosition_same (c : BodyConstraint) (p : Position) :
  p = bcn_position c -> BodyConstraint_SetPosition p c = c.
Proof. intros ->. now destruct c. Qed.

Lemma alter_same (f : BodyConstraint -> BodyConstraint) (k : N)
    (bodies : gmap N BodyConstraint) (c : BodyConstraint) :
  bodies !! k = Some c -> f c = c -> alter f k bodies = bodies.
Proof.
  intros Hk Hf. apply map_eq. intros i. destruct (decide (k = i)) as [<-|Hne].
  - rewrite lookup_alter_eq, Hk. simpl. now rewrite Hf.
  - now rewrite lookup_alter_ne.
Qed.

(** The result of [SolveVelocityConstraints], written out. *)
Lemma SolveVelocityConstraints_result
    (j : RopeJoint) (bodies : gmap N BodyConstraint) (step : StepConf)
    (bodiesA bodiesB : BodyConstraint) :
  bodies !! rj_bodyA j = Some bodiesA ->
  bodies !! rj_bodyB j = Some bodiesB ->
  let velA := bcn_velocity bodiesA in
  let velB := bcn_velocity bodiesB in
  let accumulated := Min 0 (m_impulse j + raw_impulse j step velA velB) in
  let applied := accumulated - m_impulse j in
  SolveVelocityConstraints j bodies step
  = Some (applied, set_m_impulse accumulated j,
          alter (BodyConstraint_SetVelocity
                   (velocity_add velB (impulse_response j (m_rB j) bodiesB applied)))
                (rj_bodyB j)
                (alter (BodyConstraint_SetVelocity
                          (velocity_sub velA (impulse_response j (m_rA j) bodiesA applied)))
                       (rj_bodyA j) bodies)).
Proof.
  intros HA HB velA velB accumulated applied.
  assert (Hraw : (- m_mass j) * Cdot_of j step velA velB = raw_impulse j step velA velB)
    by (unfold raw_impulse; ring).
  unfold SolveVelocityConstraints. rewrite HA, HB. cbv zeta.
  fold velA velB. rewrite Hraw. reflexivity.
Qed.

(** The constraint velocity after an impulse [a] has been applied to both
    bodies is the one before plus [a] times the inverse effective mass. *)
Lemma Cdot_after_impulse (j : RopeJoint) (step : StepConf)
    (bodiesA bodiesB : BodyConstraint) (a : R) :
  Cdot_of j step
    (velocity_sub (bcn_velocity bodiesA) (impulse_response j (m_rA j) bodiesA a))
    (velocity_add (bcn_velocity bodiesB) (impulse_response j (m_rB j) bodiesB a))
  = Cdot_of j step (bcn_velocity bodiesA) (bcn_velocity bodiesB)
    + a * inverse_effective_mass j bodiesA bodiesB.
Proof.
  unfold Cdot_of, inverse_effective_mass, impulse_response, velocity_sub, velocity_add,
    Dot, Cross, GetRevPerpendicular, GetMagnitudeSquared, Square, vadd, vsub, vscale, uv_vec.
  simpl. case_bool_decide; ring.
Qed.

Lemma Cdot_of_set_m_impulse (j : RopeJoint) (x : R) (step : StepConf) (vA vB : Velocity) :
  Cdot_of (set_m_impulse x j) step vA vB = Cdot_of j step vA vB.
Proof. reflexivity. Qed.

(** X15. With the effective mass that belongs to the two bodies, an iteration
    of [SolveVelocityConstraints] leaves a constraint velocity that is not
    positive, and that is zero when the accumulated impulse is not
    clamped. *)
Theorem SolveVelocityConstraints_stops_separation
    (j : RopeJoint) (bodies : gmap N BodyConstraint) (step : StepConf)
    (bodiesA bodiesB : BodyConstraint) :
  bodies !! rj_bodyA j = Some bodiesA ->
  bodies !! rj_bodyB j = Some bodiesB ->
  rj_bodyA j <> rj_bodyB j ->
  0 < m_mass j ->
  m_mass j * inverse_effective_mass j bodiesA bodiesB = 1 ->
  exists (ret : R) (j' : RopeJoint) (bodies' : gmap N BodyConstraint)
         (bodiesA' bodiesB' : BodyConstraint),
    SolveVelocityConstraints j bodies step = Some (ret, j', bodies') /\
    bodies' !! rj_bodyA j = Some bodiesA' /\
    bodies' !! rj_bodyB j = Some bodiesB' /\
    Cdot_of j' step (bcn_velocity bodiesA') (bcn_velocity bodiesB') <= 0 /\
    (m_impulse j + raw_impulse j step (bcn_velocity bodiesA) (bcn_velocity bodiesB) <= 0 ->
     Cdot_of j' step (bcn_velocity bodiesA') (bcn_velocity bodiesB') = 0).
Proof.
  intros HA HB Hne Hm HK.
  pose proof (SolveVelocityConstraints_result j bodies step bodiesA bodiesB HA HB) as Hres.
  cbv zeta in Hres.
  set (Cdot := Cdot_of j step (bcn_velocity bodiesA) (bcn_velocity bodiesB)) in *.
  set (K := inverse_effective_mass j bodiesA bodiesB) in *.
  set (acc := Min 0 _) in Hres.
  set (applied := acc - m_impulse j) in Hres.
  do 3 eexists.
  exists (BodyConstraint_SetVelocity
            (velocity_sub (bcn_velocity bodiesA) (impulse_response j (m_rA j) bodiesA applied))
            bodiesA),
         (BodyConstraint_SetVelocity
            (velocity_add (bcn_velocity bodiesB) (impulse_response j (m_rB j) bodiesB applied))
            bodiesB).
  split; [exact Hres|].
  split.
  { rewrite lookup_alter_ne by (apply not_eq_sym; assumption).
    now rewrite lookup_alter_eq, HA. }
  split.
  { rewrite lookup_alter_eq, lookup_alter_ne by assumption. now rewrite HB. }
  simpl bcn_velocity. rewrite Cdot_of_set_m_impulse, Cdot_after_impulse.
  fold Cdot K.
  assert (HKpos : 0 < K).
  { destruct (Rle_or_lt K 0) as [Hle|Hlt]; [|assumption]. nra. }
  assert (Hraw : raw_impulse j step (bcn_velocity bodiesA) (bcn_velocity bodiesB)
                 = - (m_mass j * Cdot)) by reflexivity.
  subst applied acc. rewrite Hraw. unfold Min. case_bool_decide as Hclamp.
  - assert (HmK : m_mass j * Cdot * K = Cdot).
    { replace (m_mass j * Cdot * K) with (Cdot * (m_mass j * K)) by ring.
      rewrite HK. ring. }
    pose proof (Rmult_lt_0_compat _ _ Hclamp HKpos) as Hprod.
    replace ((m_impulse j + - (m_mass j * Cdot)) * K)
      with (m_impulse j * K - m_mass j * Cdot * K) in Hprod by ring.
    rewrite HmK in Hprod.
    split; [lra|]. intros Hle. lra.
  - assert (Heq : Cdot + (m_impulse j + - (m_mass j * Cdot) - m_impulse j) * K = 0).
    { replace (Cdot + (m_impulse j + - (m_mass j * Cdot) - m_impulse j) * K)
        with (Cdot * (1 - m_mass j * K)) by ring.
      rewrite HK. ring. }
    rewrite Heq. split; [lra|reflexivity].
Qed.

(** X16. An iteration of [SolveVelocityConstraints] keeps the linear momentum
    of two distinct bodies of finite mass: what one body gains the other
    loses. *)
Theorem SolveVelocityConstraints_conserves_momentum
    (j : RopeJoint) (bodies : gmap N BodyConstraint) (step : StepConf)
    (bodiesA bodiesB : BodyConstraint) :
  bodies !! rj_bodyA j = Some bodiesA ->
  bodies !! rj_bodyB j = Some bodiesB ->
  rj_bodyA j <> rj_bodyB j ->
  bcn_invMass bodiesA <> 0 -> bcn_invMass bodiesB <> 0 ->
  exists (ret : R) (j' : RopeJoint) (bodies' : gmap N BodyConstraint)
         (bodiesA' bodiesB' : BodyConstraint),
    SolveVelocityConstraints j bodies step = Some (ret, j', bodies') /\
    bodies' !! rj_bodyA j = Some bodiesA' /\
    bodies' !! rj_bodyB j = Some bodiesB' /\
    linear_momentum bodiesA' bodiesB' = linear_momentum bodiesA bodiesB.
Proof.
  intros HA HB Hne HmA HmB.
  pose proof (SolveVelocityConstraints_result j bodies step bodiesA bodiesB HA HB) as Hres.
  cbv zeta in Hres.
  set (acc := Min 0 _) in Hres.
  set (applied := acc - m_impulse j) in Hres.
  do 3 eexists.
  exists (BodyConstraint_SetVelocity
            (velocity_sub (bcn_velocity bodiesA) (impulse_response j (m_rA j) bodiesA applied))
            bodiesA),
         (BodyConstraint_SetVelocity
            (velocity_add (bcn_velocity bodiesB) (impulse_response j (m_rB j) bodiesB applied))
            bodiesB).
  split; [exact Hres|].
  split.
  { rewrite lookup_alter_ne by (apply not_eq_sym; assumption).
    now rewrite lookup_alter_eq, HA. }
  split.
  { rewrite lookup_alter_eq, lookup_alter_ne by assumption. now rewrite HB. }
  unfold linear_momentum, impulse_response, velocity_sub, velocity_add, vadd, vsub, vscale.
  simpl. f_equal; field; split; assumption.
Qed.

(** X17. A rope without accumulated impulse whose anchors are not separating
    does nothing in an iteration: the joint and the body constraints are
    left as they were, and the impulse returned is zero. *)
Theorem SolveVelocityConstraints_idle
    (j : RopeJoint) (bodies : gmap N BodyConstraint) (step : StepConf)
    (bodiesA bodiesB : BodyConstraint) :
  bodies !! rj_bodyA j = Some bodiesA ->
  bodies !! rj_bodyB j = Some bodiesB ->
  m_impulse j = 0 ->
  m_mass j * Cdot_of j step (bcn_velocity bodiesA) (bcn_velocity bodiesB) <= 0 ->
  SolveVelocityConstraints j bodies step = Some (0, j, bodies).
Proof.
  intros HA HB Hzero Hslack.
  rewrite (SolveVelocityConstraints_result j bodies step bodiesA bodiesB HA HB).
  cbv zeta.
  assert (Hacc : Min 0 (m_impulse j + raw_impulse j step (bcn_velocity bodiesA)
                                        (bcn_velocity bodiesB)) = 0).
  { unfold Min, raw_impulse. case_bool_decide; lra. }
  rewrite Hacc, Hzero. replace (0 - 0) with 0 by ring.
  assert (HrA : velocity_sub (bcn_velocity bodiesA) (impulse_response j (m_rA j) bodiesA 0)
                = bcn_velocity bodiesA).
  { destruct (bcn_velocity bodiesA) as [[x y] w].
    unfold velocity_sub, impulse_response, vsub, vscale, Cross. simpl.
    f_equal; [f_equal|]; ring. }
  assert (HrB : velocity_add (bcn_velocity bodiesB) (impulse_response j (m_rB j) bodiesB 0)
                = bcn_velocity bodiesB).
  { destruct (bcn_velocity bodiesB) as [[x y] w].
    unfold velocity_add, impulse_response, vadd, vscale, Cross. simpl.
    f_equal; [f_equal|]; ring. }
  rewrite HrA, HrB.
  rewrite (alter_same _ (rj_bodyA j) bodies bodiesA HA)
    by now apply BodyConstraint_SetVelocity_same.
  rewrite (alter_same _ (rj_bodyB j) bodies bodiesB HB)
    by now apply BodyConstraint_SetVelocity_same.
  do 3 f_equal. destruct j. simpl in *. now subst.
Qed.

(** X18. After an iteration the reaction force of the rope never points along
    the rope direction, for an inverse time step that is not negative: a
    rope pulls and does not push. Its reaction torque is zero. *)
Theorem GetReactionForce_pulls
    (j : RopeJoint) (bodies : gmap N BodyConstraint) (step : StepConf)
    (ret : R) (j' : RopeJoint) (bodies' : gmap N BodyConstraint) (inv_dt : R) :
  SolveVelocityConstraints j bodies step = Some (ret, j', bodies') ->
  0 <= inv_dt ->
  Dot (GetReactionForce j' inv_dt) (uv_vec (m_u j')) <= 0 /\
  GetReactionTorque j' inv_dt = 0.
Proof.
  intros Hs Hdt. split; [|reflexivity].
  unfold SolveVelocityConstraints in Hs.
  destruct (bodies !! rj_bodyA j) as [bodiesA|]; [|discriminate].
  destruct (bodies !! rj_bodyB j) as [bodiesB|]; [|discriminate].
  cbv zeta in Hs. injection Hs as _ <- _.
  unfold GetReactionForce, Dot, vscale. simpl.
  set (x := m_impulse j + _).
  assert (Hle : Min 0 x <= 0) by (unfold Min; case_bool_decide; lra).
  set (ux := uvX (m_u j)). set (uy := uvY (m_u j)).
  replace (inv_dt * Min 0 x * ux * ux + inv_dt * Min 0 x * uy * uy)
    with (inv_dt * Min 0 x * (ux * ux + uy * uy)) by ring.
  assert (0 <= ux * ux + uy * uy) by nra.
  assert (inv_dt * Min 0 x <= 0) by nra.
  nra.
Qed.
End RopeMoreFacts.

(** ** Rope joint: initialisation and position correction *)

Section RopeInitFacts.
Import Math Geometry Rope RopeQuantities RopeMore.
Local Open Scope R_scope.
Variable GetUnitVector : Vec2 -> UnitVec * R.

(** X19. [InitVelocityConstraints] on a joint whose bodies are among the body
    constraints returns. The joint then holds the length that
    [GetUnitVector] reports for the separation of the anchors, and is at
    its upper limit exactly when that length exceeds the maximum length.
    When the length is not above the linear slop the joint goes inert
    (zero direction, mass and impulse) and no body is touched; when it is
    and warm starting is off, the accumulated impulse is reset to zero and
    no body is touched. *)
Theorem InitVelocityConstraints_limit_state
    (j : RopeJoint) (bodies : gmap N BodyConstraint) (step : StepConf)
    (conf : ConstraintSolverConf) (bodiesA bodiesB : BodyConstraint) :
  bodies !! rj_bodyA j = Some bodiesA ->
  bodies !! rj_bodyB j = Some bodiesB ->
  exists (j' : RopeJoint) (bodies' : gmap N BodyConstraint),
    InitVelocityConstraints GetUnitVector j bodies step conf = Some (j', bodies') /\
    m_length j' = snd (GetUnitVector (separation j bodiesA bodiesB)) /\
    m_maxLength j' = m_maxLength j /\
    (m_state j' = e_atUpperLimit <-> m_length j' > m_maxLength j') /\
    (m_state j' = e_inactiveLimit <-> ~ m_length j' > m_maxLength j') /\
    (~ m_length j' > linearSlop conf ->
     m_u j' = UnitVec2_GetZero /\ m_mass j' = 0 /\ m_impulse j' = 0 /\ bodies' = bodies) /\
    (m_length j' > linearSlop conf -> doWarmStart step = false ->
     m_impulse j' = 0 /\ bodies' = bodies).
Proof.
  intros HA HB. unfold InitVelocityConstraints. rewrite HA, HB. cbv zeta.
  change (vsub (vadd (p_linear (bcn_position bodiesB)) _) _)
    with (separation j bodiesA bodiesB).
  destruct (GetUnitVector (separation j bodiesA bodiesB)) as [uv len] eqn:HG.
  set (st := if bool_decide (len - m_maxLength j > 0)
             then e_atUpperLimit else e_inactiveLimit).
  assert (Hstate : (st = e_atUpperLimit <-> len > m_maxLength j) /\
                   (st = e_inactiveLimit <-> ~ len > m_maxLength j)).
  { subst st. case_bool_decide as Hc; split; split; intros Hx;
      first [reflexivity | discriminate | lra | (exfalso; lra) | (exfalso; apply Hx; lra)]. }
  destruct Hstate as [H1 H2]. clearbody st.
  assert (Hsame : alter (BodyConstraint_SetVelocity (bcn_velocity bodiesB)) (rj_bodyB j)
                    (alter (BodyConstraint_SetVelocity (bcn_velocity bodiesA)) (rj_bodyA j)
                       bodies) = bodies).
  { rewrite (alter_same _ (rj_bodyA j) bodies bodiesA HA)
      by now apply BodyConstraint_SetVelocity_same.
    now rewrite (alter_same _ (rj_bodyB j) bodies bodiesB HB)
      by now apply BodyConstraint_SetVelocity_same. }
  destruct (decide (len > linearSlop conf)) as [Hslop|Hslop].
  - rewrite (bool_decide_true _ Hslop).
    destruct (doWarmStart step) eqn:Hwarm.
    + eexists _, _. split; [reflexivity|]. simpl.
      repeat split; try apply H1; try apply H2; try contradiction; try discriminate.
    + eexists _, _. split; [reflexivity|]. simpl.
      repeat split; try apply H1; try apply H2; try contradiction; try exact Hsame.
  - rewrite (bool_decide_false _ Hslop).
    eexists _, _. split; [reflexivity|]. simpl.
    repeat split; try apply H1; try apply H2; try contradiction.
Qed.

(** X20. When the length is above the linear slop, the direction that
    [GetUnitVector] reports is of unit magnitude and the inverse effective
    mass of the two bodies along it is not zero, the mass that
    [InitVelocityConstraints] stores is its reciprocal. *)
Theorem InitVelocityConstraints_effective_mass
    (j : RopeJoint) (bodies : gmap N BodyConstraint) (step : StepConf)
    (conf : ConstraintSolverConf) (bodiesA bodiesB : BodyConstraint)
    (j' : RopeJoint) (bodies' : gmap N BodyConstraint) :
  bodies !! rj_bodyA j = Some bodiesA ->
  bodies !! rj_bodyB j = Some bodiesB ->
  InitVelocityConstraints GetUnitVector j bodies step conf = Some (j', bodies') ->
  m_length j' > linearSlop conf ->
  GetMagnitudeSquared (uv_vec (fst (GetUnitVector (separation j bodiesA bodiesB)))) = 1 ->
  inverse_effective_mass j' bodiesA bodiesB <> 0 ->
  m_u j' = fst (GetUnitVector (separation j bodiesA bodiesB)) /\
  m_mass j' * inverse_effective_mass j' bodiesA bodiesB = 1.
Proof.
  intros HA HB. unfold InitVelocityConstraints. rewrite HA, HB. cbv zeta.
  change (vsub (vadd (p_linear (bcn_position bodiesB)) _) _)
    with (separation j bodiesA bodiesB).
  destruct (GetUnitVector (separation j bodiesA bodiesB)) as [uv len] eqn:HG.
  simpl fst.
  destruct (decide (len > linearSlop conf)) as [Hslop|Hslop];
    [rewrite (bool_decide_true _ Hslop)|rewrite (bool_decide_false _ Hslop)].
  - assert (Hgoal : forall imp st,
              let jj := mkRopeJoint (rj_bodyA j) (rj_bodyB j) (m_localAnchorA j)
                          (m_localAnchorB j) (m_maxLength j) len imp
                          (world_offset (m_localAnchorA j) bodiesA)
                          (world_offset (m_localAnchorB j) bodiesB) uv
                          (if bool_decide
                                (bcn_invMass bodiesA + bcn_invMass bodiesB
                                 + bcn_invRotInertia bodiesA
                                   * Square (Cross (world_offset (m_localAnchorA j) bodiesA)
                                                   (uv_vec uv))
                                 + bcn_invRotInertia bodiesB
                                   * Square (Cross (world_offset (m_localAnchorB j) bodiesB)
                                                   (uv_vec uv)) <> 0)
                           then 1 / (bcn_invMass bodiesA + bcn_invMass bodiesB
                                     + bcn_invRotInertia bodiesA
                                       * Square (Cross (world_offset (m_localAnchorA j) bodiesA)
                                                       (uv_vec uv))
                                     + bcn_invRotInertia bodiesB
                                       * Square (Cross (world_offset (m_localAnchorB j) bodiesB)
                                                       (uv_vec uv)))
                           else 0) st in
              GetMagnitudeSquared (uv_vec uv) = 1 ->
              inverse_effective_mass jj bodiesA bodiesB <> 0 ->
              m_u jj = uv /\ m_mass jj * inverse_effective_mass jj bodiesA bodiesB = 1).
    { intros imp st jj Hunit HK. split; [reflexivity|].
      unfold inverse_effective_mass in *. subst jj. simpl in *. rewrite Hunit in *.
      rewrite Rmult_1_r in *.
      rewrite bool_decide_true by exact HK. field. exact HK. }
    destruct (doWarmStart step); intros [= <- _] _; apply Hgoal.
  - intros [= <- _]. simpl. intros Hlen. contradiction.
Qed.

(** X21. When the rope is not longer than its maximum length, the linear slop
    is positive and the largest correction is not negative,
    [SolvePositionConstraints] moves no body and reports that the
    constraint is satisfied. *)
Theorem SolvePositionConstraints_slack
    (j : RopeJoint) (bodies : gmap N BodyConstraint) (conf : ConstraintSolverConf)
    (bodiesA bodiesB : BodyConstraint) :
  bodies !! rj_bodyA j = Some bodiesA ->
  bodies !! rj_bodyB j = Some bodiesB ->
  snd (GetUnitVector (separation j bodiesA bodiesB)) <= m_maxLength j ->
  0 < linearSlop conf -> 0 <= maxLinearCorrection conf ->
  SolvePositionConstraints GetUnitVector j bodies conf = Some (true, bodies).
Proof.
  intros HA HB Hlen Hslop Hmax. unfold SolvePositionConstraints. rewrite HA, HB. cbv zeta.
  change (vsub (vadd (p_linear (bcn_position bodiesB)) _) _)
    with (separation j bodiesA bodiesB).
  destruct (GetUnitVector (separation j bodiesA bodiesB)) as [u len] eqn:HG.
  simpl in Hlen.
  assert (HC : Clamp (len - m_maxLength j) 0 (maxLinearCorrection conf) = 0).
  { unfold Clamp, Max, Min. repeat case_bool_decide; lra. }
  rewrite HC. rewrite bool_decide_true by lra.
  assert (HpA : forall r,
             position_sub (bcn_position bodiesA)
               (mkPosition (vscale (bcn_invMass bodiesA) (vscale (- m_mass j * 0) (uv_vec u)))
                           (bcn_invRotInertia bodiesA
                            * Cross r (vscale (- m_mass j * 0) (uv_vec u))))
             = bcn_position bodiesA).
  { intros r. destruct (bcn_position bodiesA) as [[x y] a].
    unfold position_sub, vsub, vscale, Cross. simpl. f_equal; [f_equal|]; ring. }
  assert (HpB : forall r,
             position_add (bcn_position bodiesB)
               (mkPosition (vscale (bcn_invMass bodiesB) (vscale (- m_mass j * 0) (uv_vec u)))
                           (bcn_invRotInertia bodiesB
                            * Cross r (vscale (- m_mass j * 0) (uv_vec u))))
             = bcn_position bodiesB).
  { intros r. destruct (bcn_position bodiesB) as [[x y] a].
    unfold position_add, vadd, vscale, Cross. simpl. f_equal; [f_equal|]; ring. }
  rewrite HpA, HpB.
  rewrite (alter_same _ (rj_bodyA j) bodies bodiesA HA)
    by now apply BodyConstraint_SetPosition_same.
  rewrite (alter_same _ (rj_bodyB j) bodies bodiesB HB)
    by now apply BodyConstraint_SetPosition_same.
  reflexivity.
Qed.
End RopeInitFacts.

(** ** Chain shapes: creation, children, clones *)

Section ChainMoreFacts.
Import Math.
Local Open Scope R_scope.
Variable b2_linearSlop : R.

Lemma spacing_loop_spec (vertices : list Vec2) (fuel i : nat) :
  (1 <= i)%nat -> (i + fuel <= length vertices)%nat ->
  spacing_loop b2_linearSlop vertices i fuel = true <->
  (forall (k : nat) (a b : Vec2),
      (i <= S k)%nat -> (S k < i + fuel)%nat ->
      vertices !! k = Some a -> vertices !! S k = Some b ->
      b2DistanceSquared a b > Square b2_linearSlop).
Proof.
  revert i. induction fuel as [|fuel IH]; intros i Hi Hlen; simpl.
  - split; [|reflexivity]. intros _ k a b H1 H2. lia.
  - destruct (lookup_lt_is_Some_2 vertices (i - 1)) as [a Ha]; [lia|].
    destruct (lookup_lt_is_Some_2 vertices i) as [b Hb]; [lia|].
    rewrite Ha, Hb, andb_true_iff, bool_decide_eq_true, (IH (S i)) by lia.
    split.
    + intros [Hab Hrest] k a' b' H1 H2 Hka Hkb.
      destruct (decide (S k = i)) as [Hk|Hk].
      * assert (k = (i - 1)%nat) by lia. subst k.
        replace (S (i - 1)) with i in Hkb by lia. congruence.
      * apply (Hrest k); [lia|lia|assumption|assumption].
    + intros Hall. split.
      * apply (Hall (i - 1)%nat); [lia|lia|assumption|].
        now replace (S (i - 1)) with i by lia.
      * intros k a' b' H1 H2. apply Hall; lia.
Qed.

Lemma spaced_spacing_loop (vertices : list Vec2) (count : nat) :
  (1 <= count <= length vertices)%nat ->
  spacing_loop b2_linearSlop vertices 1 (count - 1) = true <->
  spaced b2_linearSlop vertices count.
Proof.
  intros Hc. rewrite spacing_loop_spec by lia. unfold spaced. split.
  - intros H k a b Hk. apply H; lia.
  - intros H k a b _ Hk. apply H. lia.
Qed.

Lemma memcpy_fresh (vertices : list Vec2) (count m : nat) :
  (count <= length vertices)%nat -> (count <= m)%nat ->
  memcpy (replicate m (None : cell)) vertices count
  = Some ((Some <$> take count vertices) ++ replicate (m - count) (None : cell)).
Proof.
  intros Hc Hm. unfold memcpy.
  rewrite decide_True by (rewrite length_replicate; lia).
  now rewrite drop_replicate.
Qed.

Lemma no_vertices_guard (s : b2ChainShape) :
  bool_decide (m_vertices s = None) && bool_decide (m_count s = 0%nat) = true <->
  no_vertices s.
Proof.
  unfold no_vertices. now rewrite andb_true_iff, !bool_decide_eq_true.
Qed.

(** The chain that [CreateChain] makes of the first [count] vertices. *)
Lemma CreateChain_value (vertices : list Vec2) (count : nat) (s : b2ChainShape) :
  (count <= length vertices)%nat ->
  no_vertices s -> (2 <= count)%nat -> spaced b2_linearSlop vertices count ->
  CreateChain b2_linearSlop vertices count s
  = Some (mkChainShape (Some (Some <$> take count vertices)) count Vec2_zero Vec2_zero
                       false false).
Proof.
  intros Hlen Hs Hc Hsp. unfold CreateChain.
  rewrite (proj2 (no_vertices_guard s) Hs), (bool_decide_true _ Hc).
  rewrite (proj2 (spaced_spacing_loop vertices count ltac:(lia)) Hsp). simpl.
  rewrite memcpy_fresh by lia. simpl.
  now rewrite Nat.sub_diag, app_nil_r.
Qed.

Lemma CreateChain_Some (vertices : list Vec2) (count : nat) (s s' : b2ChainShape) :
  (count <= length vertices)%nat ->
  CreateChain b2_linearSlop vertices count s = Some s' ->
  no_vertices s /\ (2 <= count)%nat /\ spaced b2_linearSlop vertices count.
Proof.
  intros Hlen. unfold CreateChain.
  destruct (bool_decide (m_vertices s = None) && bool_decide (m_count s = 0%nat)) eqn:Hs;
    [simpl|discriminate].
  apply no_vertices_guard in Hs.
  destruct (decide (2 <= count)%nat) as [Hc|Hc];
    [rewrite (bool_decide_true _ Hc)|rewrite (bool_decide_false _ Hc); discriminate].
  simpl.
  destruct (spacing_loop b2_linearSlop vertices 1 (count - 1)) eqn:Hsp; [simpl|discriminate].
  intros _. split; [assumption|]. split; [assumption|].
  apply spaced_spacing_loop; [lia|assumption].
Qed.

(** The loop that [CreateLoop] makes of the first [count] vertices. *)
Lemma CreateLoop_value (vertices : list Vec2) (count : nat) (s : b2ChainShape)
    (v0 v1 vl : Vec2) :
  (count <= length vertices)%nat ->
  no_vertices s -> (3 <= count)%nat -> spaced b2_linearSlop vertices count ->
  vertices !! 0%nat = Some v0 -> vertices !! 1%nat = Some v1 ->
  vertices !! (count - 1)%nat = Some vl ->
  CreateLoop b2_linearSlop vertices count s
  = Some (mkChainShape (Some ((Some <$> take count vertices) ++ [Some v0])) (count + 1)
                       vl v1 true true).
Proof.
  intros Hlen Hs Hc Hsp H0 H1 Hl. unfold CreateLoop.
  rewrite (proj2 (no_vertices_guard s) Hs), (bool_decide_true _ Hc).
  rewrite (proj2 (spaced_spacing_loop vertices count ltac:(lia)) Hsp). simpl.
  rewrite memcpy_fresh by lia. simpl.
  replace (count + 1 - count)%nat with 1%nat by lia.
  replace (count + 1 - 2)%nat with (count - 1)%nat by lia.
  assert (Ht : forall k v, (k < count)%nat -> vertices !! k = Some v ->
                           take count vertices !! k = Some v).
  { intros k v Hk Hv. now rewrite lookup_take_lt. }
  rewrite (read_app_l _ _ _ _ (Ht 0%nat v0 ltac:(lia) H0)). simpl.
  rewrite insert_app_r_alt by (rewrite length_fmap, length_take; lia).
  rewrite length_fmap, length_take.
  replace (count - count `min` length vertices)%nat with 0%nat by lia. simpl.
  rewrite (read_app_l _ _ _ _ (Ht (count - 1)%nat vl ltac:(lia) Hl)). simpl.
  rewrite (read_app_l _ _ _ _ (Ht 1%nat v1 ltac:(lia) H1)). reflexivity.
Qed.

Lemma CreateLoop_Some (vertices : list Vec2) (count : nat) (s s' : b2ChainShape) :
  (count <= length vertices)%nat ->
  CreateLoop b2_linearSlop vertices count s = Some s' ->
  no_vertices s /\ (3 <= count)%nat /\ spaced b2_linearSlop vertices count.
Proof.
  intros Hlen. unfold CreateLoop.
  destruct (bool_decide (m_vertices s = None) && bool_decide (m_count s = 0%nat)) eqn:Hs;
    [simpl|discriminate].
  apply no_vertices_guard in Hs.
  destruct (decide (3 <= count)%nat) as [Hc|Hc];
    [rewrite (bool_decide_true _ Hc)|rewrite (bool_decide_false _ Hc); discriminate].
  simpl.
  destruct (spacing_loop b2_linearSlop vertices 1 (count - 1)) eqn:Hsp; [simpl|discriminate].
  intros _. split; [assumption|]. split; [assumption|].
  apply spaced_spacing_loop; [lia|assumption].
Qed.

(** X22. [CreateLoop] on [count] vertices of an array succeeds exactly when the
    shape has no vertices, [count] is at least 3 and consecutive vertices
    are further apart than the linear slop; [CreateChain] exactly when the
    shape has no vertices, [count] is at least 2 and the vertices are so
    spaced. Otherwise an assertion fails. *)
Theorem Create_succeeds_iff (vertices : list Vec2) (count : nat) (s : b2ChainShape) :
  (count <= length vertices)%nat ->
  (is_Some (CreateLoop b2_linearSlop vertices count s) <->
   no_vertices s /\ (3 <= count)%nat /\ spaced b2_linearSlop vertices count) /\
  (is_Some (CreateChain b2_linearSlop vertices count s) <->
   no_vertices s /\ (2 <= count)%nat /\ spaced b2_linearSlop vertices count).
Proof.
  intros Hlen. split; split.
  - intros [s' Hs']. now apply (CreateLoop_Some vertices count s s').
  - intros (Hs & Hc & Hsp).
    destruct (lookup_lt_is_Some_2 vertices 0) as [v0 H0]; [lia|].
    destruct (lookup_lt_is_Some_2 vertices 1) as [v1 H1]; [lia|].
    destruct (lookup_lt_is_Some_2 vertices (count - 1)) as [vl Hl]; [lia|].
    rewrite (CreateLoop_value vertices count s v0 v1 vl) by assumption. eauto.
  - intros [s' Hs']. now apply (CreateChain_Some vertices count s s').
  - intros (Hs & Hc & Hsp). rewrite CreateChain_value by assumption. eauto.
Qed.

(** X23. [CreateChain] on a shape without vertices, given at least 2 vertices
    that are spaced, stores a copy of the vertices and their number, and
    leaves the chain without neighbour vertices. *)
Theorem CreateChain_copies (vertices : list Vec2) (s : b2ChainShape) :
  no_vertices s -> (2 <= length vertices)%nat ->
  spaced b2_linearSlop vertices (length vertices) ->
  exists s' : b2ChainShape,
    CreateChain b2_linearSlop vertices (length vertices) s = Some s' /\
    m_vertices s' = Some (Some <$> vertices) /\
    m_count s' = length vertices /\
    m_hasPrevVertex s' = false /\ m_hasNextVertex s' = false /\
    m_prevVertex s' = Vec2_zero /\ m_nextVertex s' = Vec2_zero.
Proof.
  intros Hs Hc Hsp. eexists. split.
  - apply CreateChain_value; [lia|assumption..].
  - simpl. rewrite take_ge by lia. repeat split.
Qed.

(** X24. A loop made of [count] vertices has [count] child edges and a chain
    made of [count] vertices has [count - 1]; asking a shape without
    vertices for its child count fails the assertion. *)
Theorem GetChildCount_after_create
    (vertices : list Vec2) (count : nat) (s s' : b2ChainShape) :
  (count <= length vertices)%nat ->
  (CreateLoop b2_linearSlop vertices count s = Some s' -> GetChildCount s' = Some count) /\
  (CreateChain b2_linearSlop vertices count s = Some s' ->
   GetChildCount s' = Some (count - 1)%nat) /\
  (no_vertices s -> GetChildCount s = None).
Proof.
  intros Hlen. split; [|split].
  - intros Hs'. destruct (CreateLoop_Some _ _ _ _ Hlen Hs') as (Hs & Hc & Hsp).
    destruct (lookup_lt_is_Some_2 vertices 0) as [v0 H0]; [lia|].
    destruct (lookup_lt_is_Some_2 vertices 1) as [v1 H1]; [lia|].
    destruct (lookup_lt_is_Some_2 vertices (count - 1)) as [vl Hl]; [lia|].
    rewrite (CreateLoop_value vertices count s v0 v1 vl) in Hs' by assumption.
    injection Hs' as <-. unfold GetChildCount. simpl.
    rewrite bool_decide_true by lia. f_equal. lia.
  - intros Hs'. destruct (CreateChain_Some _ _ _ _ Hlen Hs') as (Hs & Hc & Hsp).
    rewrite CreateChain_value in Hs' by assumption.
    injection Hs' as <-. unfold GetChildCount. simpl.
    now rewrite bool_decide_true by lia.
  - intros [_ Hz]. unfold GetChildCount. rewrite Hz. reflexivity.
Qed.
End ChainMoreFacts.

Section ChainChildren.
Import Math.
Local Open Scope R_scope.
Variable b2_linearSlop : R.

Lemma mod_wrap (a n : nat) : (a < n)%nat -> ((a + n) mod n = a)%nat.
Proof. intros Ha. symmetry. apply (Nat.mod_unique _ _ 1%nat); lia. Qed.

Lemma mod_full (n : nat) : (0 < n)%nat -> (n mod n = 0)%nat.
Proof. intros Hn. symmetry. apply (Nat.mod_unique _ _ 1%nat); lia. Qed.

(** Reading the stored ring of a loop at [k] reads the input array at
    [k] modulo its length. *)
Lemma read_ring (vertices : list Vec2) (v0 : Vec2) (k : nat) :
  vertices !! 0%nat = Some v0 -> (k <= length vertices)%nat ->
  read ((Some <$> vertices) ++ [Some v0]) k = vertices !! (k mod length vertices)%nat.
Proof.
  intros H0 Hk. pose proof (lookup_lt_Some _ _ _ H0) as Hn.
  destruct (decide (k = length vertices)) as [->|Hne].
  - rewrite mod_full, H0 by assumption. unfold read.
    rewrite lookup_app_r by (rewrite length_fmap; lia).
    rewrite length_fmap, Nat.sub_diag. reflexivity.
  - rewrite Nat.mod_small by lia.
    destruct (lookup_lt_is_Some_2 vertices k) as [v Hv]; [lia|].
    rewrite Hv. now apply read_app_l.
Qed.

Lemma mapM_Some (l : list Vec2) :
  mapM (M := option) (fun c : cell => (c : option Vec2)) (Some <$> l) = Some l.
Proof.
  induction l as [|v l IH]; [reflexivity|]. simpl.
  change (list_fmap Vec2 (option Vec2) Some l) with (Some <$> l).
  now rewrite IH.
Qed.

Lemma CreateLoop_whole (vertices : list Vec2) (s s' : b2ChainShape) :
  CreateLoop b2_linearSlop vertices (length vertices) s = Some s' ->
  exists v0 v1 vl : Vec2,
    vertices !! 0%nat = Some v0 /\ vertices !! 1%nat = Some v1 /\
    vertices !! (length vertices - 1)%nat = Some vl /\
    (3 <= length vertices)%nat /\
    spaced b2_linearSlop vertices (length vertices) /\
    s' = mkChainShape (Some ((Some <$> vertices) ++ [Some v0])) (length vertices + 1)
                      vl v1 true true.
Proof.
  intros Hs'.
  destruct (CreateLoop_Some _ _ _ _ _ (Nat.le_refl _) Hs') as (Hs & Hc & Hsp).
  destruct (lookup_lt_is_Some_2 vertices 0) as [v0 H0]; [lia|].
  destruct (lookup_lt_is_Some_2 vertices 1) as [v1 H1]; [lia|].
  destruct (lookup_lt_is_Some_2 vertices (length vertices - 1)) as [vl Hl]; [lia|].
  exists v0, v1, vl.
  rewrite (CreateLoop_value _ vertices (length vertices) s v0 v1 vl) in Hs'
    by first [assumption | lia].
  rewrite take_ge in Hs' by lia. injection Hs' as <-. tauto.
Qed.

(** X25. Every child edge of a loop made of all the vertices of an array has
    both neighbour vertices, and its four vertices are the array's at the
    indices before, at, after and two after the child index, counted
    modulo the number of vertices; its radius is the shape's. *)
Theorem GetChildEdge_of_loop
    (vertices : list Vec2) (s s' : b2ChainShape) (radius : R) (edge : b2EdgeShape)
    (index : nat) :
  let n := length vertices in
  CreateLoop b2_linearSlop vertices n s = Some s' -> (index < n)%nat ->
  exists e : b2EdgeShape,
    GetChildEdge radius s' edge index = Some e /\
    e_radius e = radius /\
    vertices !! index = Some (m_vertex1 e) /\
    vertices !! ((index + 1) mod n)%nat = Some (m_vertex2 e) /\
    m_hasVertex0 e = true /\
    vertices !! ((index + n - 1) mod n)%nat = Some (m_vertex0 e) /\
    m_hasVertex3 e = true /\
    vertices !! ((index + 2) mod n)%nat = Some (m_vertex3 e).
Proof.
  intros n Hs' Hi.
  destruct (CreateLoop_whole _ _ _ Hs') as (v0 & v1 & vl & H0 & H1 & Hl & Hn & _ & ->).
  fold n in Hl, Hn.
  destruct (lookup_lt_is_Some_2 vertices index) as [a Ha]; [assumption|].
  destruct (lookup_lt_is_Some_2 vertices ((index + 1) mod n)) as [b Hb];
    [apply Nat.mod_upper_bound; lia|].
  unfold GetChildEdge. simpl.
  rewrite bool_decide_true by (fold n; lia). simpl.
  rewrite (read_ring vertices v0 (index + 0)) by first [assumption | fold n; lia].
  fold n. rewrite Nat.add_0_r, Nat.mod_small, Ha by lia. simpl.
  rewrite (read_ring vertices v0 (index + 1)) by first [assumption | fold n; lia].
  fold n. rewrite Hb. simpl.
  assert (Hprev : (if bool_decide (0 < index)%nat
                   then read ((Some <$> vertices) ++ [Some v0]) (index - 1)
                          ≫= (fun v : Vec2 => Some (Edge_SetVertex0 v
                                 (Edge_Set a b (Edge_SetRadius radius edge))))
                   else Some (Edge_SetVertex0 vl
                                 (Edge_Set a b (Edge_SetRadius radius edge))))
                  = (fun v : Vec2 => Edge_SetVertex0 v
                                 (Edge_Set a b (Edge_SetRadius radius edge)))
                    <$> vertices !! ((index + n - 1) mod n)%nat).
  { destruct (decide (0 < index)%nat) as [Hp|Hp].
    - rewrite (bool_decide_true _ Hp).
      rewrite (read_ring vertices v0 (index - 1)) by first [assumption | fold n; lia].
      fold n. rewrite Nat.mod_small by lia.
      replace (index + n - 1)%nat with ((index - 1) + n)%nat by lia.
      rewrite mod_wrap by lia.
      now destruct (vertices !! (index - 1)%nat).
    - rewrite (bool_decide_false _ Hp).
      assert (index = 0%nat) as -> by lia. simpl.
      rewrite Nat.mod_small by lia. now rewrite Hl. }
  rewrite Hprev. clear Hprev.
  destruct (lookup_lt_is_Some_2 vertices ((index + n - 1) mod n)) as [p Hp];
    [apply Nat.mod_upper_bound; lia|].
  rewrite Hp. simpl.
  replace (n + 1 - 2)%nat with (n - 1)%nat by lia.
  destruct (lookup_lt_is_Some_2 vertices ((index + 2) mod n)) as [q Hq];
    [apply Nat.mod_upper_bound; lia|].
  destruct (decide (index < n - 1)%nat) as [Hlt|Hlt].
  - rewrite (bool_decide_true _ Hlt).
    rewrite (read_ring vertices v0 (index + 2)) by first [assumption | fold n; lia].
    fold n. rewrite Hq. simpl. eexists. split; [reflexivity|]. simpl. tauto.
  - rewrite (bool_decide_false _ Hlt).
    assert (Hq' : q = v1).
    { replace (index + 2)%nat with (1 + n)%nat in Hq by lia.
      rewrite mod_wrap in Hq by lia. congruence. }
    subst q. eexists. split; [reflexivity|]. simpl. tauto.
Qed.

(** X26. The clone of a chain made of all the vertices of an array is the
    chain itself. *)
Theorem Clone_of_chain (vertices : list Vec2) (s s' : b2ChainShape) :
  CreateChain b2_linearSlop vertices (length vertices) s = Some s' ->
  Clone b2_linearSlop s' = Some s'.
Proof.
  intros Hs'.
  destruct (CreateChain_Some _ _ _ _ _ (Nat.le_refl _) Hs') as (Hs & Hc & Hsp).
  rewrite CreateChain_value in Hs' by first [assumption | lia].
  rewrite take_ge in Hs' by lia. injection Hs' as <-.
  unfold Clone, vertices_of. simpl. rewrite mapM_Some. simpl.
  rewrite CreateChain_value by first [assumption | lia | now split].
  simpl. now rewrite take_ge by lia.
Qed.

(** X27. [CreateLoop] does not test the distance from the last vertex to the
    first, and [Clone] does: the clone of a loop is the loop itself when
    the last vertex is further from the first than the linear slop, and
    cloning fails the assertion when it is not. *)
Theorem Clone_of_loop (vertices : list Vec2) (s s' : b2ChainShape) (first last : Vec2) :
  CreateLoop b2_linearSlop vertices (length vertices) s = Some s' ->
  vertices !! 0%nat = Some first ->
  vertices !! (length vertices - 1)%nat = Some last ->
  (b2DistanceSquared last first > Square b2_linearSlop -> Clone b2_linearSlop s' = Some s') /\
  (~ b2DistanceSquared last first > Square b2_linearSlop -> Clone b2_linearSlop s' = None).
Proof.
  intros Hs' Hfirst Hlast.
  destruct (CreateLoop_whole _ _ _ Hs') as (v0 & v1 & vl & H0 & H1 & Hl & Hn & Hsp & ->).
  assert (v0 = first) as -> by congruence.
  assert (vl = last) as -> by congruence.
  assert (Hring : (Some <$> vertices) ++ [Some first]
                  = (Some <$> (vertices ++ [first]) : list cell)).
  { now rewrite fmap_app. }
  assert (Hlen : length (vertices ++ [first]) = (length vertices + 1)%nat).
  { rewrite length_app. reflexivity. }
  unfold Clone, vertices_of. simpl. rewrite Hring, mapM_Some. simpl.
  split.
  - intros Hclose.
    rewrite CreateChain_value; [| lia | now split | lia |].
    + simpl. now rewrite take_ge by lia.
    + intros i a b Hi Hia Hib.
      destruct (decide (S i < length vertices)%nat) as [Hin|Hin].
      * rewrite lookup_app_l in Hia, Hib by lia. now apply (Hsp i).
      * assert (S i = length vertices) as Hi' by lia.
        rewrite lookup_app_l in Hia by lia.
        rewrite lookup_app_r in Hib by lia.
        replace (S i - length vertices)%nat with 0%nat in Hib by lia.
        replace i with (length vertices - 1)%nat in Hia by lia.
        simpl in Hib. congruence.
  - intros Hclose.
    destruct (CreateChain b2_linearSlop (vertices ++ [first]) (length vertices + 1)
                {| m_vertices := None; m_count := 0; m_prevVertex := Vec2_zero;
                   m_nextVertex := Vec2_zero; m_hasPrevVertex := false;
                   m_hasNextVertex := false |}) as [c|] eqn:Hc; [|reflexivity].
    exfalso. apply Hclose.
    assert (Hle : (length vertices + 1 <= length (vertices ++ [first]))%nat) by lia.
    destruct (CreateChain_Some _ _ _ _ _ Hle Hc) as (_ & _ & Hsp').
    apply (Hsp' (length vertices - 1)%nat); [lia| |].
    + rewrite lookup_app_l by lia. assumption.
    + rewrite lookup_app_r by lia.
      now replace (S (length vertices - 1) - length vertices)%nat with 0%nat by lia.
Qed.
End ChainChildren.

(** ** The legacy body: mass data and acceleration *)

Section LegacyMoreFacts.
Context `{L : FlagLayout}.
Import Math Geometry.
Local Open Scope R_scope.

(** X28. The legacy [ResetMassData] of an accelerable body is
    [SetMassData], in an unlocked world, on the mass data of the fixtures
    with the center of mass in place of the first moment. In a build
    without assertions the two always agree. In a build with assertions
    they agree unless the accumulated rotational inertia is positive, the
    rotation is not fixed and the inertia shifted to the center of mass is
    not positive: there [SetMassData] fails its assertion, the one that
    [ResetMassData] has commented out. *)
Theorem Legacy_ResetMassData_is_SetMassData (b : Legacy.Body) :
  Legacy.IsAccelerable b = true ->
  LegacyMore.SetMassData true false (LegacyMore.centered_mass_data b) b
  = Some (Legacy.ResetMassData b) /\
  (md_I (Legacy.ComputeMassData b) > 0 /\ Legacy.IsFixedRotation b = false /\
   ~ Legacy_shifted_inertia b > 0 ->
   LegacyMore.SetMassData false false (LegacyMore.centered_mass_data b) b = None) /\
  (~ (md_I (Legacy.ComputeMassData b) > 0 /\ Legacy.IsFixedRotation b = false /\
      ~ Legacy_shifted_inertia b > 0) ->
   LegacyMore.SetMassData false false (LegacyMore.centered_mass_data b) b
   = Some (Legacy.ResetMassData b)).
Proof.
  intros Hacc.
  unfold LegacyMore.SetMassData, Legacy.ResetMassData, LegacyMore.centered_mass_data.
  rewrite Hacc. cbn [negb andb md_mass md_center md_I].
  change (Legacy.IsFixedRotation
            (Legacy.set_m_invMass
               (1 / (if bool_decide (md_mass (Legacy.ComputeMassData b) > 0)
                     then md_mass (Legacy.ComputeMassData b) else 1)) b))
    with (Legacy.IsFixedRotation b).
  change (Legacy.m_invMass
            (Legacy.set_m_invMass
               (1 / (if bool_decide (md_mass (Legacy.ComputeMassData b) > 0)
                     then md_mass (Legacy.ComputeMassData b) else 1)) b))
    with (1 / Legacy_reset_mass b).
  fold (Legacy_reset_mass b). fold (Legacy_reset_localCenter b).
  fold (Legacy_shifted_inertia b).
  destruct (bool_decide (md_I (Legacy.ComputeMassData b) > 0)) eqn:HI;
    destruct (Legacy.IsFixedRotation b) eqn:Hfix; cbn [negb andb].
  all: try (split; [reflexivity|]; split; [|reflexivity];
            apply bool_decide_eq_false in HI || idtac;
            intros (H1 & H2 & H3); first [discriminate | contradiction]).
  split; [reflexivity|]. apply bool_decide_eq_true in HI. split.
  - intros (_ & _ & Hns). now rewrite (bool_decide_false _ Hns).
  - intros Hn. rewrite bool_decide_true; [reflexivity|].
    destruct (Rgt_dec (Legacy_shifted_inertia b) 0) as [Hp|Hp]; [assumption|].
    exfalso. apply Hn. auto.
Qed.

(** X29. The legacy [SetAcceleration] and the current one store the
    same acceleration in bodies that agree on being accelerable and on
    the acceleration they had. The legacy one changes nothing else: in
    particular it never wakes a body. *)
Theorem Legacy_SetAcceleration_agrees
    (GetAngle_of : Vec2 -> R) (lin : Vec2) (ang : R) (b : Body) (lb : Legacy.Body) :
  IsAccelerable b = Legacy.IsAccelerable lb ->
  m_linearAcceleration b = Legacy.m_linearAcceleration lb ->
  m_angularAcceleration b = Legacy.m_angularAcceleration lb ->
  m_linearAcceleration (SetAcceleration GetAngle_of lin ang b)
  = Legacy.m_linearAcceleration (LegacyMore.SetAcceleration lin ang lb) /\
  m_angularAcceleration (SetAcceleration GetAngle_of lin ang b)
  = Legacy.m_angularAcceleration (LegacyMore.SetAcceleration lin ang lb) /\
  LegacyMore.SetAcceleration lin ang lb
  = LegacyMore.set_acceleration
      (Legacy.m_linearAcceleration (LegacyMore.SetAcceleration lin ang lb))
      (Legacy.m_angularAcceleration (LegacyMore.SetAcceleration lin ang lb)) lb.
Proof.
  intros Hacc Hlin Hang.
  unfold SetAcceleration, LegacyMore.SetAcceleration. rewrite <- Hacc.
  destruct (bool_decide (m_linearAcceleration b = lin)
            && bool_decide (m_angularAcceleration b = ang)) eqn:Hsame.
  - apply andb_true_iff in Hsame. destruct Hsame as [H1 H2].
    apply bool_decide_eq_true in H1, H2.
    assert (Hlb : LegacyMore.set_acceleration lin ang lb = lb).
    { destruct lb. unfold LegacyMore.set_acceleration. simpl in *. congruence. }
    destruct (bool_decide (lin <> Vec2_zero) || bool_decide (ang <> 0));
      destruct (IsAccelerable b); cbn [negb]; rewrite ?Hlb;
      (split; [congruence|]); (split; [congruence|]); now destruct lb.
  - destruct (bool_decide (lin <> Vec2_zero) || bool_decide (ang <> 0));
      destruct (IsAccelerable b); cbn [negb];
      try match goal with |- context [if ?c then _ else _] => destruct c end;
      (split; [first [reflexivity | assumption]|]);
      (split; [first [reflexivity | assumption]|]); now destruct lb.
Qed.
End LegacyMoreFacts.

(** ** The properties above at concrete inputs *)

Module ExtraWitnesses.
Import Math Geometry Examples WorldExamples MoreExamples ExtraExamples MassSums Rope RopeMore.
Local Open Scope R_scope.
#[local] Existing Instance playrho_layout.

Lemma offset_body_invariant : BodyInvariant offset_body.
Proof.
  constructor; intros;
    first [reflexivity | split; reflexivity | (vm_compute in *; discriminate)].
Qed.

Lemma Body_mutators_keep_invariant_witness :
  BodyInvariant (SetVelocity fast offset_body) /\
  BodyInvariant (SetAcceleration flat_angle (mkVec2 0 (-10)) 0 offset_body) /\
  BodyInvariant (SetFixedRotation true offset_body).
Proof.
  destruct (Body_mutators_keep_invariant flat_angle offset_body fast (mkVec2 0 (-10)) 0 true
              offset_body_invariant) as (H1 & H2 & _ & _ & H5).
  split; [assumption|]. split; assumption.
Defined.

Lemma ResetMassData_keeps_point_velocities_witness :
  angular (m_velocity (ResetMassData offset_body)) = angular (m_velocity offset_body) /\
  velocity_of_point (ResetMassData offset_body) (mkVec2 1 1)
  = velocity_of_point offset_body (mkVec2 1 1).
Proof.
  apply (ResetMassData_keeps_point_velocities offset_body (mkVec2 1 1)). reflexivity.
Defined.

Lemma ResetMassData_without_dense_fixtures_witness :
  m_invMass (ResetMassData hollow_body) = 1 /\
  GetWorldCenter (ResetMassData hollow_body) = GetLocation hollow_body.
Proof.
  destruct (ResetMassData_without_dense_fixtures hollow_body) as (H1 & _ & _ & H4).
  - reflexivity.
  - constructor; [|constructor]. unfold dense. simpl. lra.
  - split; assumption.
Defined.

Lemma SolveVelocityConstraints_stops_separation_witness :
  exists (ret : R) (j' : RopeJoint) (bodies' : gmap N BodyConstraint)
         (bodiesA' bodiesB' : BodyConstraint),
    SolveVelocityConstraints balanced_rope rope_bodies unit_step = Some (ret, j', bodies') /\
    bodies' !! 1%N = Some bodiesA' /\
    bodies' !! 2%N = Some bodiesB' /\
    Cdot_of j' unit_step (bcn_velocity bodiesA') (bcn_velocity bodiesB') <= 0.
Proof.
  destruct (SolveVelocityConstraints_stops_separation balanced_rope rope_bodies unit_step
              leftward rightward)
    as (ret & j' & bodies' & a & b & H1 & H2 & H3 & H4 & _).
  - reflexivity.
  - reflexivity.
  - simpl. discriminate.
  - simpl. lra.
  - unfold inverse_effective_mass, GetMagnitudeSquared, Square, Cross. simpl. lra.
  - exists ret, j', bodies', a, b. auto.
Defined.

Lemma SolveVelocityConstraints_conserves_momentum_witness :
  exists (ret : R) (j' : RopeJoint) (bodies' : gmap N BodyConstraint)
         (bodiesA' bodiesB' : BodyConstraint),
    SolveVelocityConstraints rope rope_bodies unit_step = Some (ret, j', bodies') /\
    bodies' !! 1%N = Some bodiesA' /\
    bodies' !! 2%N = Some bodiesB' /\
    linear_momentum bodiesA' bodiesB' = linear_momentum leftward rightward.
Proof.
  apply (SolveVelocityConstraints_conserves_momentum rope rope_bodies unit_step
           leftward rightward).
  - reflexivity.
  - reflexivity.
  - simpl. discriminate.
  - simpl. lra.
  - simpl. lra.
Defined.

Lemma SolveVelocityConstraints_idle_witness :
  SolveVelocityConstraints closing_rope rope_bodies unit_step
  = Some (0, closing_rope, rope_bodies).
Proof.
  apply (SolveVelocityConstraints_idle closing_rope rope_bodies unit_step
           rightward leftward).
  - reflexivity.
  - reflexivity.
  - reflexivity.
  - unfold Cdot_of. simpl. rewrite bool_decide_false by lra.
    unfold Dot, vsub, vadd, vscale, GetRevPerpendicular. simpl. lra.
Defined.

Lemma GetReactionForce_pulls_witness :
  exists (ret : R) (j' : RopeJoint) (bodies' : gmap N BodyConstraint),
    SolveVelocityConstraints rope rope_bodies unit_step = Some (ret, j', bodies') /\
    Dot (GetReactionForce j' 1) (uv_vec (m_u j')) <= 0 /\
    GetReactionTorque j' 1 = 0.
Proof.
  pose proof (SolveVelocityConstraints_result rope rope_bodies unit_step leftward rightward
                eq_refl eq_refl) as H.
  cbv zeta in H.
  do 3 eexists. split; [exact H|].
  apply (GetReactionForce_pulls _ _ _ _ _ _ 1 H). lra.
Defined.

Lemma InitVelocityConstraints_limit_state_witness :
  exists (j' : RopeJoint) (bodies' : gmap N BodyConstraint),
    InitVelocityConstraints along_x rope rope_bodies unit_step solver_conf
    = Some (j', bodies') /\
    m_state j' = e_atUpperLimit.
Proof.
  destruct (InitVelocityConstraints_limit_state along_x rope rope_bodies unit_step
              solver_conf leftward rightward)
    as (j' & bodies' & H & Hlen & Hmax & Hup & _).
  - reflexivity.
  - reflexivity.
  - exists j', bodies'. split; [assumption|].
    apply Hup. rewrite Hmax, Hlen. simpl. lra.
Defined.

Lemma SolvePositionConstraints_slack_witness :
  SolvePositionConstraints along_x slack_rope rope_bodies solver_conf
  = Some (true, rope_bodies).
Proof.
  apply (SolvePositionConstraints_slack along_x slack_rope rope_bodies solver_conf
           leftward rightward).
  - reflexivity.
  - reflexivity.
  - simpl. lra.
  - simpl. lra.
  - simpl. lra.
Defined.
Lemma InitVelocityConstraints_effective_mass_witness :
  exists (j' : RopeJoint) (bodies' : gmap N BodyConstraint),
    InitVelocityConstraints along_x rope rope_bodies unit_step solver_conf
    = Some (j', bodies') /\
    m_u j' = mkUnitVec 1 0 /\
    m_mass j' * inverse_effective_mass j' leftward rightward = 1.
Proof.
  destruct (InitVelocityConstraints along_x rope rope_bodies unit_step solver_conf)
    as [[j' bodies']|] eqn:H.
  - exists j', bodies'. split; [reflexivity|].
    pose proof H as H'. unfold InitVelocityConstraints in H'.
    rewrite (eq_refl : rope_bodies !! rj_bodyA rope = Some leftward) in H'.
    rewrite (eq_refl : rope_bodies !! rj_bodyB rope = Some rightward) in H'.
    cbv beta iota zeta delta [along_x] in H'.
    rewrite (bool_decide_true (4 > linearSlop solver_conf)) in H' by (simpl; lra).
    change (doWarmStart unit_step) with true in H'. cbv iota in H'.
    injection H' as Hj Hb.
    apply (InitVelocityConstraints_effective_mass along_x rope rope_bodies unit_step
             solver_conf leftward rightward j' bodies').
    + reflexivity.
    + reflexivity.
    + exact H.
    + rewrite <- Hj. simpl. lra.
    + unfold GetMagnitudeSquared, Square. simpl. lra.
    + rewrite <- Hj. unfold inverse_effective_mass, GetMagnitudeSquared, Square. simpl. lra.
  - exfalso. unfold InitVelocityConstraints in H.
    rewrite (eq_refl : rope_bodies !! rj_bodyA rope = Some leftward) in H.
    rewrite (eq_refl : rope_bodies !! rj_bodyB rope = Some rightward) in H.
    cbv beta iota zeta delta [along_x] in H.
    repeat match type of H with
           | context [if ?c then _ else _] => destruct c
           end; discriminate H.
Defined.

Lemma triangle_spaced : spaced 0 triangle 3.
Proof.
  intros i a b Hi Ha Hb.
  destruct i as [|[|i]]; simpl in Ha, Hb; try lia;
    injection Ha as <-; injection Hb as <-;
    unfold b2DistanceSquared, GetMagnitudeSquared, Square, vsub; simpl; lra.
Qed.

Lemma pinched_spaced : spaced 1 pinched 4.
Proof.
  intros i a b Hi Ha Hb.
  destruct i as [|[|[|i]]]; simpl in Ha, Hb; try lia;
    injection Ha as <-; injection Hb as <-;
    unfold b2DistanceSquared, GetMagnitudeSquared, Square, vsub; simpl; lra.
Qed.

Lemma triangle_loop :
  CreateLoop 0 triangle 3 empty_chain
  = Some (mkChainShape (Some ((Some <$> take 3 triangle) ++ [Some (mkVec2 0 0)])) (3 + 1)
                       (mkVec2 0 1) (mkVec2 1 0) true true).
Proof.
  apply CreateLoop_value;
    first [reflexivity | exact triangle_spaced | (split; reflexivity) | (simpl; lia)].
Qed.

Lemma triangle_chain :
  CreateChain 0 triangle 3 empty_chain
  = Some (mkChainShape (Some (Some <$> take 3 triangle)) 3 Vec2_zero Vec2_zero false false).
Proof.
  apply CreateChain_value;
    first [exact triangle_spaced | (split; reflexivity) | (simpl; lia)].
Qed.

Lemma pinched_loop :
  CreateLoop 1 pinched 4 empty_chain
  = Some (mkChainShape (Some ((Some <$> take 4 pinched) ++ [Some (mkVec2 0 0)])) (4 + 1)
                       (mkVec2 0 (1 / 2)) (mkVec2 2 0) true true).
Proof.
  apply CreateLoop_value;
    first [reflexivity | exact pinched_spaced | (split; reflexivity) | (simpl; lia)].
Qed.

Lemma Create_succeeds_iff_witness :
  is_Some (CreateLoop 0 triangle 3 empty_chain) /\
  is_Some (CreateChain 0 triangle 3 empty_chain).
Proof.
  destruct (Create_succeeds_iff 0 triangle 3 empty_chain) as [[_ H1] [_ H2]].
  - simpl. lia.
  - split; [apply H1|apply H2];
      (split; [split; reflexivity|]; split; [lia|exact triangle_spaced]).
Defined.

Lemma CreateChain_copies_witness :
  exists s' : b2ChainShape,
    CreateChain 0 triangle 3 empty_chain = Some s' /\
    m_vertices s' = Some (Some <$> triangle) /\ m_count s' = 3%nat.
Proof.
  destruct (CreateChain_copies 0 triangle empty_chain) as (s' & H1 & H2 & H3 & _).
  - split; reflexivity.
  - simpl. lia.
  - exact triangle_spaced.
  - exists s'. split; [exact H1|]. split; [exact H2|exact H3].
Defined.

Lemma GetChildCount_after_create_witness :
  exists s' : b2ChainShape,
    CreateLoop 0 triangle 3 empty_chain = Some s' /\ GetChildCount s' = Some 3%nat.
Proof.
  eexists. split; [exact triangle_loop|].
  apply (GetChildCount_after_create 0 triangle 3 empty_chain).
  - simpl. lia.
  - exact triangle_loop.
Defined.

Lemma GetChildEdge_of_loop_witness :
  exists (s' : b2ChainShape) (e : b2EdgeShape),
    CreateLoop 0 triangle 3 empty_chain = Some s' /\
    GetChildEdge 1 s' blank_edge 2 = Some e /\
    m_vertex0 e = mkVec2 1 0 /\ m_vertex1 e = mkVec2 0 1 /\
    m_vertex2 e = mkVec2 0 0 /\ m_vertex3 e = mkVec2 1 0.
Proof.
  destruct (GetChildEdge_of_loop 0 triangle empty_chain _ 1 blank_edge 2 triangle_loop)
    as (e & He & _ & H1 & H2 & _ & H0 & _ & H3).
  - simpl. lia.
  - eexists _, e. split; [exact triangle_loop|]. split; [exact He|].
    split; [|split; [|split]]; symmetry; apply (inj Some);
      [exact H0|exact H1|exact H2|exact H3].
Defined.

Lemma Clone_of_chain_witness :
  exists s' : b2ChainShape,
    CreateChain 0 triangle 3 empty_chain = Some s' /\ Clone 0 s' = Some s'.
Proof.
  eexists. split; [exact triangle_chain|].
  apply (Clone_of_chain 0 triangle empty_chain). exact triangle_chain.
Defined.

Lemma Clone_of_loop_witness :
  exists s' : b2ChainShape,
    CreateLoop 1 pinched 4 empty_chain = Some s' /\ Clone 1 s' = None.
Proof.
  eexists. split; [exact pinched_loop|].
  apply (Clone_of_loop 1 pinched empty_chain _ (mkVec2 0 0) (mkVec2 0 (1 / 2)) pinched_loop).
  - reflexivity.
  - reflexivity.
  - unfold b2DistanceSquared, GetMagnitudeSquared, Square, vsub. simpl. lra.
Defined.

Lemma legacy_offset_body_shifted_inertia : Legacy_shifted_inertia legacy_offset_body = -3.
Proof.
  unfold Legacy_shifted_inertia, Legacy_reset_localCenter, Legacy_reset_mass.
  rewrite MassDataExamples.legacy_offset_body_mass_data. simpl.
  rewrite bool_decide_true by lra.
  unfold GetMagnitudeSquared, Square, vscale. simpl. field.
Qed.

Lemma Legacy_ResetMassData_is_SetMassData_witness :
  LegacyMore.SetMassData true false (LegacyMore.centered_mass_data legacy_offset_body)
                         legacy_offset_body
  = Some (Legacy.ResetMassData legacy_offset_body) /\
  LegacyMore.SetMassData false false (LegacyMore.centered_mass_data legacy_offset_body)
                         legacy_offset_body
  = None.
Proof.
  destruct (Legacy_ResetMassData_is_SetMassData legacy_offset_body) as (H1 & H2 & _).
  - reflexivity.
  - split; [exact H1|]. apply H2. split; [|split].
    + rewrite MassDataExamples.legacy_offset_body_mass_data. simpl. lra.
    + reflexivity.
    + rewrite legacy_offset_body_shifted_inertia. lra.
Defined.

Lemma Legacy_SetAcceleration_agrees_witness :
  m_linearAcceleration (SetAcceleration flat_angle (mkVec2 0 (-10)) 0 offset_body)
  = Legacy.m_linearAcceleration
      (LegacyMore.SetAcceleration (mkVec2 0 (-10)) 0 legacy_offset_body).
Proof.
  apply (Legacy_SetAcceleration_agrees flat_angle (mkVec2 0 (-10)) 0 offset_body
           legacy_offset_body); reflexivity.
Defined.
End ExtraWitnesses.
